(** * The [<todo-storage>] element of serg-io/todo

    A shallow embedding of [src/todo-storage.js]: the storage adapter that
    keeps the list of todo items in [window.localStorage] as one JSON
    document, together with the parts of the JavaScript runtime it relies
    on ([String.prototype.trim], strict equality, property access,
    [JSON.stringify] and [JSON.parse]).

    Layout: [Js] holds strings, primitive values and objects; [Json] the
    serializer and the parser; [TodoStorage] the element itself.  The facts
    proved about them follow the definitions.

    [TodoApp] holds the listeners of [src/todo-app.js] that call the
    store; [Dom], [CustomElement], [TodoItem], [TodoList], [TodoFooter]
    and [TodoAppView] the attributes of the views, [byId] and the
    listeners that redraw the list. *)

From Stdlib Require Import List ZArith NArith Bool String Ascii Lia.
From Stdlib Require Import DecimalPos DecimalN DecimalZ.
From stdpp Require Import base list gmap.

Import ListNotations.
Local Open Scope N_scope.

(* ===================================================================== *)
(** ** JavaScript values *)
(* ===================================================================== *)

Module Js.

(** A JavaScript string is a sequence of UTF-16 code units. *)
Definition jstring : Type := list N.

(** Literals of the source are written [js "..."]. *)
Definition js (s : string) : jstring :=
  List.map N_of_ascii (list_ascii_of_string s).

(** ECMAScript [WhiteSpace] and [LineTerminator] code units, the ones
    [trim] removes. *)
Definition is_white_space (c : N) : bool :=
  (c =? 0x09) || (c =? 0x0A) || (c =? 0x0B) || (c =? 0x0C) || (c =? 0x0D)
  || (c =? 0x20) || (c =? 0xA0) || (c =? 0x1680)
  || ((0x2000 <=? c) && (c <=? 0x200A))
  || (c =? 0x2028) || (c =? 0x2029) || (c =? 0x202F) || (c =? 0x205F)
  || (c =? 0x3000) || (c =? 0xFEFF).

Fixpoint trimStart (s : jstring) : jstring :=
  match s with
  | [] => []
  | c :: r => if is_white_space c then trimStart r else s
  end.

Definition trimEnd (s : jstring) : jstring := rev (trimStart (rev s)).

(** [String.prototype.trim]. *)
Definition trim (s : jstring) : jstring := trimEnd (trimStart s).

(** The primitive values a todo item holds.  Numbers are the integers:
    ids are [Date.now()] timestamps. *)
Inductive value : Type :=
| VUndefined
| VNull
| VBool (b : bool)
| VNumber (n : Z)
| VString (s : jstring).

Inductive jstype : Type := TyUndefined | TyObject | TyBoolean | TyNumber | TyString.

(** [typeof v]. *)
Definition typeof (v : value) : jstype :=
  match v with
  | VUndefined => TyUndefined
  | VNull => TyObject
  | VBool _ => TyBoolean
  | VNumber _ => TyNumber
  | VString _ => TyString
  end.

Fixpoint jstring_eqb (a b : jstring) : bool :=
  match a, b with
  | [], [] => true
  | x :: a', y :: b' => (x =? y) && jstring_eqb a' b'
  | _, _ => false
  end.

(** [a === b] on primitives. *)
Definition strict_eq (a b : value) : bool :=
  match a, b with
  | VUndefined, VUndefined => true
  | VNull, VNull => true
  | VBool x, VBool y => Bool.eqb x y
  | VNumber x, VNumber y => Z.eqb x y
  | VString x, VString y => jstring_eqb x y
  | _, _ => false
  end.

#[global] Instance value_eq_dec : EqDecision value.
Proof. solve_decision. Defined.

(** [ToBoolean v], the test an [if (v)] performs. *)
Definition truthy (v : value) : bool :=
  match v with
  | VUndefined | VNull => false
  | VBool b => b
  | VNumber n => negb (Z.eqb n 0)
  | VString s => negb (Nat.eqb (List.length s) 0)
  end.

(** An object is its own properties in creation order.  The property
    names of the element ([id], [title], [completed]) are not array
    indices and do not shadow anything of [Object.prototype]. *)
Definition obj : Type := list (jstring * value).

Definition keys (o : obj) : list jstring := List.map fst o.

(** [o[k]]; a missing property reads as [undefined]. *)
Fixpoint get (o : obj) (k : jstring) : value :=
  match o with
  | [] => VUndefined
  | (k', v) :: r => if jstring_eqb k' k then v else get r k
  end.

(** [o[k] = v]: overwrite in place, or add as the last property, as an
    assignment does for a name that is not [__proto__] and not written in
    digits. *)
Fixpoint set (o : obj) (k : jstring) (v : value) : obj :=
  match o with
  | [] => [(k, v)]
  | (k', v') :: r =>
      if jstring_eqb k' k then (k', v) :: r else (k', v') :: set r k v
  end.

(** [for ( k in src ) { dst[ k ] = src[ k ]; }] *)
Definition assign (dst src : obj) : obj :=
  fold_left (fun d k => set d k (get src k)) (keys src) dst.

(** The names of the members of [Object.prototype], which every object
    made by an object literal or by [JSON.parse] inherits. *)
Definition prototype_names : list jstring :=
  [js "constructor"; js "hasOwnProperty"; js "isPrototypeOf";
   js "propertyIsEnumerable"; js "toLocaleString"; js "toString"; js "valueOf";
   js "__proto__"; js "__defineGetter__"; js "__defineSetter__";
   js "__lookupGetter__"; js "__lookupSetter__"].

Definition inherited (k : jstring) : bool :=
  existsb (fun k' => jstring_eqb k' k) prototype_names.

(** [o.hasOwnProperty( k )] *)
Definition owns (o : obj) (k : jstring) : bool :=
  existsb (fun k' => jstring_eqb k' k) (keys o).

(** [o[k]] for a name [k] that is not known in advance: the own property
    when there is one; else the member of [Object.prototype] of that
    name, a function or the prototype itself and so no primitive value,
    [None] here; else [undefined]. *)
Definition read (o : obj) (k : jstring) : option value :=
  if owns o k then Some (get o k)
  else if inherited k then None
  else Some VUndefined.

(** A name written in decimal digits.  An object lists the names that are
    array indices first, whatever the order they were added in, and every
    array index is such a name. *)
Definition index_like (k : jstring) : bool :=
  match k with
  | [] => false
  | _ :: _ => forallb (fun c => (48 <=? c) && (c <=? 57)) k
  end.

End Js.

(* ===================================================================== *)
(** ** [JSON.stringify] and [JSON.parse] *)
(* ===================================================================== *)

Module Json.
Import Js.

(** Numbers are exact in the range of the safe integers. *)
Definition MAX_SAFE_INTEGER : Z := 9007199254740991.

Definition safe_integer (z : Z) : bool :=
  ((- MAX_SAFE_INTEGER <=? z) && (z <=? MAX_SAFE_INTEGER))%Z.

(** The parts with [sep] between them. *)
Definition join {A} (sep : list A) (parts : list (list A)) : list A :=
  match parts with
  | [] => []
  | p :: ps => p ++ List.concat (List.map (fun q => sep ++ q) ps)
  end.

(** *** Serializer *)

Definition hex_digit (n : N) : N := if n <? 10 then 48 + n else 87 + n.

(** [UnicodeEscape]: a backslash, [u] and four lower-case hex digits. *)
Definition unicode_escape (c : N) : jstring :=
  [92; 117; hex_digit (c / 4096 mod 16); hex_digit (c / 256 mod 16);
   hex_digit (c / 16 mod 16); hex_digit (c mod 16)].

Definition is_high_surrogate (c : N) : bool := (0xD800 <=? c) && (c <=? 0xDBFF).
Definition is_low_surrogate (c : N) : bool := (0xDC00 <=? c) && (c <=? 0xDFFF).

(** One code unit that is not the first half of a surrogate pair. *)
Definition quote_unit (c : N) : jstring :=
  if c =? 8 then [92; 98]
  else if c =? 9 then [92; 116]
  else if c =? 10 then [92; 110]
  else if c =? 12 then [92; 102]
  else if c =? 13 then [92; 114]
  else if c =? 34 then [92; 34]
  else if c =? 92 then [92; 92]
  else if (c <? 32) || is_high_surrogate c || is_low_surrogate c
       then unicode_escape c
  else [c].

(** The characters between the quotes of [QuoteJSONString]: a surrogate
    pair is copied, a lone surrogate is escaped. *)
Fixpoint quote_body (s : jstring) : jstring :=
  match s with
  | [] => []
  | c :: r =>
      if is_high_surrogate c then
        match r with
        | d :: r' =>
            if is_low_surrogate d then c :: d :: quote_body r'
            else unicode_escape c ++ quote_body r
        | [] => unicode_escape c
        end
      else quote_unit c ++ quote_body r
  end.

Definition quote (s : jstring) : jstring := [34] ++ quote_body s ++ [34].

Fixpoint uint_codes (u : Decimal.uint) : jstring :=
  match u with
  | Decimal.Nil => []
  | Decimal.D0 r => 48 :: uint_codes r
  | Decimal.D1 r => 49 :: uint_codes r
  | Decimal.D2 r => 50 :: uint_codes r
  | Decimal.D3 r => 51 :: uint_codes r
  | Decimal.D4 r => 52 :: uint_codes r
  | Decimal.D5 r => 53 :: uint_codes r
  | Decimal.D6 r => 54 :: uint_codes r
  | Decimal.D7 r => 55 :: uint_codes r
  | Decimal.D8 r => 56 :: uint_codes r
  | Decimal.D9 r => 57 :: uint_codes r
  end.

(** [Number::toString] of an integer. *)
Definition number_to_string (z : Z) : jstring :=
  match Z.to_int z with
  | Decimal.Pos u => uint_codes u
  | Decimal.Neg u => 45 :: uint_codes u
  end.

(** [SerializeJSONProperty]; [None] is the [undefined] result that makes
    the enclosing object skip the property. *)
Definition stringify_value (v : value) : option jstring :=
  match v with
  | VUndefined => None
  | VNull => Some (js "null")
  | VBool true => Some (js "true")
  | VBool false => Some (js "false")
  | VNumber z => Some (number_to_string z)
  | VString s => Some (quote s)
  end.

Definition stringify_member (kv : jstring * value) : option jstring :=
  match stringify_value (snd kv) with
  | Some s => Some (quote (fst kv) ++ [58] ++ s)
  | None => None
  end.

Definition stringify_object (o : obj) : jstring :=
  [123] ++ join [44] (omap stringify_member o) ++ [125].

(** [JSON.stringify( todos )] on an array of objects. *)
Definition stringify (todos : list obj) : jstring :=
  [91] ++ join [44] (List.map stringify_object todos) ++ [93].

(** *** Parser *)

Inductive token : Type :=
| TLBracket | TRBracket | TLBrace | TRBrace | TComma | TColon
| TStr (s : jstring) | TNum (z : Z) | TTrue | TFalse | TNull.

Inductive lex_mode : Type :=
| LDefault
| LString (acc : jstring)                  (* characters read, last first *)
| LNumber (neg : bool) (acc : Decimal.uint). (* digits read, last first *)

Definition is_json_ws (c : N) : bool :=
  (c =? 32) || (c =? 9) || (c =? 10) || (c =? 13).

Definition punct (c : N) : option token :=
  if c =? 91 then Some TLBracket
  else if c =? 93 then Some TRBracket
  else if c =? 123 then Some TLBrace
  else if c =? 125 then Some TRBrace
  else if c =? 44 then Some TComma
  else if c =? 58 then Some TColon
  else None.

Definition push_digit (c : N) (acc : Decimal.uint) : option Decimal.uint :=
  match c with
  | 48 => Some (Decimal.D0 acc)
  | 49 => Some (Decimal.D1 acc)
  | 50 => Some (Decimal.D2 acc)
  | 51 => Some (Decimal.D3 acc)
  | 52 => Some (Decimal.D4 acc)
  | 53 => Some (Decimal.D5 acc)
  | 54 => Some (Decimal.D6 acc)
  | 55 => Some (Decimal.D7 acc)
  | 56 => Some (Decimal.D8 acc)
  | 57 => Some (Decimal.D9 acc)
  | _ => None
  end.

(** A JSON integer has no leading zero. *)
Definition canonical (u : Decimal.uint) : bool :=
  match u with
  | Decimal.Nil => false
  | Decimal.D0 Decimal.Nil => true
  | Decimal.D0 _ => false
  | _ => true
  end.

Definition number_token (neg : bool) (acc : Decimal.uint) : option token :=
  let u := Decimal.rev acc in
  let z := Z.of_int (if neg then Decimal.Neg u else Decimal.Pos u) in
  if canonical u && safe_integer z then Some (TNum z) else None.

(** The character a one-letter escape stands for. *)
Definition unescape (e : N) : option N :=
  if e =? 34 then Some 34
  else if e =? 92 then Some 92
  else if e =? 47 then Some 47
  else if e =? 98 then Some 8
  else if e =? 102 then Some 12
  else if e =? 110 then Some 10
  else if e =? 114 then Some 13
  else if e =? 116 then Some 9
  else None.

Definition hex_value (h : N) : option N :=
  if (48 <=? h) && (h <=? 57) then Some (h - 48)
  else if (97 <=? h) && (h <=? 102) then Some (h - 87)
  else if (65 <=? h) && (h <=? 70) then Some (h - 55)
  else None.

Definition hex4 (h1 h2 h3 h4 : N) : option N :=
  match hex_value h1, hex_value h2, hex_value h3, hex_value h4 with
  | Some a, Some b, Some c, Some d => Some (((a * 16 + b) * 16 + c) * 16 + d)
  | _, _, _, _ => None
  end.

Definition emit (t : option token) (rest : option (list token)) : option (list token) :=
  match t, rest with
  | Some t, Some ts => Some (t :: ts)
  | _, _ => None
  end.

Definition prepend (ts : list token) (r : option (list token)) : option (list token) :=
  match r with Some l => Some (ts ++ l) | None => None end.

(** The lexer.  A number ends at the first character that is not a
    digit; only white space and punctuation may follow it, and a
    fraction or an exponent is not read. *)
Fixpoint lex (m : lex_mode) (s : jstring) {struct s} : option (list token) :=
  match s with
  | [] =>
      match m with
      | LDefault => Some []
      | LString _ => None
      | LNumber neg acc => emit (number_token neg acc) (Some [])
      end
  | c :: r =>
      match m with
      | LDefault =>
          if is_json_ws c then lex LDefault r
          else match punct c with
          | Some t => emit (Some t) (lex LDefault r)
          | None =>
          if c =? 34 then lex (LString []) r
          else if c =? 45 then lex (LNumber true Decimal.Nil) r
          else match push_digit c Decimal.Nil with
          | Some acc => lex (LNumber false acc) r
          | None =>
          if c =? 116 then
            match r with
            | c1 :: c2 :: c3 :: r' =>
                if (c1 =? 114) && (c2 =? 117) && (c3 =? 101)
                then emit (Some TTrue) (lex LDefault r') else None
            | _ => None
            end
          else if c =? 102 then
            match r with
            | c1 :: c2 :: c3 :: c4 :: r' =>
                if (c1 =? 97) && (c2 =? 108) && (c3 =? 115) && (c4 =? 101)
                then emit (Some TFalse) (lex LDefault r') else None
            | _ => None
            end
          else if c =? 110 then
            match r with
            | c1 :: c2 :: c3 :: r' =>
                if (c1 =? 117) && (c2 =? 108) && (c3 =? 108)
                then emit (Some TNull) (lex LDefault r') else None
            | _ => None
            end
          else None
          end
          end
      | LString acc =>
          if c =? 34 then emit (Some (TStr (List.rev acc))) (lex LDefault r)
          else if c =? 92 then
            match r with
            | e :: r' =>
                match unescape e with
                | Some x => lex (LString (x :: acc)) r'
                | None =>
                    if e =? 117 then
                      match r' with
                      | h1 :: h2 :: h3 :: h4 :: r'' =>
                          match hex4 h1 h2 h3 h4 with
                          | Some x => lex (LString (x :: acc)) r''
                          | None => None
                          end
                      | _ => None
                      end
                    else None
                end
            | [] => None
            end
          else if c <? 32 then None
          else lex (LString (c :: acc)) r
      | LNumber neg acc =>
          match push_digit c acc with
          | Some acc' => lex (LNumber neg acc') r
          | None =>
              if is_json_ws c then emit (number_token neg acc) (lex LDefault r)
              else match punct c with
              | Some t => emit (number_token neg acc) (emit (Some t) (lex LDefault r))
              | None => None
              end
          end
      end
  end.

Definition primitive (t : token) : option value :=
  match t with
  | TStr s => Some (VString s)
  | TNum z => Some (VNumber z)
  | TTrue => Some (VBool true)
  | TFalse => Some (VBool false)
  | TNull => Some VNull
  | _ => None
  end.

(** The members of an object after its brace or after a comma, and the
    rest of the array after an object.  A repeated key overwrites the
    earlier value, as [CreateDataProperty] does. *)
Fixpoint members (done : list obj) (o : obj) (ts : list token) {struct ts}
  : option (list obj) :=
  match ts with
  | TStr k :: TColon :: t :: sep :: ts' =>
      match primitive t with
      | Some v =>
          match sep with
          | TComma => members done (set o k v) ts'
          | TRBrace => elements (done ++ [set o k v]) ts'
          | _ => None
          end
      | None => None
      end
  | _ => None
  end
with elements (done : list obj) (ts : list token) {struct ts}
  : option (list obj) :=
  match ts with
  | [TRBracket] => Some done
  | TComma :: TLBrace :: TRBrace :: ts' => elements (done ++ [[]]) ts'
  | TComma :: TLBrace :: ts' => members done [] ts'
  | _ => None
  end.

Definition parse_tokens (ts : list token) : option (list obj) :=
  match ts with
  | [TLBracket; TRBracket] => Some []
  | TLBracket :: TLBrace :: TRBrace :: ts' => elements [[]] ts'
  | TLBracket :: TLBrace :: ts' => members [] [] ts'
  | _ => None
  end.

(** [JSON.parse( s )] for the documents the element writes: an array of
    objects whose properties are strings, safe integers, booleans or
    [null].  [None] is a [SyntaxError], or a document outside that
    fragment. *)
Definition parse (s : jstring) : option (list obj) :=
  match lex LDefault s with
  | Some ts => parse_tokens ts
  | None => None
  end.

End Json.

(* ===================================================================== *)
(** ** The [<todo-storage>] element *)
(* ===================================================================== *)

Module TodoStorage.
Import Js.

Definition DEFAULT_NAME : jstring := js "todo-storage".

Inductive error : Type :=
| SyntaxError                (* thrown by [JSON.parse] *)
| Error (message : string).  (* [new Error( message )] *)

(** What evaluating a call ends in. *)
Inductive completion (A : Type) : Type :=
| Normal (a : A)
| Throw (e : error).
Arguments Normal {A} a.
Arguments Throw {A} e.

Inductive reason : Type :=
| RObject (o : obj)
| RError (e : error).

Inductive promise (A : Type) : Type :=
| Resolved (a : A)
| Rejected (r : reason)
| Pending.
Arguments Resolved {A} a.
Arguments Rejected {A} r.
Arguments Pending {A}.

(** The detail of a [count-updated] event. *)
Record counts : Type := { total : Z; completed : Z; active : Z }.

(** The custom events the element dispatches, with their detail. *)
Inductive event : Type :=
| StorageConnected (todos : list obj)
| TodoUpdated (item : obj)
| TodoAdded (item : obj)
| TodoRemoved (detail : obj)
| CountUpdated (detail : counts).

(** The element after [initialize]: the [name] and [liveTodos] of the
    closure, the browser's [localStorage], and the events dispatched so
    far, oldest first. *)
Record state : Type := {
  name : jstring;
  liveTodos : option (list obj);
  localStorage : gmap jstring jstring;
  dispatched : list event
}.

(** [a || b] on optional strings: [undefined], [null] and the empty
    string are falsy. *)
Definition or_else (a : option jstring) (b : option jstring) : option jstring :=
  match a with
  | Some (_ :: _) => a
  | _ => b
  end.

Definition initialize (name attribute : option jstring)
    (storage : gmap jstring jstring) : state :=
  {| name := default DEFAULT_NAME (or_else (or_else name attribute) (Some DEFAULT_NAME));
     liveTodos := None;
     localStorage := storage;
     dispatched := [] |}.

(** A stored text that [Json.parse] does not read is treated as
    unreadable: the call throws. *)
Definition getLocalStorage (st : state) : completion (list obj) :=
  match liveTodos st with
  | Some todos => Normal todos
  | None =>
      let text := default (js "[]")
                    (or_else (localStorage st !! name st) (Some (js "[]"))) in
      match Json.parse text with
      | Some todos => Normal todos
      | None => Throw SyntaxError
      end
  end.

Definition setLocalStorage (todos : list obj) (st : state) : state :=
  {| name := name st;
     liveTodos := Some todos;
     localStorage := <[name st := Json.stringify todos]> (localStorage st);
     dispatched := dispatched st |}.

(** Listeners run outside the element, the ones of [<todo-app>] only
    redraw the list, and an exception of theirs does not reach the
    dispatcher: a dispatch only extends the log. *)
Definition dispatch (e : event) (st : state) : state :=
  {| name := name st;
     liveTodos := liveTodos st;
     localStorage := localStorage st;
     dispatched := dispatched st ++ [e] |}.

(** The [for ( let k in query )] loop of [find]'s callback.  [k] is an
    own property of [query]; [todo[ k ]] is read through the prototype,
    and a member of [Object.prototype] is equal to no primitive value. *)
Fixpoint query_matches (ks : list jstring) (query todo : obj) : bool :=
  match ks with
  | [] => true
  | k :: ks' =>
      if negb (match read todo k with
               | Some v => strict_eq (get query k) v
               | None => false
               end)
      then false
      else query_matches ks' query todo
  end.

Definition find (query : option obj) (st : state)
  : completion (promise (list obj)) :=
  match getLocalStorage st with
  | Throw e => Throw e
  | Normal todos =>
      let query := default [] query in
      Normal (Resolved
        (List.filter (fun todo => query_matches (keys query) query todo) todos))
  end.

(** The counting loop of [count]. *)
Fixpoint count_loop (todos : list obj) (completed : Z) : Z :=
  match todos with
  | [] => completed
  | todo :: rest =>
      count_loop rest
        (if truthy (get todo (js "completed")) then completed + 1 else completed)%Z
  end.

(** [count] takes the collection when it is called and scans it in a
    callback that runs once the calling operation has returned; the scan
    is modelled at the call, which is what the callback sees as long as no
    record is changed in between.  A throw inside the promise executor
    rejects the promise. *)
Definition count (st : state) : promise counts :=
  match find None st with
  | Throw e => Rejected (RError e)
  | Normal (Resolved todos) =>
      let completed := count_loop todos 0%Z in
      let total := Z.of_nat (List.length todos) in
      Resolved {| total := total; completed := completed;
                  active := (total - completed)%Z |}
  | Normal (Rejected _) | Normal Pending => Pending
  end.

Definition dispatchCountUpdated (st : state) : state :=
  match count st with
  | Resolved detail => dispatch (CountUpdated detail) st
  | _ => st
  end.

Definition connectedCallback (st : state) : completion unit * state :=
  match find None st with
  | Throw e => (Throw e, st)
  | Normal p =>
      let st := match p with
                | Resolved todos => dispatch (StorageConnected todos) st
                | _ => st
                end in
      (Normal tt, dispatchCountUpdated st)
  end.

(** The scan of [updateTodo]: the first item whose id is [id] gets the
    properties of [update], and the loop stops there. *)
Fixpoint update_loop (id : value) (update : obj) (todos : list obj)
  : option obj * list obj :=
  match todos with
  | [] => (None, [])
  | todo :: rest =>
      if strict_eq (get todo (js "id")) id then
        let item := assign todo update in (Some item, item :: rest)
      else
        let '(item, rest') := update_loop id update rest in (item, todo :: rest')
  end.

Definition updateTodo (update : obj) (st : state)
  : completion (promise obj) * state :=
  let id := get update (js "id") in
  match getLocalStorage st with
  | Throw e => (Throw e, st)
  | Normal todos =>
      match update_loop id update todos with
      | (Some item, todos) =>
          let st := setLocalStorage todos st in
          let st := dispatch (TodoUpdated item) st in
          let st := dispatchCountUpdated st in
          (Normal (Resolved item), st)
      | (None, _) => (Normal (Rejected (RObject update)), st)
      end
  end.

(** [typeof title !== 'string' || title.trim().length === 0] *)
Definition empty_title (title : value) : bool :=
  match title with
  | VString s => Nat.eqb (List.length (trim s)) 0
  | _ => true
  end.

(** [now] is the value [Date.now()] returns to this call. *)
Definition addTodo (title : value) (now : Z) (st : state)
  : completion (promise obj) * state :=
  let item := [(js "title", title); (js "id", VNumber now);
               (js "completed", VBool false)] in
  match getLocalStorage st with
  | Throw e => (Throw e, st)
  | Normal todos =>
      if empty_title title then
        (Throw (Error "Cannot create a todo item with an empty title."), st)
      else
        let todos := todos ++ [item] in
        let st := setLocalStorage todos st in
        let st := dispatch (TodoAdded item) st in
        let st := dispatchCountUpdated st in
        (Normal (Resolved item), st)
  end.

Definition removeTodo (id : value) (st : state)
  : completion (promise (list obj)) * state :=
  match getLocalStorage st with
  | Throw e => (Throw e, st)
  | Normal todos =>
      let todos :=
        List.filter (fun todo => negb (strict_eq (get todo (js "id")) id)) todos in
      let st := setLocalStorage todos st in
      let st := dispatch (TodoRemoved [(js "id", id)]) st in
      let st := dispatchCountUpdated st in
      (Normal (Resolved todos), st)
  end.

End TodoStorage.

(* ===================================================================== *)
(** ** Vocabulary of the statements *)
(* ===================================================================== *)

Module Spec.
Import Js TodoStorage.

(** The three steps every successful mutation ends with. *)
Definition committed (todos : list obj) (e : event) (st : state) : state :=
  dispatchCountUpdated (dispatch e (setLocalStorage todos st)).

(** The collection a state holds: what [getLocalStorage] returns. *)
Definition holds (st : state) (todos : list obj) : Prop :=
  getLocalStorage st = Normal todos.

(** The ids of a collection, in order. *)
Definition ids (todos : list obj) : list value :=
  List.map (fun todo => get todo (js "id")) todos.

(** The item [addTodo] builds. *)
Definition new_item (title : jstring) (now : Z) : obj :=
  [(js "title", VString title); (js "id", VNumber now);
   (js "completed", VBool false)].

(** The title of a record is a string with something left after [trim]. *)
Definition titled (todo : obj) : Prop :=
  exists s, get todo (js "title") = VString s /\ trim s <> [].

(** A record agrees with the criteria on every field the criteria name:
    what [todo[ k ]] reads is the value of the criteria. *)
Definition matches (query todo : obj) : Prop :=
  Forall (fun k => read todo k = Some (get query k)) (keys query).

#[global] Instance matches_dec query todo : Decision (matches query todo).
Proof. unfold matches. apply _. Defined.

(** The [completed] field holds a boolean, as the data model has it. *)
Definition flagged (todo : obj) : Prop :=
  exists b, get todo (js "completed") = VBool b.

(** The stores of the examples: the empty one, and the one after
    [addTodo( 'A' )] at instant 5. *)
Definition empty_store : state := initialize None None ∅.

Definition store_A : state := snd (addTodo (VString (js "A")) 5 empty_store).

(** The store after [addTodo( 'A' )] at 5, [addTodo( 'B' )] at 7 and
    [updateTodo( {id: 7, completed: true} )]. *)
Definition store_AB : state :=
  snd (updateTodo [(js "id", VNumber 7); (js "completed", VBool true)]
         (snd (addTodo (VString (js "B")) 7 store_A))).

(** The tokens of the text [JSON.stringify] writes for a value, a
    property, an object and a collection; a property whose value is
    [undefined] is not written. *)
Definition value_token (v : value) : option Json.token :=
  match v with
  | VUndefined => None
  | VNull => Some Json.TNull
  | VBool true => Some Json.TTrue
  | VBool false => Some Json.TFalse
  | VNumber z => Some (Json.TNum z)
  | VString s => Some (Json.TStr s)
  end.

Definition member_tokens (kv : jstring * value) : option (list Json.token) :=
  match value_token (snd kv) with
  | Some t => Some [Json.TStr (fst kv); Json.TColon; t]
  | None => None
  end.

Definition object_tokens (o : obj) : list Json.token :=
  [Json.TLBrace] ++ Json.join [Json.TComma] (omap member_tokens o) ++ [Json.TRBrace].

Definition tokens (todos : list obj) : list Json.token :=
  [Json.TLBracket] ++ Json.join [Json.TComma] (List.map object_tokens todos)
  ++ [Json.TRBracket].

(** A value that is written and read back as it is. *)
Definition storable (v : value) : Prop :=
  match v with
  | VUndefined => False
  | VNumber z => Json.safe_integer z = true
  | _ => True
  end.

(** A record that [JSON.stringify] writes in full: no two properties of
    one name, every value a string, a boolean, [null] or a safe integer. *)
Definition record (o : obj) : Prop :=
  NoDup (keys o) /\ Forall (fun kv => storable (snd kv)) o.

(** A task record of the data model: the properties [id], [title] and
    [completed], in any order, holding a safe integer, a string and a
    boolean. *)
Definition task_record (o : obj) : Prop :=
  NoDup (keys o) /\
  (forall k, k ∈ keys o -> k = js "id" \/ k = js "title" \/ k = js "completed") /\
  (exists z, get o (js "id") = VNumber z /\ Json.safe_integer z = true) /\
  (exists s, get o (js "title") = VString s) /\
  (exists b, get o (js "completed") = VBool b).

End Spec.

(* ===================================================================== *)
(** ** Vocabulary of the further properties *)
(* ===================================================================== *)

Module Laws.
Import Js TodoStorage Spec.

(** The counts [count] computes for a collection. *)
Definition counts_of (todos : list obj) : counts :=
  {| total := Z.of_nat (List.length todos);
     completed := count_loop todos 0;
     active := Z.of_nat (List.length todos) - count_loop todos 0 |}.

(** Write-through: the text stored under the element's name is the
    serialization of the collection the element keeps. *)
Definition synced (st : state) : Prop :=
  forall todos, liveTodos st = Some todos ->
    localStorage st !! name st = Some (Json.stringify todos).

(** The element a later page load creates, under the same name, over the
    [localStorage] this one leaves. *)
Definition reload (st : state) : state :=
  initialize (Some (name st)) None (localStorage st).

(** The properties of an object that [JSON.stringify] writes. *)
Definition defined (o : obj) : obj :=
  List.filter (fun kv => negb (strict_eq (snd kv) VUndefined)) o.

(** The result of an operation is the state it was given, that state with
    more events, or a committed state. *)
Inductive outcome_of (st : state) : state -> Prop :=
| outcome_same : outcome_of st st
| outcome_events e : outcome_of st (dispatch e st)
| outcome_events2 e e' : outcome_of st (dispatch e' (dispatch e st))
| outcome_committed todos e : outcome_of st (committed todos e st).

(** A property [JSON.stringify] writes and [JSON.parse] reads back, or one
    it leaves out. *)
Definition writable (kv : jstring * value) : Prop :=
  snd kv = VUndefined \/ storable (snd kv).

(** A store whose text is cut off after the first brace. *)
Definition unreadable_store : state :=
  initialize None None {[ DEFAULT_NAME := js "{" ]}.

(** A name for which [item[ k ] = v] overwrites the own property [k] where
    it is, or adds it as the last one: not [__proto__], whose assignment
    goes to the setter of [Object.prototype] and makes no property, and
    not a name in digits, which an object lists before the others. *)
Definition assignable (k : jstring) : Prop :=
  k <> js "__proto__" /\ index_like k = false.

End Laws.

(* ===================================================================== *)
(** ** The [<todo-app>] element *)
(* ===================================================================== *)

Module TodoApp.
Import Js TodoStorage.

(** *** Calls of the store inside a loop

    [updateTodo] and [removeTodo] return before their [count-updated]
    event is dispatched: the scan of [count] and the dispatch of the event
    are promise callbacks, and a promise callback runs when the code that
    is running has ended.  Inside the loops of [toggleAll] and
    [clearCompleted], which are promise callbacks themselves, the calls go
    as far as the two functions below, and the scans and the
    [count-updated] events follow the loop, in the order of the calls. *)

Definition updateTodo_call (update : obj) (st : state)
  : completion (promise obj) * state :=
  let id := get update (js "id") in
  match getLocalStorage st with
  | Throw e => (Throw e, st)
  | Normal todos =>
      match update_loop id update todos with
      | (Some item, todos) =>
          let st := setLocalStorage todos st in
          let st := dispatch (TodoUpdated item) st in
          (Normal (Resolved item), st)
      | (None, _) => (Normal (Rejected (RObject update)), st)
      end
  end.

Definition removeTodo_call (id : value) (st : state)
  : completion (promise (list obj)) * state :=
  match getLocalStorage st with
  | Throw e => (Throw e, st)
  | Normal todos =>
      let todos :=
        List.filter (fun todo => negb (strict_eq (get todo (js "id")) id)) todos in
      let st := setLocalStorage todos st in
      let st := dispatch (TodoRemoved [(js "id", id)]) st in
      (Normal (Resolved todos), st)
  end.

(** The array the element keeps, with objects of it changed where they
    are by code outside the element: nothing is written to
    [localStorage]. *)
Definition with_live (todos : list obj) (st : state) : state :=
  {| name := name st;
     liveTodos := Some todos;
     localStorage := localStorage st;
     dispatched := dispatched st |}.

(** The places of the records [Array.prototype.filter] keeps. *)
Fixpoint positions (keep : obj -> bool) (todos : list obj) (from : nat) : list nat :=
  match todos with
  | [] => []
  | todo :: rest =>
      if keep todo then from :: positions keep rest (S from)
      else positions keep rest (S from)
  end.

(** *** [toggleAll]

    [find] resolves with a new array of the very objects of the array it
    read.  When the element keeps its array ([liveTodos] is set), the
    [items] of the loop are objects of that array, given here by their
    places in it: [item.completed = completed] changes the record in the
    element, and [updateTodo( item )] is called with that record.  The
    array is not resized in the loop, so a place always holds an object.
    [n] counts the calls whose scan and [count-updated] are to come. *)
Fixpoint toggle_live (completed : value) (places : list nat) (st : state) (n : nat)
  : state * nat :=
  match places with
  | [] => (st, n)
  | i :: rest =>
      match liveTodos st with
      | Some todos =>
          match todos !! i with
          | Some item =>
              let item := set item (js "completed") completed in
              let st := with_live (<[i := item]> todos) st in
              match updateTodo_call item st with
              | (Throw _, st) => (st, n)
              | (Normal (Resolved _), st) => toggle_live completed rest st (S n)
              | (Normal _, st) => toggle_live completed rest st n
              end
          | None => toggle_live completed rest st n
          end
      | None => toggle_live completed rest st n
      end
  end.

(** When the element keeps no array yet, [find] read the stored text and
    the [items] are objects of that reading, which nothing else refers
    to: [item.completed = completed] changes the copy only. *)
Fixpoint toggle_copies (completed : value) (items : list obj) (st : state) (n : nat)
  : state * nat :=
  match items with
  | [] => (st, n)
  | item :: rest =>
      let item := set item (js "completed") completed in
      match updateTodo_call item st with
      | (Throw _, st) => (st, n)
      | (Normal (Resolved _), st) => toggle_copies completed rest st (S n)
      | (Normal _, st) => toggle_copies completed rest st n
      end
  end.

(** The state is the one the callbacks leave.  The scans that follow the
    loop go over the records of the element as the loop left them: every
    scanned array holds the objects the element keeps, and the loop
    neither adds nor removes one. *)
Definition toggleAll (detail : obj) (st : state) : completion unit * state :=
  let completed := get detail (js "completed") in
  let query := [(js "completed", VBool (negb (truthy completed)))] in
  match find (Some query) st with
  | Throw e => (Throw e, st)
  | Normal (Resolved items) =>
      let '(st, n) :=
        match liveTodos st with
        | Some todos =>
            toggle_live completed
              (positions (query_matches (keys query) query) todos 0) st 0
        | None => toggle_copies completed items st 0
        end in
      (Normal tt, Nat.iter n dispatchCountUpdated st)
  | Normal _ => (Normal tt, st)
  end.

(** *** [clearCompleted]

    [removeTodo] changes no record, so the scan of a call, which runs
    after the loop over the array [find] made at the call, counts the
    collection as the call left it. *)
Fixpoint clear_loop (items : list obj) (st : state) (scans : list (promise counts))
  : state * list (promise counts) :=
  match items with
  | [] => (st, scans)
  | item :: rest =>
      match removeTodo_call (get item (js "id")) st with
      | (Throw _, st) => (st, scans)
      | (Normal _, st) => clear_loop rest st (scans ++ [count st])
      end
  end.

Definition deliver (scans : list (promise counts)) (st : state) : state :=
  fold_left
    (fun st scan =>
       match scan with
       | Resolved detail => dispatch (CountUpdated detail) st
       | _ => st
       end)
    scans st.

Definition clearCompleted (st : state) : completion unit * state :=
  match find (Some [(js "completed", VBool true)]) st with
  | Throw e => (Throw e, st)
  | Normal (Resolved items) =>
      let '(st, scans) := clear_loop items st [] in
      (Normal tt, deliver scans st)
  | Normal _ => (Normal tt, st)
  end.

(** *** The listeners of [initialize]

    The intents the views dispatch, with the [detail] of the event; an
    [add-todo] comes with the instant [Date.now()] gives [addTodo].  An
    exception in a listener does not reach the code that dispatched the
    event: what is left of a listener is the state of the store. *)
Inductive intent : Type :=
| AddTodo (detail : obj) (now : Z)
| RemoveTodo (detail : obj)
| UpdateTodo (detail : obj)
| ToggleAll (detail : obj)
| ClearCompleted.

Definition listen (i : intent) (st : state) : state :=
  match i with
  | AddTodo item now => snd (addTodo (get item (js "title")) now st)
  | RemoveTodo it => snd (removeTodo (get it (js "id")) st)
  | UpdateTodo item => snd (updateTodo item st)
  | ToggleAll detail => snd (toggleAll detail st)
  | ClearCompleted => snd (clearCompleted st)
  end.

Definition run (intents : list intent) (st : state) : state :=
  fold_left (fun st i => listen i st) intents st.

End TodoApp.

(* ===================================================================== *)
(** ** The platform under the views *)
(* ===================================================================== *)

Module Dom.
Import Js Json TodoStorage.

(** [ToString] of a primitive: what a template literal, the [+] of a
    string and [setAttribute] make of a value.  A number is an integer
    written in decimal digits, as the safe integers are. *)
Definition to_string (v : value) : jstring :=
  match v with
  | VUndefined => js "undefined"
  | VNull => js "null"
  | VBool true => js "true"
  | VBool false => js "false"
  | VNumber z => number_to_string z
  | VString s => s
  end.

Definition is_digit (c : N) : bool := (48 <=? c) && (c <=? 57).

(** [/^\d+$/.test( s )] *)
Definition all_digits (s : jstring) : bool :=
  match s with
  | [] => false
  | _ :: _ => forallb is_digit s
  end.

(** [parseInt( s, 10 )] on a string of decimal digits: the number they
    denote, which a number holds exactly up to [MAX_SAFE_INTEGER]. *)
Definition parseInt (s : jstring) : Z :=
  fold_left (fun n c => (10 * n + (Z.of_N c - 48))%Z) s 0%Z.

(** The attributes of an element that the classes read and write.  The
    [class] attribute, which [attributeChangedCallback] toggles for the
    style sheet, and [is] are not among them. *)
Abbreviation attributes := (gmap jstring jstring) (only parsing).

(** [el.getAttribute( name )]: the value, or [null]. *)
Definition getAttribute (name : jstring) (el : attributes) : value :=
  match el !! name with
  | Some s => VString s
  | None => VNull
  end.

Definition hasAttribute (name : jstring) (el : attributes) : bool :=
  bool_decide (is_Some (el !! name)).

(** [el.setAttribute( name, v )] stores the string of [v]. *)
Definition setAttribute (name : jstring) (v : value) (el : attributes) : attributes :=
  <[name := to_string v]> el.

Definition removeAttribute (name : jstring) (el : attributes) : attributes :=
  delete name el.

(** What a call on a view throws: an error of the code, or the
    [TypeError] of a property access on [null]. *)
Inductive thrown : Type :=
| Thrown (e : error)
| TypeError.

(** What a call on a view ends in.  [Unread] stands for a call whose
    selector is not read by [css_id] below: what the browser selects for
    it is not modelled. *)
Inductive result (A : Type) : Type :=
| Returns (a : A)
| Throws (t : thrown)
| Unread.
Arguments Returns {A} a.
Arguments Throws {A} t.
Arguments Unread {A}.

(** *** ID selectors

    The selectors read are the ID selectors [#name] whose name is written
    with the ASCII name characters and hexadecimal escapes: a backslash,
    one to six hexadecimal digits and, optionally, one white-space
    character that ends the escape (CSS Syntax, "consume a name" and
    "consume an escaped code point").  An escape has to denote a code unit
    that is not zero and not a surrogate. *)

Definition is_letter (c : N) : bool :=
  ((65 <=? c) && (c <=? 90)) || ((97 <=? c) && (c <=? 122)).

Definition is_name_start (c : N) : bool := is_letter c || (c =? 95).

Definition is_name (c : N) : bool := is_name_start c || is_digit c || (c =? 45).

Definition is_hex (c : N) : bool :=
  is_digit c || ((65 <=? c) && (c <=? 70)) || ((97 <=? c) && (c <=? 102)).

Definition hex_value (c : N) : N :=
  if is_digit c then c - 48 else if c <=? 70 then c - 55 else c - 87.

Definition is_css_space (c : N) : bool := (c =? 32) || (c =? 9) || (c =? 10).

Definition escapable (c : N) : bool :=
  (0 <? c) && (c <? 0x10000) && negb ((0xD800 <=? c) && (c <=? 0xDFFF)).

Inductive css_mode : Type :=
| CName                       (* between the characters of the name *)
| CEscape                     (* after a backslash *)
| CHex (read : nat) (acc : N). (* after [read] hexadecimal digits *)

(** The name a text denotes when it is a name up to its end; [out] holds
    the code units read, last first. *)
Fixpoint css_name (mode : css_mode) (text : jstring) (out : jstring) : option jstring :=
  match text with
  | [] =>
      match mode with
      | CName => Some (rev out)
      | CEscape => None
      | CHex _ acc => if escapable acc then Some (rev (acc :: out)) else None
      end
  | c :: rest =>
      match mode with
      | CName =>
          if c =? 92 then css_name CEscape rest out
          else if is_name c then css_name CName rest (c :: out)
          else None
      | CEscape =>
          if is_hex c then css_name (CHex 1 (hex_value c)) rest out else None
      | CHex read acc =>
          if is_hex c && (read <? 6)%nat
          then css_name (CHex (S read) (16 * acc + hex_value c)) rest out
          else if negb (escapable acc) then None
          else if is_css_space c then css_name CName rest (acc :: out)
          else if c =? 92 then css_name CEscape rest (acc :: out)
          else if is_name c then css_name CName rest (c :: acc :: out)
          else None
      end
  end.

(** The name of an ID selector: [#] and a name that starts as an
    identifier does, with a letter, an underscore or an escape. *)
Definition css_id (selector : jstring) : option jstring :=
  match selector with
  | 35 :: c :: rest =>
      if is_name_start c || (c =? 92) then css_name CName (c :: rest) [] else None
  | _ => None
  end.

(** [list.querySelector( selector )] over the rows of the list: the place
    of the first row whose [id] is the name, [null] when there is none.
    The rows are the only descendants of the list that carry an [id], and
    ids are compared code unit by code unit. *)
Definition querySelector (selector : jstring) (rows : list attributes)
  : option (option nat) :=
  match css_id selector with
  | Some name =>
      Some (fst <$> list_find (fun el => el !! js "id" = Some name) rows)
  | None => None
  end.

End Dom.

(* ===================================================================== *)
(** ** [custom-element.js] *)
(* ===================================================================== *)

Module CustomElement.
Import Js Dom.

(** [( '#' + id ).replace( /^#(\d)/, ... )]: a first digit [d] is
    written as the escape [\3d] and a space. *)
Definition selector (id : value) : jstring :=
  match to_string id with
  | d :: rest =>
      if is_digit d then js "#\3" ++ [d] ++ js " " ++ rest
      else [35] ++ d :: rest
  | [] => [35]
  end.

Definition byId (id : value) (rows : list attributes) : option (option nat) :=
  querySelector (selector id) rows.

End CustomElement.

(* ===================================================================== *)
(** ** [todo-item.js] *)
(* ===================================================================== *)

Module TodoItem.
Import Js Dom TodoStorage.

Definition get_completed (el : attributes) : bool := hasAttribute (js "completed") el.

Definition set_completed (v : value) (el : attributes) : attributes :=
  if truthy v then setAttribute (js "completed") (VString []) el
  else removeAttribute (js "completed") el.

Definition get_title (el : attributes) : value := getAttribute (js "title") el.

(** [this.setAttribute( 'title', value || '' )] *)
Definition set_title (v : value) (el : attributes) : attributes :=
  setAttribute (js "title") (if truthy v then v else VString []) el.

Definition get_id (el : attributes) : value :=
  let id := getAttribute (js "id") el in
  if all_digits (to_string id) then VNumber (parseInt (to_string id)) else VNull.

Definition set_id (id : value) (el : attributes) : completion attributes :=
  if negb (all_digits (to_string id))
  then Throw (Error "Only integers are allowed as the id of items.")
  else Normal (setAttribute (js "id") id el).

End TodoItem.

(* ===================================================================== *)
(** ** [todo-list.js] *)
(* ===================================================================== *)

Module TodoList.
Import Js Dom CustomElement TodoStorage.

(** The list is the children of its [<ul>], first to last, each an item
    given by its attributes; [new TodoItem()] has none of them. *)
Definition addTodo (item : obj) (rows : list attributes) : result (list attributes) :=
  match TodoItem.set_id (get item (js "id")) ∅ with
  | Throw e => Throws (Thrown e)
  | Normal el =>
      let el := TodoItem.set_title (get item (js "title")) el in
      let el := TodoItem.set_completed (get item (js "completed")) el in
      Returns (rows ++ [el])
  end.

Definition removeTodo (id : value) (rows : list attributes) : result (list attributes) :=
  match byId id rows with
  | None => Unread
  | Some None => Throws TypeError
  | Some (Some i) => Returns (delete i rows)
  end.

Definition updateTodo (update : obj) (rows : list attributes)
  : result (list attributes) :=
  let id := get update (js "id") in
  match byId id rows with
  | None => Unread
  | Some None => Throws TypeError
  | Some (Some i) =>
      Returns
        (alter (fun el =>
                  let el := TodoItem.set_title (get update (js "title")) el in
                  TodoItem.set_completed (get update (js "completed")) el)
               i rows)
  end.

(** The loop of [render]: an exception of [addTodo] ends it, with the
    rows added so far in place. *)
Fixpoint render_loop (todos : list obj) (rows : list attributes)
  : list attributes * option thrown :=
  match todos with
  | [] => (rows, None)
  | item :: rest =>
      match addTodo item rows with
      | Returns rows => render_loop rest rows
      | Throws t => (rows, Some t)
      | Unread => (rows, None)
      end
  end.

(** [textContent = ''] removes the rows there are. *)
Definition render (todos : list obj) (rows : list attributes)
  : list attributes * option thrown :=
  render_loop todos [].

End TodoList.

(* ===================================================================== *)
(** ** [todo-footer.js] *)
(* ===================================================================== *)

Module TodoFooter.
Import Js Json Dom TodoStorage.

Definition quoted (s : string) : string :=
  String (ascii_of_nat 34) (s ++ String (ascii_of_nat 34) EmptyString).

Definition get_active (el : attributes) : Z :=
  let count := getAttribute (js "active") el in
  if all_digits (to_string count) then parseInt (to_string count) else 0%Z.

Definition set_active (count : value) (el : attributes) : completion attributes :=
  if negb (all_digits (to_string count))
  then Throw (Error ("Only integers are allowed as the number of "
                       ++ quoted "active" ++ " items."))
  else Normal (setAttribute (js "active") count el).

Definition get_completed (el : attributes) : Z :=
  let count := getAttribute (js "completed") el in
  if all_digits (to_string count) then parseInt (to_string count) else 0%Z.

Definition set_completed (count : value) (el : attributes) : completion attributes :=
  if negb (all_digits (to_string count))
  then Throw (Error ("Only integers are allowed as the number of "
                       ++ quoted "completed" ++ " items."))
  else Normal (setAttribute (js "completed") count el).

Definition itemsLeft (el : attributes) : jstring :=
  let active := get_active el in
  let items := if (active =? 1)%Z then js "item" else js "items" in
  number_to_string active ++ js " " ++ items ++ js " left".

End TodoFooter.

(* ===================================================================== *)
(** ** The listeners of [<todo-app>] for the events of the store *)
(* ===================================================================== *)

Module TodoAppView.
Import Js Dom TodoStorage.

(** What the listeners of [initialize] act on: the rows of the list, and
    whether the listener for [storage-connected], which is set with
    [once], is still there. *)
Record view : Type := { rows : list attributes; awaiting : bool }.

(** A listener that throws leaves the rows as the call left them: the
    three calls below throw before they change one. *)
Definition after (r : result (list attributes)) (v : view) : option view :=
  match r with
  | Returns rows' => Some {| rows := rows'; awaiting := awaiting v |}
  | Throws _ => Some v
  | Unread => None
  end.

(** [_render] *)
Definition _render (todos : list obj) (v : view) : view :=
  {| rows := fst (TodoList.render todos (rows v)); awaiting := false |}.

(** The listeners for [todo-added], [todo-removed], [todo-updated] and
    [storage-connected]; nothing listens for [count-updated] here. *)
Definition show (e : event) (v : view) : option view :=
  match e with
  | TodoAdded item => after (TodoList.addTodo item (rows v)) v
  | TodoRemoved it => after (TodoList.removeTodo (get it (js "id")) (rows v)) v
  | TodoUpdated item => after (TodoList.updateTodo item (rows v)) v
  | StorageConnected todos => Some (if awaiting v then _render todos v else v)
  | CountUpdated _ => Some v
  end.

(** The events of the store, in the order of their dispatch. *)
Fixpoint screen (events : list event) (v : view) : option view :=
  match events with
  | [] => Some v
  | e :: rest =>
      match show e v with
      | Some v' => screen rest v'
      | None => None
      end
  end.

End TodoAppView.

(* ===================================================================== *)
(** ** Vocabulary of the properties of [<todo-app>] *)
(* ===================================================================== *)

Module AppLaws.
Import Js TodoStorage Spec TodoApp.

(** The record [toggleAll( {completed} )] leaves for a record: changed
    when its [completed] was the opposite boolean. *)
Definition toggled (completed : value) (todo : obj) : obj :=
  if strict_eq (VBool (negb (truthy completed))) (get todo (js "completed"))
  then set todo (js "completed") completed
  else todo.

(** The instants of the additions grow, from [clock] on. *)
Fixpoint ticking (clock : Z) (intents : list intent) : Prop :=
  match intents with
  | [] => True
  | AddTodo _ now :: rest => (clock < now)%Z /\ ticking now rest
  | _ :: rest => ticking clock rest
  end.

(** Every id is a timestamp not after [clock]. *)
Definition stamped (clock : Z) (todos : list obj) : Prop :=
  Forall (fun i => exists z, i = VNumber z /\ (z <= clock)%Z) (ids todos).

(** The last instant an addition read, [clock] if there was none. *)
Fixpoint last_tick (clock : Z) (intents : list intent) : Z :=
  match intents with
  | [] => clock
  | AddTodo _ now :: rest => last_tick now rest
  | _ :: rest => last_tick clock rest
  end.

(** The [update-todo] intents that carry no title, or one with something
    left after [trim]. *)
Definition keeps_title (i : intent) : Prop :=
  match i with
  | UpdateTodo item => js "title" ∉ keys item \/ titled item
  | _ => True
  end.

End AppLaws.

(* ===================================================================== *)
(** ** Vocabulary of the properties of the views *)
(* ===================================================================== *)

Module ViewLaws.
Import Js TodoStorage Spec TodoApp Dom TodoAppView.

(** The row [addTodo( todo )] of the list makes for a record. *)
Definition row_of (todo : obj) : attributes :=
  TodoItem.set_completed (get todo (js "completed"))
    (TodoItem.set_title (get todo (js "title"))
       (setAttribute (js "id") (get todo (js "id")) ∅)).

(** The list after the listeners, with one row for each record. *)
Definition mirror (todos : list obj) : view :=
  {| rows := List.map row_of todos; awaiting := false |}.

(** What a row tells of a record through the accessors of the item: its
    id, its title as the attribute holds it (the empty string for a title
    that is not truthy), and whether it is completed. *)
Definition shows (el : attributes) (todo : obj) : Prop :=
  TodoItem.get_id el = get todo (js "id") /\
  TodoItem.get_title el
  = VString (to_string (if truthy (get todo (js "title"))
                        then get todo (js "title") else VString [])) /\
  TodoItem.get_completed el = truthy (get todo (js "completed")).

(** A timestamp as an id: a non-negative integer that a number holds
    exactly, which [ToString] writes in decimal digits. *)
Definition timestamp (id : value) : Prop :=
  exists z, id = VNumber z /\ (0 <= z <= Json.MAX_SAFE_INTEGER)%Z.

(** An id as the accessor of the item returns it. *)
Definition item_id (id : value) : Prop := id = VNull \/ timestamp id.

(** The ids are timestamps. *)
Definition numbered (todos : list obj) : Prop := Forall timestamp (ids todos).

(** The [remove-todo] intents carry an id as an item reports it. *)
Definition from_item (i : intent) : Prop :=
  match i with
  | RemoveTodo it => item_id (get it (js "id"))
  | _ => True
  end.

(** A string of decimal digits. *)
Definition digits (id : value) : Prop :=
  exists s, id = VString s /\ all_digits s = true.

(** The events so far have left the list with the rows of [todos]. *)
Definition shown (v : view) (st : state) (todos : list obj) : Prop :=
  screen (dispatched st) v = Some (mirror todos).

(** The characters of a name of a selector. *)
Definition plain_name (s : jstring) : Prop :=
  match s with
  | [] => False
  | c :: rest =>
      (is_name_start c || is_digit c = true) /\ forallb is_name rest = true
  end.

End ViewLaws.

(** Case analysis on the comparisons of code units in the goal. *)
Ltac cases_on_tests :=
  repeat match goal with
    | |- context [?a =? ?b] => destruct (N.eqb_spec a b)
    | |- context [?a <? ?b] => destruct (N.ltb_spec a b)
    | |- context [?a <=? ?b] => destruct (N.leb_spec a b)
    end; cbn [andb orb negb].

(* ===================================================================== *)
(** ** Facts about values, strings and objects *)
(* ===================================================================== *)

Section JsFacts.
Import Js.

Lemma jstring_eqb_eq (a b : jstring) : jstring_eqb a b = true <-> a = b.
Proof.
  revert b. induction a as [|x a IH]; intros [|y b]; simpl; split;
    try congruence; try discriminate.
  - intros [Hx Hab]%andb_prop. apply N.eqb_eq in Hx. apply IH in Hab. congruence.
  - intros [= -> ->]. rewrite N.eqb_refl. simpl. now apply IH.
Qed.

Lemma jstring_eqb_refl (a : jstring) : jstring_eqb a a = true.
Proof. now apply jstring_eqb_eq. Qed.

Lemma jstring_eqb_neq (a b : jstring) : a <> b -> jstring_eqb a b = false.
Proof.
  intros H. destruct (jstring_eqb a b) eqn:E; [|reflexivity].
  now apply jstring_eqb_eq in E.
Qed.

Lemma strict_eq_eq (a b : value) : strict_eq a b = true <-> a = b.
Proof.
  destruct a, b; simpl; split; try congruence; try discriminate.
  - intros H. apply Bool.eqb_prop in H. congruence.
  - intros [= ->]. apply Bool.eqb_reflx.
  - intros H. apply Z.eqb_eq in H. congruence.
  - intros [= ->]. apply Z.eqb_refl.
  - intros H. apply jstring_eqb_eq in H. congruence.
  - intros [= ->]. apply jstring_eqb_refl.
Qed.

Lemma strict_eq_refl (a : value) : strict_eq a a = true.
Proof. now apply strict_eq_eq. Qed.

Lemma strict_eq_neq (a b : value) : a <> b -> strict_eq a b = false.
Proof.
  intros H. destruct (strict_eq a b) eqn:E; [|reflexivity].
  now apply strict_eq_eq in E.
Qed.

Lemma strict_eq_false (a b : value) : strict_eq a b = false -> a <> b.
Proof. intros E ->. now rewrite strict_eq_refl in E. Qed.

(** Reading back what was written, and the frame of a write. *)

Lemma get_set_same (o : obj) k v : get (set o k v) k = v.
Proof.
  induction o as [|[k' v'] o IH]; simpl.
  - now rewrite jstring_eqb_refl.
  - destruct (jstring_eqb k' k) eqn:E; simpl; now rewrite E.
Qed.

Lemma get_set_other (o : obj) k v k' : k <> k' -> get (set o k v) k' = get o k'.
Proof.
  intros Hne. induction o as [|[k0 v0] o IH]; simpl.
  - now rewrite jstring_eqb_neq.
  - destruct (jstring_eqb k0 k) eqn:E; simpl.
    + apply jstring_eqb_eq in E. subst k0. now rewrite jstring_eqb_neq.
    + now rewrite IH.
Qed.

(** [trim] leaves nothing exactly when every code unit is white space. *)

Lemma trimStart_nil (s : jstring) :
  trimStart s = [] <-> forallb is_white_space s = true.
Proof.
  induction s as [|c s IH]; simpl; [tauto|].
  destruct (is_white_space c); simpl; [exact IH | split; discriminate].
Qed.

Lemma trim_nil (s : jstring) : trim s = [] <-> forallb is_white_space s = true.
Proof.
  unfold trim, trimEnd. split.
  - intros H. destruct (trimStart s) as [|c r] eqn:E; [now apply trimStart_nil|].
    exfalso.
    assert (Hc : is_white_space c = false).
    { clear H. induction s as [|x s IH]; simpl in E; [discriminate|].
      destruct (is_white_space x) eqn:Ex; [auto | congruence]. }
    apply (f_equal (@List.rev N)) in H. rewrite List.rev_involutive in H.
    apply trimStart_nil in H. rewrite forallb_forall in H.
    specialize (H c). rewrite Hc in H. discriminate H.
    apply in_rev. rewrite List.rev_involutive. now left.
  - intros H. apply trimStart_nil in H. now rewrite H.
Qed.

Lemma empty_title_string (s : jstring) :
  TodoStorage.empty_title (VString s) = true <-> trim s = [].
Proof.
  simpl. rewrite Nat.eqb_eq. destruct (trim s); simpl; split; congruence.
Qed.

End JsFacts.


(* ===================================================================== *)
(** ** Facts about the element *)
(* ===================================================================== *)

Section StorageFacts.
Import Js TodoStorage Spec.

Lemma holds_setLocalStorage todos st : holds (setLocalStorage todos st) todos.
Proof. reflexivity. Qed.

Lemma getLocalStorage_dispatch e st :
  getLocalStorage (dispatch e st) = getLocalStorage st.
Proof. reflexivity. Qed.

Lemma filter_all_true {A} (l : list A) : List.filter (fun _ => true) l = l.
Proof. induction l; simpl; congruence. Qed.

Lemma find_all st todos : holds st todos -> find None st = Normal (Resolved todos).
Proof.
  unfold holds, find. intros ->. simpl. now rewrite filter_all_true.
Qed.

Lemma count_holds st todos :
  holds st todos ->
  count st = Resolved {| total := Z.of_nat (List.length todos);
                         completed := count_loop todos 0;
                         active := Z.of_nat (List.length todos) - count_loop todos 0 |}.
Proof. intros H. unfold count. now rewrite (find_all _ _ H). Qed.

Lemma dispatchCountUpdated_holds st todos :
  holds st todos ->
  dispatchCountUpdated st =
  dispatch (CountUpdated {| total := Z.of_nat (List.length todos);
                            completed := count_loop todos 0;
                            active := Z.of_nat (List.length todos) - count_loop todos 0 |}) st.
Proof. intros H. unfold dispatchCountUpdated. now rewrite (count_holds _ _ H). Qed.

Lemma committed_eq todos e st :
  committed todos e st =
  {| name := name st;
     liveTodos := Some todos;
     localStorage := <[name st := Json.stringify todos]> (localStorage st);
     dispatched := (dispatched st ++ [e]) ++
       [CountUpdated {| total := Z.of_nat (List.length todos);
                        completed := count_loop todos 0;
                        active := Z.of_nat (List.length todos) - count_loop todos 0 |}] |}.
Proof.
  unfold committed.
  now rewrite (dispatchCountUpdated_holds _ todos) by reflexivity.
Qed.

Lemma holds_committed todos e st : holds (committed todos e st) todos.
Proof. now rewrite committed_eq. Qed.

Lemma localStorage_committed todos e st :
  localStorage (committed todos e st)
  = <[name st := Json.stringify todos]> (localStorage st).
Proof. now rewrite committed_eq. Qed.

(** *** The operations on a readable store *)

Lemma addTodo_ok title now st todos :
  holds st todos -> empty_title title = false ->
  let item := [(js "title", title); (js "id", VNumber now);
               (js "completed", VBool false)] in
  addTodo title now st
  = (Normal (Resolved item), committed (todos ++ [item]) (TodoAdded item) st).
Proof. unfold holds, addTodo. intros -> ->. reflexivity. Qed.

Lemma addTodo_empty title now st todos :
  holds st todos -> empty_title title = true ->
  addTodo title now st
  = (Throw (Error "Cannot create a todo item with an empty title."), st).
Proof. unfold holds, addTodo. intros -> ->. reflexivity. Qed.

Lemma removeTodo_ok id st todos :
  holds st todos ->
  let todos' := List.filter (fun todo => negb (strict_eq (get todo (js "id")) id)) todos in
  removeTodo id st
  = (Normal (Resolved todos'), committed todos' (TodoRemoved [(js "id", id)]) st).
Proof. unfold holds, removeTodo. intros ->. reflexivity. Qed.

Lemma updateTodo_found update st todos item todos' :
  holds st todos ->
  update_loop (get update (js "id")) update todos = (Some item, todos') ->
  updateTodo update st
  = (Normal (Resolved item), committed todos' (TodoUpdated item) st).
Proof. unfold holds, updateTodo. intros -> ->. reflexivity. Qed.

Lemma updateTodo_missing update st todos todos' :
  holds st todos ->
  update_loop (get update (js "id")) update todos = (None, todos') ->
  updateTodo update st = (Normal (Rejected (RObject update)), st).
Proof. unfold holds, updateTodo. intros -> ->. reflexivity. Qed.

(** *** The scan of [updateTodo] *)

Lemma update_loop_none id update (todos : list obj) :
  (forall t, In t todos -> get t (js "id") <> id) ->
  update_loop id update todos = (None, todos).
Proof.
  induction todos as [|t todos IH]; intros H; simpl; [reflexivity|].
  rewrite strict_eq_neq by (apply H; now left).
  rewrite IH; [reflexivity|]. intros t' Ht'. apply H. now right.
Qed.

Lemma update_loop_some id update (todos : list obj) :
  (exists t, In t todos /\ get t (js "id") = id) ->
  exists (k : nat) (t : obj),
    todos !! k = Some t /\ get t (js "id") = id /\
    (forall (j : nat) (t' : obj), (j < k)%nat -> todos !! j = Some t' -> get t' (js "id") <> id) /\
    update_loop id update todos = (Some (assign t update), <[k := assign t update]> todos).
Proof.
  induction todos as [|t todos IH]; intros (t0 & Hin & Hid); [destruct Hin|].
  simpl. destruct (strict_eq (get t (js "id")) id) eqn:E.
  - apply strict_eq_eq in E. exists 0%nat, t. repeat split; auto.
    intros j t' Hj. lia.
  - apply strict_eq_false in E.
    destruct IH as (k & t1 & Hk & Hid1 & Hbefore & Hloop).
    { destruct Hin as [->|Hin]; [contradiction|]. eauto. }
    exists (S k), t1. rewrite Hloop. repeat split; auto.
    intros [|j] t' Hj Hl; simpl in Hl.
    + injection Hl as <-. exact E.
    + apply (Hbefore j); [lia | exact Hl].
Qed.

End StorageFacts.

(* ===================================================================== *)
(** ** The operations of the storage adapter *)
(* ===================================================================== *)

Section Operations.
Import Js TodoStorage Spec.

Lemma ids_app (l k : list obj) : ids (l ++ k) = ids l ++ ids k.
Proof. unfold ids. apply List.map_app. Qed.

Lemma holds_empty_store : holds empty_store [].
Proof. reflexivity. Qed.

Lemma holds_store_A : holds store_A [new_item (js "A") 5].
Proof. reflexivity. Qed.

(** C1, as amended.  For a title with something left after [trim],
    [addTodo] resolves with the record [{title, id: Date.now(), completed:
    false}], and the collection afterwards, in the element and in
    [localStorage], is the old one followed by that record.  The id is the
    timestamp and is not compared with the stored ids: it is new to the
    store when no stored record carries that timestamp already, and then
    ids that were pairwise distinct stay so. *)
Theorem addTodo_appends (title : jstring) (now : Z) (st : state) (todos : list obj) :
  holds st todos ->
  trim title <> [] ->
  exists st',
    addTodo (VString title) now st = (Normal (Resolved (new_item title now)), st') /\
    holds st' (todos ++ [new_item title now]) /\
    localStorage st'
      = <[name st := Json.stringify (todos ++ [new_item title now])]> (localStorage st) /\
    get (new_item title now) (js "completed") = VBool false /\
    get (new_item title now) (js "id") = VNumber now /\
    (VNumber now ∉ ids todos -> NoDup (ids todos) ->
     NoDup (ids (todos ++ [new_item title now]))).
Proof.
  intros Hst Htitle.
  assert (Hne : empty_title (VString title) = false).
  { destruct (empty_title (VString title)) eqn:E; [|reflexivity].
    now apply empty_title_string in E. }
  eexists. split; [exact (addTodo_ok _ now _ _ Hst Hne)|].
  split; [apply holds_committed|].
  split; [apply localStorage_committed|].
  split; [reflexivity|]. split; [reflexivity|].
  intros Hfresh Hnodup. rewrite ids_app. apply NoDup_app.
  split; [exact Hnodup|]. split.
  - intros x Hx [->|Hin]%elem_of_cons; [contradiction | inversion Hin].
  - apply NoDup_singleton.
Qed.

Lemma addTodo_appends_witness :
  exists st',
    addTodo (VString (js "B")) 7 store_A
      = (Normal (Resolved (new_item (js "B") 7)), st') /\
    holds st' ([new_item (js "A") 5] ++ [new_item (js "B") 7]) /\
    localStorage st'
      = <[name store_A :=
            Json.stringify ([new_item (js "A") 5] ++ [new_item (js "B") 7])]>
          (localStorage store_A) /\
    get (new_item (js "B") 7) (js "completed") = VBool false /\
    get (new_item (js "B") 7) (js "id") = VNumber 7 /\
    (VNumber 7 ∉ ids [new_item (js "A") 5] -> NoDup (ids [new_item (js "A") 5]) ->
     NoDup (ids ([new_item (js "A") 5] ++ [new_item (js "B") 7]))).
Proof.
  apply (addTodo_appends (js "B") 7 store_A [new_item (js "A") 5]).
  - reflexivity.
  - vm_compute. discriminate.
Defined.

(** C1 as the specification states it fails: two calls of [addTodo] that
    read the same [Date.now()] store two records with one id. *)
Lemma addTodo_same_instant_shares_id :
  holds store_A [new_item (js "A") 5] /\
  fst (addTodo (VString (js "B")) 5 store_A)
    = Normal (Resolved (new_item (js "B") 5)) /\
  holds (snd (addTodo (VString (js "B")) 5 store_A))
    [new_item (js "A") 5; new_item (js "B") 5] /\
  get (new_item (js "B") 5) (js "id") = get (new_item (js "A") 5) (js "id") /\
  ~ NoDup (ids [new_item (js "A") 5; new_item (js "B") 5]).
Proof.
  repeat split; try reflexivity.
  intros H. apply NoDup_cons in H as [Hnotin _]. apply Hnotin. left.
Qed.

(** C3.  When no record of the collection has the id of [update],
    [updateTodo] returns a promise rejected with [update], and the element,
    the collection it holds and [localStorage] are what they were. *)
Theorem updateTodo_unknown_id (update : obj) (st : state) (todos : list obj) :
  holds st todos ->
  (forall t, In t todos -> get t (js "id") <> get update (js "id")) ->
  updateTodo update st = (Normal (Rejected (RObject update)), st) /\
  holds (snd (updateTodo update st)) todos /\
  localStorage (snd (updateTodo update st)) = localStorage st.
Proof.
  intros Hst Hnone.
  pose proof (updateTodo_missing update st todos todos Hst
                (update_loop_none _ _ _ Hnone)) as E.
  rewrite E. auto.
Qed.

Lemma updateTodo_unknown_id_witness :
  updateTodo [(js "id", VNumber 6); (js "completed", VBool true)] store_A
    = (Normal (Rejected (RObject [(js "id", VNumber 6); (js "completed", VBool true)])),
       store_A) /\
  holds (snd (updateTodo [(js "id", VNumber 6); (js "completed", VBool true)] store_A))
    [new_item (js "A") 5] /\
  localStorage (snd (updateTodo [(js "id", VNumber 6); (js "completed", VBool true)] store_A))
    = localStorage store_A.
Proof.
  apply (updateTodo_unknown_id
           [(js "id", VNumber 6); (js "completed", VBool true)] store_A
           [new_item (js "A") 5]).
  - reflexivity.
  - intros t [<-|[]]. vm_compute. discriminate.
Defined.

(** C4.  For a title that [trim] leaves empty, [addTodo] throws and the
    element, its collection and [localStorage] are what they were; on a
    readable store the exception is the [Error] about the empty title. *)
Theorem addTodo_blank_title (title : jstring) (now : Z) (st : state) :
  trim title = [] ->
  exists e,
    addTodo (VString title) now st = (Throw e, st) /\
    (forall todos, holds st todos ->
       e = Error "Cannot create a todo item with an empty title.").
Proof.
  intros Hblank. apply empty_title_string in Hblank.
  destruct (getLocalStorage st) as [todos|e] eqn:E.
  - eexists. split; [exact (addTodo_empty _ now _ _ E Hblank) | reflexivity].
  - exists e. split.
    + unfold addTodo. now rewrite E.
    + unfold holds. intros todos H. congruence.
Qed.

Example addTodo_empty_string :
  addTodo (VString (js "")) 7 store_A
  = (Throw (Error "Cannot create a todo item with an empty title."), store_A).
Proof. reflexivity. Qed.

Example addTodo_not_a_string :
  addTodo VUndefined 7 store_A
  = (Throw (Error "Cannot create a todo item with an empty title."), store_A).
Proof. reflexivity. Qed.

Lemma addTodo_blank_title_witness :
  exists e,
    addTodo (VString (js "   ")) 7 store_A = (Throw e, store_A) /\
    (forall todos, holds store_A todos ->
       e = Error "Cannot create a todo item with an empty title.").
Proof.
  apply (addTodo_blank_title (js "   ") 7 store_A). reflexivity.
Defined.

(** *** [updateTodo] on a stored id *)

Lemma assign_completed (t : obj) (i : value) :
  assign t [(js "id", i); (js "completed", VBool true)]
  = set (set t (js "id") i) (js "completed") (VBool true).
Proof. reflexivity. Qed.

Lemma get_assign_completed (t : obj) (k : jstring) :
  k <> js "completed" ->
  get (assign t [(js "id", get t (js "id")); (js "completed", VBool true)]) k
  = get t k.
Proof.
  intros Hk. rewrite assign_completed.
  rewrite get_set_other by congruence.
  destruct (decide (js "id" = k)) as [<-|Hid].
  - apply get_set_same.
  - now apply get_set_other.
Qed.

(** C5.  When some record has id [i], [updateTodo( {id: i, completed:
    true} )] resolves with the first such record, at index [k], changed
    as follows: [completed] is [true] and every other field, the title and
    the id among them, reads as before.  The collection afterwards is the
    old one with that record at index [k]: the length is the same and
    every other index holds the record it held. *)
Theorem updateTodo_completed (i : value) (st : state) (todos : list obj) :
  holds st todos ->
  (exists t, In t todos /\ get t (js "id") = i) ->
  exists (k : nat) (t item : obj) (st' : state),
    todos !! k = Some t /\ get t (js "id") = i /\
    (forall (j : nat) (t' : obj),
       (j < k)%nat -> todos !! j = Some t' -> get t' (js "id") <> i) /\
    updateTodo [(js "id", i); (js "completed", VBool true)] st
      = (Normal (Resolved item), st') /\
    get item (js "completed") = VBool true /\
    get item (js "title") = get t (js "title") /\
    get item (js "id") = get t (js "id") /\
    (forall key, key <> js "completed" -> get item key = get t key) /\
    holds st' (<[k := item]> todos) /\
    List.length (<[k := item]> todos) = List.length todos /\
    (forall j : nat, j <> k -> (<[k := item]> todos) !! j = todos !! j).
Proof.
  intros Hst Hex.
  destruct (update_loop_some i [(js "id", i); (js "completed", VBool true)] todos Hex)
    as (k & t & Hk & Hid & Hfirst & Hloop).
  exists k, t, (assign t [(js "id", i); (js "completed", VBool true)]).
  eexists. split; [exact Hk|]. split; [exact Hid|]. split; [exact Hfirst|].
  split; [exact (updateTodo_found [(js "id", i); (js "completed", VBool true)]
                  st todos _ _ Hst Hloop)|].
  subst i.
  split; [rewrite assign_completed; apply get_set_same|].
  split; [apply get_assign_completed; vm_compute; discriminate|].
  split; [apply get_assign_completed; vm_compute; discriminate|].
  split; [intros key Hkey; now apply get_assign_completed|].
  split; [apply holds_committed|].
  split; [apply length_insert|].
  intros j Hj. apply list_lookup_insert_ne. congruence.
Qed.

Lemma updateTodo_completed_witness :
  exists (k : nat) (t item : obj) (st' : state),
    [new_item (js "A") 5] !! k = Some t /\ get t (js "id") = VNumber 5 /\
    (forall (j : nat) (t' : obj),
       (j < k)%nat -> [new_item (js "A") 5] !! j = Some t' ->
       get t' (js "id") <> VNumber 5) /\
    updateTodo [(js "id", VNumber 5); (js "completed", VBool true)] store_A
      = (Normal (Resolved item), st') /\
    get item (js "completed") = VBool true /\
    get item (js "title") = get t (js "title") /\
    get item (js "id") = get t (js "id") /\
    (forall key, key <> js "completed" -> get item key = get t key) /\
    holds st' (<[k := item]> [new_item (js "A") 5]) /\
    List.length (<[k := item]> [new_item (js "A") 5])
      = List.length [new_item (js "A") 5] /\
    (forall j : nat, j <> k ->
       (<[k := item]> [new_item (js "A") 5]) !! j = [new_item (js "A") 5] !! j).
Proof.
  apply (updateTodo_completed (VNumber 5) store_A [new_item (js "A") 5]).
  - reflexivity.
  - exists (new_item (js "A") 5). split; [now left | reflexivity].
Defined.

(** *** [removeTodo] *)

Lemma filter_bool_Prop {A} (f : A -> bool) (P : A -> Prop) `{!forall x, Decision (P x)}
    (l : list A) :
  (forall x, f x = true <-> P x) -> List.filter f l = filter P l.
Proof.
  intros Hf. induction l as [|x l IH]; [reflexivity|].
  simpl. rewrite filter_cons. destruct (decide (P x)) as [HP|HP].
  - apply Hf in HP. rewrite HP. now rewrite IH.
  - destruct (f x) eqn:E; [now apply Hf in E|]. exact IH.
Qed.

Lemma remove_filter (id : value) (todos : list obj) :
  List.filter (fun todo => negb (strict_eq (get todo (js "id")) id)) todos
  = filter (fun todo => get todo (js "id") <> id) todos.
Proof.
  apply filter_bool_Prop. intros t. rewrite negb_true_iff. split.
  - apply strict_eq_false.
  - apply strict_eq_neq.
Qed.

Lemma filter_id {A} (P : A -> Prop) `{!forall x, Decision (P x)} (l : list A) :
  (forall x, In x l -> P x) -> filter P l = l.
Proof.
  induction l as [|x l IH]; intros Hall; [reflexivity|].
  rewrite filter_cons_True by (apply Hall; now left).
  rewrite IH; [reflexivity|]. intros y Hy. apply Hall. now right.
Qed.

(** C6.  When no record of the collection has the given id, [removeTodo]
    returns a promise resolved with the collection, and the collection the
    element holds afterwards is the one it held before: the same records,
    hence the same length. *)
Theorem removeTodo_unknown_id (id : value) (st : state) (todos : list obj) :
  holds st todos ->
  (forall t, In t todos -> get t (js "id") <> id) ->
  exists st',
    removeTodo id st = (Normal (Resolved todos), st') /\
    holds st' todos /\
    localStorage st' = <[name st := Json.stringify todos]> (localStorage st).
Proof.
  intros Hst Hnone.
  pose proof (removeTodo_ok id st todos Hst) as E. simpl in E.
  rewrite remove_filter, (filter_id _ _ Hnone) in E.
  eexists. split; [exact E|]. split.
  - apply holds_committed.
  - apply localStorage_committed.
Qed.

Lemma removeTodo_unknown_id_witness :
  exists st',
    removeTodo (VNumber 6) store_A = (Normal (Resolved [new_item (js "A") 5]), st') /\
    holds st' [new_item (js "A") 5] /\
    localStorage st'
      = <[name store_A := Json.stringify [new_item (js "A") 5]]> (localStorage store_A).
Proof.
  apply (removeTodo_unknown_id (VNumber 6) store_A [new_item (js "A") 5]).
  - reflexivity.
  - intros t [<-|[]]. vm_compute. discriminate.
Defined.

(** C10.  [removeTodo( id )] resolves with, and leaves in the element, the
    collection filtered by [todo.id !== id]: every record with that id is
    gone, however many there are, and the others stay in their order. *)
Theorem removeTodo_filters (id : value) (st : state) (todos : list obj) :
  holds st todos ->
  exists st',
    removeTodo id st
      = (Normal (Resolved (filter (fun todo => get todo (js "id") <> id) todos)), st') /\
    holds st' (filter (fun todo => get todo (js "id") <> id) todos) /\
    (forall t, t ∈ filter (fun todo => get todo (js "id") <> id) todos
               <-> get t (js "id") <> id /\ t ∈ todos) /\
    filter (fun todo => get todo (js "id") <> id) todos `sublist_of` todos.
Proof.
  intros Hst.
  pose proof (removeTodo_ok id st todos Hst) as E. simpl in E.
  rewrite remove_filter in E.
  eexists. split; [exact E|]. split; [apply holds_committed|]. split.
  - intros t. now rewrite list_elem_of_filter.
  - apply sublist_filter.
Qed.

Example removeTodo_duplicates :
  fst (removeTodo (VNumber 5)
         (setLocalStorage [new_item (js "A") 5; new_item (js "B") 7; new_item (js "C") 5]
            empty_store))
  = Normal (Resolved [new_item (js "B") 7]).
Proof. reflexivity. Qed.

Lemma removeTodo_filters_witness :
  exists st',
    removeTodo (VNumber 5) store_A
      = (Normal (Resolved (filter (fun todo => get todo (js "id") <> VNumber 5)
                             [new_item (js "A") 5])), st') /\
    holds st' (filter (fun todo => get todo (js "id") <> VNumber 5) [new_item (js "A") 5]) /\
    (forall t, t ∈ filter (fun todo => get todo (js "id") <> VNumber 5) [new_item (js "A") 5]
               <-> get t (js "id") <> VNumber 5 /\ t ∈ [new_item (js "A") 5]) /\
    filter (fun todo => get todo (js "id") <> VNumber 5) [new_item (js "A") 5]
      `sublist_of` [new_item (js "A") 5].
Proof.
  apply (removeTodo_filters (VNumber 5) store_A [new_item (js "A") 5]).
  reflexivity.
Defined.

(** *** [find] *)

Lemma get_unowned (o : obj) (k : jstring) : owns o k = false -> get o k = VUndefined.
Proof.
  unfold owns, keys. induction o as [|[k0 v0] o IH]; [reflexivity|].
  cbn [List.map existsb fst get]. intros [H1 H2]%orb_false_iff.
  rewrite H1. now apply IH.
Qed.

(** A read of a name that [Object.prototype] does not have is the own
    property, or [undefined]. *)
Lemma read_get (o : obj) (k : jstring) : inherited k = false -> read o k = Some (get o k).
Proof.
  intros H. unfold read. rewrite H.
  destruct (owns o k) eqn:E; [reflexivity|]. now rewrite get_unowned.
Qed.

Lemma query_matches_Forall (ks : list jstring) (query todo : obj) :
  query_matches ks query todo = true
  <-> Forall (fun k => read todo k = Some (get query k)) ks.
Proof.
  induction ks as [|k ks IH]; cbn [query_matches].
  - split; [constructor | reflexivity].
  - destruct (read todo k) as [v|] eqn:R.
    + destruct (strict_eq (get query k) v) eqn:E; cbn [negb].
      * apply strict_eq_eq in E. rewrite IH. split.
        -- intros H. constructor; [congruence | exact H].
        -- intros H. now inversion H.
      * apply strict_eq_false in E. split; [discriminate|].
        intros H. inversion H; subst. congruence.
    + cbn [negb]. split; [discriminate|].
      intros H. inversion H; subst. congruence.
Qed.

(** C7.  [find( query )] resolves with the records that agree with
    [query] on every field [query] names, in the order of the collection
    (a record occurs as often and where it did); without a query it
    resolves with the whole collection.  The field of a record is what
    [todo[ k ]] reads: for a name that [Object.prototype] does not have,
    the property of the record, [undefined] when it has none. *)
Theorem find_exact_match (query : obj) (st : state) (todos : list obj) :
  holds st todos ->
  find (Some query) st = Normal (Resolved (filter (matches query) todos)) /\
  find None st = Normal (Resolved todos) /\
  (forall t, t ∈ filter (matches query) todos
             <-> (forall k, k ∈ keys query -> read t k = Some (get query k)) /\
                 t ∈ todos) /\
  (Forall (fun k => inherited k = false) (keys query) ->
   forall t, t ∈ filter (matches query) todos
             <-> (forall k, k ∈ keys query -> get t k = get query k) /\ t ∈ todos) /\
  filter (matches query) todos `sublist_of` todos.
Proof.
  intros Hst.
  assert (Hin : forall t, t ∈ filter (matches query) todos
                  <-> (forall k, k ∈ keys query -> read t k = Some (get query k)) /\
                      t ∈ todos).
  { intros t. rewrite list_elem_of_filter. unfold matches. now rewrite Forall_forall. }
  split; [|split; [|split; [|split]]].
  - unfold find. rewrite Hst. simpl. do 2 f_equal.
    apply filter_bool_Prop. intros t. apply query_matches_Forall.
  - now apply find_all.
  - exact Hin.
  - intros Hplain t. rewrite Hin. rewrite Forall_forall in Hplain.
    split; intros [H Ht]; (split; [|exact Ht]); intros k Hk.
    + specialize (H k Hk). rewrite (read_get t k (Hplain k Hk)) in H. congruence.
    + rewrite (read_get t k (Hplain k Hk)). f_equal. now apply H.
  - apply sublist_filter.
Qed.

Example find_completed :
  find (Some [(js "completed", VBool true)])
    (setLocalStorage
       [new_item (js "A") 5; set (new_item (js "B") 7) (js "completed") (VBool true)]
       empty_store)
  = Normal (Resolved [set (new_item (js "B") 7) (js "completed") (VBool true)]).
Proof. reflexivity. Qed.

(** A record that has no property [toString] inherits one, which is not
    [undefined]: the criteria [{toString: undefined}] match no record,
    the criteria [{nothing: undefined}] every record. *)
Example find_inherited_name :
  find (Some [(js "toString", VUndefined)]) store_A = Normal (Resolved []) /\
  find (Some [(js "nothing", VUndefined)]) store_A
  = Normal (Resolved [new_item (js "A") 5]).
Proof. split; reflexivity. Qed.

Lemma find_exact_match_witness :
  find (Some [(js "completed", VBool true)]) store_AB
  = Normal (Resolved [set (new_item (js "B") 7) (js "completed") (VBool true)]) /\
  find None store_AB
  = Normal (Resolved [new_item (js "A") 5;
                      set (new_item (js "B") 7) (js "completed") (VBool true)]).
Proof.
  destruct (find_exact_match [(js "completed", VBool true)] store_AB
              [new_item (js "A") 5;
               set (new_item (js "B") 7) (js "completed") (VBool true)] eq_refl)
    as (H1 & H2 & _).
  split; [|exact H2]. etransitivity; [exact H1|]. reflexivity.
Defined.

(** *** [count] *)

Lemma count_loop_truthy (todos : list obj) (acc : Z) :
  count_loop todos acc
  = (acc + Z.of_nat (List.length
       (filter (fun t => truthy (get t (js "completed")) = true) todos)))%Z.
Proof.
  revert acc. induction todos as [|t todos IH]; intros acc.
  - simpl. lia.
  - simpl count_loop. rewrite IH, filter_cons.
    destruct (truthy (get t (js "completed"))) eqn:E.
    + rewrite decide_True by reflexivity. simpl List.length. lia.
    + rewrite decide_False by discriminate. reflexivity.
Qed.

Lemma filter_flagged (todos : list obj) :
  Forall flagged todos ->
  filter (fun t => truthy (get t (js "completed")) = true) todos
  = filter (fun t => get t (js "completed") = VBool true) todos.
Proof.
  induction 1 as [|t todos [b Hb] _ IH]; [reflexivity|].
  rewrite !filter_cons, IH, Hb.
  destruct b; simpl truthy.
  - now rewrite !decide_True by reflexivity.
  - now rewrite !decide_False by discriminate.
Qed.

Lemma count_loop_flagged (todos : list obj) (acc : Z) :
  Forall flagged todos ->
  count_loop todos acc
  = (acc + Z.of_nat (List.length
       (filter (fun t => get t (js "completed") = VBool true) todos)))%Z.
Proof. intros Hall. now rewrite count_loop_truthy, (filter_flagged _ Hall). Qed.

(** C8.  On a collection whose [completed] fields are booleans, [count]
    resolves with the number of records as [total], the number of records
    with [completed = true] as [completed], and their difference as
    [active].  And from an empty collection, [addTodo( 'A' )], [addTodo(
    'B' )] and [updateTodo( {id: <id of A>, completed: true} )] lead to
    the counts 2, 1 and 1, whatever instants the two additions read. *)
Theorem count_scan :
  (forall (st : state) (todos : list obj),
     holds st todos -> Forall flagged todos ->
     exists c,
       count st = Resolved c /\
       total c = Z.of_nat (List.length todos) /\
       completed c = Z.of_nat (List.length
         (filter (fun t => get t (js "completed") = VBool true) todos)) /\
       active c = (total c - completed c)%Z) /\
  (forall (st0 : state) (now1 now2 : Z),
     holds st0 [] ->
     exists a b st1 st2 st3,
       addTodo (VString (js "A")) now1 st0 = (Normal (Resolved a), st1) /\
       addTodo (VString (js "B")) now2 st1 = (Normal (Resolved b), st2) /\
       fst (updateTodo [(js "id", get a (js "id")); (js "completed", VBool true)] st2)
         = Normal (Resolved (set a (js "completed") (VBool true))) /\
       snd (updateTodo [(js "id", get a (js "id")); (js "completed", VBool true)] st2)
         = st3 /\
       count st3 = Resolved {| total := 2; completed := 1; active := 1 |}).
Proof.
  split.
  - intros st todos Hst Hall. eexists. split; [exact (count_holds _ _ Hst)|].
    simpl. rewrite (count_loop_flagged _ _ Hall). repeat split; lia.
  - intros st0 now1 now2 Hst0.
    pose proof (addTodo_ok (VString (js "A")) now1 st0 [] Hst0 eq_refl) as E1.
    simpl in E1.
    set (a := [(js "title", VString (js "A")); (js "id", VNumber now1);
               (js "completed", VBool false)]) in *.
    set (st1 := committed [a] (TodoAdded a) st0) in *.
    pose proof (addTodo_ok (VString (js "B")) now2 st1 [a]
                  (holds_committed _ _ _) eq_refl) as E2.
    simpl in E2.
    set (b := [(js "title", VString (js "B")); (js "id", VNumber now2);
               (js "completed", VBool false)]) in *.
    set (st2 := committed [a; b] (TodoAdded b) st1) in *.
    set (u := [(js "id", get a (js "id")); (js "completed", VBool true)]).
    assert (Hloop : update_loop (get u (js "id")) u [a; b]
                    = (Some (assign a u), [assign a u; b])).
    { change (get u (js "id")) with (VNumber now1).
      unfold update_loop.
      change (get a (js "id")) with (VNumber now1).
      now rewrite strict_eq_refl. }
    pose proof (updateTodo_found u st2 [a; b] _ _ (holds_committed _ _ _) Hloop) as E3.
    exists a, b, st1, st2, (committed [assign a u; b] (TodoUpdated (assign a u)) st2).
    split; [exact E1|]. split; [exact E2|]. fold u. rewrite E3.
    split; [reflexivity|]. split; [reflexivity|].
    rewrite (count_holds _ _ (holds_committed _ _ _)). reflexivity.
Qed.

Lemma count_scan_witness :
  (exists c,
     count store_A = Resolved c /\
     total c = Z.of_nat (List.length [new_item (js "A") 5]) /\
     completed c = Z.of_nat (List.length
       (filter (fun t => get t (js "completed") = VBool true) [new_item (js "A") 5])) /\
     active c = (total c - completed c)%Z) /\
  (exists a b st1 st2 st3,
     addTodo (VString (js "A")) 5 empty_store = (Normal (Resolved a), st1) /\
     addTodo (VString (js "B")) 7 st1 = (Normal (Resolved b), st2) /\
     fst (updateTodo [(js "id", get a (js "id")); (js "completed", VBool true)] st2)
       = Normal (Resolved (set a (js "completed") (VBool true))) /\
     snd (updateTodo [(js "id", get a (js "id")); (js "completed", VBool true)] st2)
       = st3 /\
     count st3 = Resolved {| total := 2; completed := 1; active := 1 |}).
Proof.
  split.
  - apply (proj1 count_scan store_A [new_item (js "A") 5]).
    + reflexivity.
    + constructor; [exists false; reflexivity | constructor].
  - apply (proj2 count_scan empty_store 5%Z 7%Z). reflexivity.
Defined.

(** *** Titles *)

Lemma get_fold_set (u : obj) (ks : list jstring) (d : obj) (k : jstring) :
  get (fold_left (fun d k => set d k (get u k)) ks d) k
  = if bool_decide (k ∈ ks) then get u k else get d k.
Proof.
  revert d. induction ks as [|k0 ks IH]; intros d; simpl; [reflexivity|].
  rewrite IH. destruct (bool_decide (k ∈ ks)) eqn:D.
  - apply bool_decide_eq_true_1 in D.
    rewrite bool_decide_eq_true_2; [reflexivity | now right].
  - apply bool_decide_eq_false_1 in D.
    destruct (decide (k0 = k)) as [->|Hne].
    + rewrite bool_decide_eq_true_2 by left. apply get_set_same.
    + rewrite bool_decide_eq_false_2.
      * now apply get_set_other.
      * intros [?|?]%elem_of_cons; [congruence | contradiction].
Qed.

Lemma get_assign (t u : obj) (k : jstring) :
  get (assign t u) k = if bool_decide (k ∈ keys u) then get u k else get t k.
Proof. apply get_fold_set. Qed.

Lemma update_loop_titled (id : value) (update : obj) (todos : list obj) :
  js "title" ∉ keys update \/ titled update ->
  Forall titled todos -> Forall titled (snd (update_loop id update todos)).
Proof.
  intros Hu Hall. induction Hall as [|t todos Ht Hall IH]; simpl; [constructor|].
  destruct (strict_eq (get t (js "id")) id).
  - simpl. constructor; [|exact Hall].
    unfold titled. rewrite get_assign.
    destruct (bool_decide (js "title" ∈ keys update)) eqn:D; [|exact Ht].
    apply bool_decide_eq_true_1 in D. destruct Hu as [Hu|Hu]; [contradiction | exact Hu].
  - destruct (update_loop id update todos) as [item rest]. simpl in *.
    now constructor.
Qed.

(** The titles stay non-blank through [addTodo] and [removeTodo], and
    through an [updateTodo] whose argument carries no title or a non-blank
    one. *)
Lemma addTodo_keeps_titles (title : value) (now : Z) (st st' : state) (todos : list obj) p :
  holds st todos -> Forall titled todos ->
  addTodo title now st = (Normal p, st') ->
  exists todos', holds st' todos' /\ Forall titled todos'.
Proof.
  intros Hst Hall. destruct (empty_title title) eqn:E.
  - rewrite (addTodo_empty _ now _ _ Hst E). discriminate.
  - rewrite (addTodo_ok _ now _ _ Hst E). intros [= _ <-].
    eexists. split; [apply holds_committed|].
    apply Forall_app. split; [exact Hall|]. constructor; [|constructor].
    destruct title as [| |b|n|s]; try discriminate E.
    exists s. split; [reflexivity|]. intros Hs.
    apply empty_title_string in Hs. congruence.
Qed.

Lemma removeTodo_keeps_titles (id : value) (st : state) (todos : list obj) :
  holds st todos -> Forall titled todos ->
  exists todos', holds (snd (removeTodo id st)) todos' /\ Forall titled todos'.
Proof.
  intros Hst Hall. rewrite (removeTodo_ok _ _ _ Hst). simpl.
  eexists. split; [apply holds_committed|].
  rewrite remove_filter. apply Forall_forall.
  intros x [_ Hx]%list_elem_of_filter. rewrite Forall_forall in Hall. auto.
Qed.

Lemma updateTodo_keeps_titles (update : obj) (st : state) (todos : list obj) :
  js "title" ∉ keys update \/ titled update ->
  holds st todos -> Forall titled todos ->
  exists todos', holds (snd (updateTodo update st)) todos' /\ Forall titled todos'.
Proof.
  intros Hu Hst Hall.
  pose proof (update_loop_titled (get update (js "id")) update todos Hu Hall) as Hl.
  destruct (update_loop (get update (js "id")) update todos) as [[item|] todos'] eqn:E.
  - rewrite (updateTodo_found _ _ _ _ _ Hst E). simpl.
    eexists. split; [apply holds_committed | exact Hl].
  - rewrite (updateTodo_missing _ _ _ _ Hst E). simpl. eauto.
Qed.

(** C2 fails on the code at [updateTodo]: it copies whatever title the
    argument carries.  On the store that holds the record titled [A] with
    id 5, [updateTodo( {id: 5, title: ''} )] resolves, and the record kept
    by the element and written to [localStorage] has the empty title. *)
Theorem updateTodo_stores_empty_title :
  holds store_A [new_item (js "A") 5] /\
  Forall titled [new_item (js "A") 5] /\
  fst (updateTodo [(js "id", VNumber 5); (js "title", VString [])] store_A)
    = Normal (Resolved (new_item [] 5)) /\
  holds (snd (updateTodo [(js "id", VNumber 5); (js "title", VString [])] store_A))
    [new_item [] 5] /\
  localStorage (snd (updateTodo [(js "id", VNumber 5); (js "title", VString [])] store_A))
    !! DEFAULT_NAME = Some (Json.stringify [new_item [] 5]) /\
  ~ Forall titled [new_item [] 5].
Proof.
  split; [reflexivity|]. split.
  { constructor; [|constructor]. exists (js "A"). split; [reflexivity|].
    vm_compute. discriminate. }
  split; [reflexivity|]. split; [reflexivity|]. split; [vm_compute; reflexivity|].
  intros H. inversion H as [|? ? [s [Hs Hne]] _]; subst.
  injection Hs as <-. now apply Hne.
Qed.

End Operations.

(* ===================================================================== *)
(** ** Reading back what [JSON.stringify] wrote *)
(* ===================================================================== *)

Section JsonFacts.
Import Js Json TodoStorage Spec.

(** *** Strings *)

Lemma hex_value_digit (n : N) : n < 16 -> hex_value (hex_digit n) = Some n.
Proof.
  intros Hn. unfold hex_value, hex_digit.
  cases_on_tests; try lia; f_equal; lia.
Qed.

Lemma hex4_escape (c : N) :
  c < 65536 ->
  hex4 (hex_digit (c / 4096 mod 16)) (hex_digit (c / 256 mod 16))
       (hex_digit (c / 16 mod 16)) (hex_digit (c mod 16)) = Some c.
Proof.
  intros Hc. unfold hex4.
  rewrite !hex_value_digit by (apply N.mod_lt; discriminate).
  f_equal. zify. Z.to_euclidean_division_equations. lia.
Qed.

Lemma lex_string_unicode acc c rest :
  c < 65536 ->
  lex (LString acc) (unicode_escape c ++ rest) = lex (LString (c :: acc)) rest.
Proof.
  intros Hc. unfold unicode_escape. cbn [app lex].
  change (92 =? 34) with false. change (92 =? 92) with true.
  change (unescape 117) with (@None N). change (117 =? 117) with true.
  cbv iota. now rewrite hex4_escape.
Qed.

Lemma lex_string_plain acc c rest :
  (c =? 34) = false -> (c =? 92) = false -> (c <? 32) = false ->
  lex (LString acc) (c :: rest) = lex (LString (c :: acc)) rest.
Proof. intros E1 E2 E3. cbn [lex]. now rewrite E1, E2, E3. Qed.

Lemma surrogate_plain (c : N) :
  is_high_surrogate c || is_low_surrogate c = true ->
  (c =? 34) = false /\ (c =? 92) = false /\ (c <? 32) = false /\ c < 65536.
Proof.
  unfold is_high_surrogate, is_low_surrogate.
  cases_on_tests; intros Hsur; try discriminate Hsur; repeat split; lia.
Qed.

Lemma lex_string_unit acc c rest :
  lex (LString acc) (quote_unit c ++ rest) = lex (LString (c :: acc)) rest.
Proof.
  unfold quote_unit.
  destruct (N.eqb_spec c 8) as [->|H8]; [reflexivity|].
  destruct (N.eqb_spec c 9) as [->|H9]; [reflexivity|].
  destruct (N.eqb_spec c 10) as [->|H10]; [reflexivity|].
  destruct (N.eqb_spec c 12) as [->|H12]; [reflexivity|].
  destruct (N.eqb_spec c 13) as [->|H13]; [reflexivity|].
  destruct (N.eqb_spec c 34) as [->|H34]; [reflexivity|].
  destruct (N.eqb_spec c 92) as [->|H92]; [reflexivity|].
  destruct (N.ltb_spec c 32) as [H32|H32]; cbn [orb].
  - apply lex_string_unicode. lia.
  - destruct (is_high_surrogate c || is_low_surrogate c) eqn:Hs.
    + apply lex_string_unicode. now apply surrogate_plain.
    + apply lex_string_plain.
      * now apply N.eqb_neq.
      * now apply N.eqb_neq.
      * apply N.ltb_ge. exact H32.
Qed.

Lemma lex_quote_body (n : nat) : forall (s acc : jstring) (rest : jstring),
  (List.length s <= n)%nat ->
  lex (LString acc) (quote_body s ++ 34 :: rest)
  = emit (Some (TStr (List.rev acc ++ s))) (lex LDefault rest).
Proof.
  induction n as [|n IH]; intros s acc rest Hn.
  - destruct s; [|simpl in Hn; lia]. now rewrite app_nil_r.
  - destruct s as [|c r]; [now rewrite app_nil_r|].
    simpl in Hn. cbn [quote_body].
    assert (Hstep : forall tl, List.rev (c :: acc) ++ tl = List.rev acc ++ c :: tl).
    { intros tl. simpl. now rewrite <- app_assoc. }
    destruct (is_high_surrogate c) eqn:Hc.
    + destruct (surrogate_plain c) as (E1 & E2 & E3 & E4); [now rewrite Hc|].
      destruct r as [|d r'].
      * rewrite lex_string_unicode by exact E4.
        change (34 :: rest) with (quote_body [] ++ 34 :: rest).
        rewrite (IH [] (c :: acc) rest) by (simpl; lia). now rewrite Hstep.
      * destruct (is_low_surrogate d) eqn:Hd.
        -- destruct (surrogate_plain d) as (D1 & D2 & D3 & _).
           { rewrite Hd. apply orb_true_r. }
           cbn [app]. rewrite lex_string_plain by assumption.
           rewrite lex_string_plain by assumption.
           rewrite IH by (simpl in Hn; lia).
           simpl. now rewrite <- !app_assoc.
        -- rewrite <- app_assoc, lex_string_unicode by exact E4.
           rewrite IH by (simpl in *; lia). now rewrite Hstep.
    + rewrite <- app_assoc, lex_string_unit.
      rewrite IH by lia. now rewrite Hstep.
Qed.

Lemma lex_quote (s rest : jstring) :
  lex LDefault (quote s ++ rest) = emit (Some (TStr s)) (lex LDefault rest).
Proof.
  unfold quote. rewrite <- !app_assoc. cbn [app lex].
  change (is_json_ws 34) with false. change (punct 34) with (@None token).
  change (34 =? 34) with true. cbv iota.
  exact (lex_quote_body (List.length s) s [] rest (le_n _)).
Qed.

(** *** Numbers *)

Lemma lex_digits (neg : bool) (u acc : Decimal.uint) (rest : jstring) :
  lex (LNumber neg acc) (uint_codes u ++ rest)
  = lex (LNumber neg (Decimal.revapp u acc)) rest.
Proof.
  revert acc. induction u as [|u IH|u IH|u IH|u IH|u IH|u IH|u IH|u IH|u IH|u IH];
    intros acc; [reflexivity | exact (IH _) ..].
Qed.

Lemma lex_number_text (z : Z) (rest : jstring) :
  exists (neg : bool) (u : Decimal.uint),
    Z.to_int z = (if neg then Decimal.Neg u else Decimal.Pos u) /\
    lex LDefault (number_to_string z ++ rest) = lex (LNumber neg (Decimal.rev u)) rest.
Proof.
  unfold number_to_string.
  destruct (Z.to_int z) as [u|u] eqn:E.
  - exists false, u. split; [reflexivity|].
    assert (Hu : u <> Decimal.Nil).
    { destruct z as [|p|p]; simpl in E; try discriminate E.
      - injection E as <-. discriminate.
      - injection E as <-. apply DecimalPos.Unsigned.to_uint_nonnil. }
    destruct u as [|u|u|u|u|u|u|u|u|u|u]; [contradiction | exact (lex_digits _ u _ _) ..].
  - exists true, u. split; [reflexivity|]. exact (lex_digits _ u _ _).
Qed.

Lemma canonical_unorm (d : Decimal.uint) : canonical (Decimal.unorm d) = true.
Proof.
  unfold Decimal.unorm.
  assert (H : Decimal.nzhead d = Decimal.Nil \/
              (canonical (Decimal.nzhead d) = true /\ Decimal.nzhead d <> Decimal.Nil)).
  { induction d; simpl; auto; right; split; auto; discriminate. }
  destruct H as [-> | [Hc Hn]]; [reflexivity|].
  destruct (Decimal.nzhead d); [contradiction | exact Hc ..].
Qed.

Lemma canonical_to_int (z : Z) (neg : bool) (u : Decimal.uint) :
  Z.to_int z = (if neg then Decimal.Neg u else Decimal.Pos u) -> canonical u = true.
Proof.
  assert (Hp : forall p, canonical (Pos.to_uint p) = true).
  { intros p. change (Pos.to_uint p) with (N.to_uint (Npos p)).
    rewrite <- (DecimalPos.Unsigned.of_to p), DecimalPos.Unsigned.to_of. apply canonical_unorm. }
  destruct z as [|p|p], neg; simpl; intros [= <-]; auto.
Qed.

Lemma number_token_to_int (z : Z) (neg : bool) (u : Decimal.uint) :
  safe_integer z = true ->
  Z.to_int z = (if neg then Decimal.Neg u else Decimal.Pos u) ->
  number_token neg (Decimal.rev u) = Some (TNum z).
Proof.
  intros Hsafe E. unfold number_token.
  rewrite DecimalFacts.rev_rev, (canonical_to_int z neg u E), <- E, DecimalZ.of_to, Hsafe.
  reflexivity.
Qed.

Lemma punct_cases (c : N) t :
  punct c = Some t -> c = 91 \/ c = 93 \/ c = 123 \/ c = 125 \/ c = 44 \/ c = 58.
Proof. unfold punct. cases_on_tests; intros E; try discriminate E; auto 7. Qed.

Lemma lex_number_end (neg : bool) (acc : Decimal.uint) (c : N) t (rest : jstring) :
  punct c = Some t ->
  lex (LNumber neg acc) (c :: rest)
  = emit (number_token neg acc) (emit (Some t) (lex LDefault rest)).
Proof.
  intros Hp. destruct (punct_cases c t Hp) as [->|[->|[->|[->|[->| ->]]]]];
    injection Hp as <-; reflexivity.
Qed.

Lemma lex_number (z : Z) (c : N) t (rest : jstring) :
  safe_integer z = true -> punct c = Some t ->
  lex LDefault (number_to_string z ++ c :: rest)
  = emit (Some (TNum z)) (emit (Some t) (lex LDefault rest)).
Proof.
  intros Hsafe Hp. destruct (lex_number_text z (c :: rest)) as (neg & u & E & ->).
  now rewrite (lex_number_end _ _ _ _ _ Hp), (number_token_to_int z neg u Hsafe E).
Qed.

(** *** Values, members, objects and the array *)

Lemma lex_punct (c : N) t (rest : jstring) :
  punct c = Some t -> lex LDefault (c :: rest) = emit (Some t) (lex LDefault rest).
Proof.
  intros Hp. destruct (punct_cases c t Hp) as [->|[->|[->|[->|[->| ->]]]]];
    injection Hp as <-; reflexivity.
Qed.

Lemma lex_literal (t : token) (rest : jstring) :
  match t with
  | TNull => lex LDefault (js "null" ++ rest) = emit (Some TNull) (lex LDefault rest)
  | TTrue => lex LDefault (js "true" ++ rest) = emit (Some TTrue) (lex LDefault rest)
  | TFalse => lex LDefault (js "false" ++ rest) = emit (Some TFalse) (lex LDefault rest)
  | _ => True
  end.
Proof. destruct t; try exact I; reflexivity. Qed.

Lemma lex_value (v : value) s t (c : N) p (rest : jstring) :
  storable v -> stringify_value v = Some s -> value_token v = Some t ->
  punct c = Some p ->
  lex LDefault (s ++ c :: rest) = emit (Some t) (emit (Some p) (lex LDefault rest)).
Proof.
  intros Hv Hs Ht Hp. destruct v as [| |[]|z|str]; simpl in *;
    try discriminate; injection Hs as <-; injection Ht as <-.
  - now rewrite (lex_literal TNull), (lex_punct _ _ _ Hp).
  - now rewrite (lex_literal TTrue), (lex_punct _ _ _ Hp).
  - now rewrite (lex_literal TFalse), (lex_punct _ _ _ Hp).
  - now apply lex_number.
  - now rewrite lex_quote, (lex_punct _ _ _ Hp).
Qed.

Lemma prepend_prepend (a b : list token) r :
  prepend a (prepend b r) = prepend (a ++ b) r.
Proof. destruct r; simpl; [now rewrite app_assoc | reflexivity]. Qed.

Lemma emit_prepend (t : token) r : emit (Some t) r = prepend [t] r.
Proof. now destruct r. Qed.

Lemma storable_written (v : value) :
  storable v -> exists s t, stringify_value v = Some s /\ value_token v = Some t.
Proof. destruct v as [| |[]|z|str]; simpl; intros H; [destruct H | eauto ..]. Qed.

Lemma member_written (kv : jstring * value) :
  storable (snd kv) ->
  exists s t, stringify_value (snd kv) = Some s /\ value_token (snd kv) = Some t /\
              stringify_member kv = Some (quote (fst kv) ++ [58] ++ s) /\
              member_tokens kv = Some [TStr (fst kv); TColon; t].
Proof.
  intros H. destruct (storable_written _ H) as (s & t & Hs & Ht).
  exists s, t. unfold stringify_member, member_tokens. now rewrite Hs, Ht.
Qed.

Lemma lex_member (kv : jstring * value) s ts (c : N) p (rest : jstring) :
  storable (snd kv) -> stringify_member kv = Some s -> member_tokens kv = Some ts ->
  punct c = Some p ->
  lex LDefault (s ++ c :: rest) = prepend (ts ++ [p]) (lex LDefault rest).
Proof.
  intros Hv Hs Ht Hp.
  destruct (member_written kv Hv) as (sv & t & Hsv & Htv & Hs' & Ht').
  assert (Es : s = quote (fst kv) ++ [58] ++ sv) by congruence.
  assert (Et : ts = [TStr (fst kv); TColon; t]) by congruence.
  subst s ts.
  rewrite <- !app_assoc, lex_quote. cbn [app].
  rewrite (lex_punct 58 TColon) by reflexivity.
  rewrite (lex_value _ _ _ _ _ _ Hv Hsv Htv Hp).
  now rewrite !emit_prepend, !prepend_prepend.
Qed.

Lemma lex_punct_app (c : N) t (rest : jstring) :
  punct c = Some t -> lex LDefault ([c] ++ rest) = prepend [t] (lex LDefault rest).
Proof. intros Hp. rewrite <- emit_prepend. now apply lex_punct. Qed.

Lemma lex_member_app (kv : jstring * value) s ts (c : N) p (rest : jstring) :
  storable (snd kv) -> stringify_member kv = Some s -> member_tokens kv = Some ts ->
  punct c = Some p ->
  lex LDefault (s ++ [c] ++ rest) = prepend (ts ++ [p]) (lex LDefault rest).
Proof. apply lex_member. Qed.

Lemma lex_members (o : obj) :
  Forall (fun kv => storable (snd kv)) o ->
  forall (m : jstring * value) s ts (rest : jstring),
    storable (snd m) -> stringify_member m = Some s -> member_tokens m = Some ts ->
    lex LDefault
      (s ++ List.concat (List.map (fun q => [44] ++ q) (omap stringify_member o))
         ++ [125] ++ rest)
    = prepend
        (ts ++ List.concat (List.map (fun q => [TComma] ++ q) (omap member_tokens o))
            ++ [TRBrace])
        (lex LDefault rest).
Proof.
  induction 1 as [|kv o Hkv Ho IH]; intros m s ts rest Hm Hs Ht.
  - cbn [omap list_omap List.map List.concat]. rewrite !app_nil_l.
    exact (lex_member_app m s ts 125 TRBrace rest Hm Hs Ht eq_refl).
  - destruct (member_written kv Hkv) as (sv & t & _ & _ & Hs0 & Ht0).
    cbn [omap list_omap].
    destruct (stringify_member kv) as [s'|] eqn:Hs'; [|discriminate].
    destruct (member_tokens kv) as [ts'|] eqn:Ht'; [|discriminate].
    cbn [List.map List.concat]. rewrite <- !app_assoc.
    rewrite (lex_member_app m s ts 44 TComma _ Hm Hs Ht eq_refl).
    rewrite (IH kv s' ts' rest Hkv Hs' Ht'), prepend_prepend.
    f_equal. now rewrite <- !app_assoc.
Qed.

Lemma lex_object (o : obj) (rest : jstring) :
  Forall (fun kv => storable (snd kv)) o ->
  lex LDefault (stringify_object o ++ rest) = prepend (object_tokens o) (lex LDefault rest).
Proof.
  intros Ho. unfold stringify_object, object_tokens, join.
  destruct Ho as [|m o Hm Ho].
  - cbn [omap list_omap]. rewrite !app_nil_l, <- !app_assoc.
    rewrite (lex_punct_app 123 TLBrace) by reflexivity.
    rewrite (lex_punct_app 125 TRBrace) by reflexivity.
    now rewrite prepend_prepend.
  - destruct (member_written m Hm) as (sv & t & _ & _ & Hs0 & Ht0).
    cbn [omap list_omap].
    destruct (stringify_member m) as [s|] eqn:Hs; [|discriminate].
    destruct (member_tokens m) as [ts|] eqn:Ht; [|discriminate].
    rewrite <- !app_assoc.
    rewrite (lex_punct_app 123 TLBrace) by reflexivity.
    rewrite (lex_members o Ho m s ts rest Hm Hs Ht).
    now rewrite prepend_prepend.
Qed.

Lemma lex_objects (objs : list obj) :
  Forall (Forall (fun kv => storable (snd kv))) objs ->
  lex LDefault
    (List.concat (List.map (fun q => [44] ++ q) (List.map stringify_object objs)) ++ [93])
  = Some (List.concat (List.map (fun q => [TComma] ++ q) (List.map object_tokens objs))
          ++ [TRBracket]).
Proof.
  induction 1 as [|o objs Ho _ IH]; [reflexivity|].
  cbn [List.map List.concat]. rewrite <- !app_assoc.
  rewrite (lex_punct_app 44 TComma) by reflexivity.
  rewrite (lex_object o _ Ho), IH. cbn [prepend].
  now rewrite <- ?app_assoc.
Qed.

Lemma lex_stringify (todos : list obj) :
  Forall (Forall (fun kv => storable (snd kv))) todos ->
  lex LDefault (stringify todos) = Some (tokens todos).
Proof.
  intros Hall. unfold stringify, tokens, join.
  destruct Hall as [|o objs Ho Hall]; [reflexivity|].
  cbn [List.map]. rewrite <- !app_assoc.
  rewrite (lex_punct_app 91 TLBracket) by reflexivity.
  rewrite (lex_object o _ Ho), (lex_objects objs Hall). cbn [prepend].
  now rewrite <- ?app_assoc.
Qed.

(** *** From the tokens back to the records *)

Lemma value_token_primitive (v : value) t : value_token v = Some t -> primitive t = Some v.
Proof. destruct v as [| |[]|z|str]; simpl; intros [= <-]; reflexivity. Qed.

Lemma set_fresh (o : obj) k v : k ∉ keys o -> set o k v = o ++ [(k, v)].
Proof.
  induction o as [|[k' v'] o IH]; intros Hk; simpl; [reflexivity|].
  rewrite jstring_eqb_neq.
  - rewrite IH; [reflexivity|]. intros Hin. apply Hk. now right.
  - intros ->. apply Hk. left.
Qed.

Lemma members_comma done o0 k t v (rest : list token) :
  primitive t = Some v ->
  members done o0 ([TStr k; TColon; t] ++ [TComma] ++ rest)
  = members done (set o0 k v) rest.
Proof. intros H. cbn. now rewrite H. Qed.

Lemma members_close done o0 k t v (rest : list token) :
  primitive t = Some v ->
  members done o0 ([TStr k; TColon; t] ++ [TRBrace] ++ rest)
  = elements (done ++ [set o0 k v]) rest.
Proof. intros H. cbn. now rewrite H. Qed.

Lemma elements_empty done (rest : list token) :
  elements done ([TComma] ++ [TLBrace] ++ [TRBrace] ++ rest)
  = elements (done ++ [[]]) rest.
Proof. reflexivity. Qed.

Lemma elements_open done k t (rest : list token) :
  elements done ([TComma] ++ [TLBrace] ++ [TStr k; TColon; t] ++ rest)
  = members done [] ([TStr k; TColon; t] ++ rest).
Proof. reflexivity. Qed.

Lemma members_tokens (o : obj) :
  Forall (fun kv => storable (snd kv)) o ->
  forall (done : list obj) (o0 : obj) (m : jstring * value) ts (rest : list token),
    storable (snd m) -> member_tokens m = Some ts ->
    NoDup (keys (o0 ++ m :: o)) ->
    members done o0
      (ts ++ List.concat (List.map (fun q => [TComma] ++ q) (omap member_tokens o))
          ++ [TRBrace] ++ rest)
    = elements (done ++ [o0 ++ m :: o]) rest.
Proof.
  induction 1 as [|kv o Hkv Ho IH]; intros done o0 [k v] ts rest Hm Ht Hnd;
    destruct (member_written (k, v) Hm) as (sv & t & _ & Htv & _ & Ht0);
    cbn [fst snd] in Ht0, Htv;
    assert (Ets : ts = [TStr k; TColon; t]) by congruence; subst ts;
    assert (Hfresh : k ∉ keys o0)
      by (unfold keys in *; rewrite List.map_app in Hnd;
          apply NoDup_app in Hnd as (_ & Hd & _); intros Hin;
          apply (Hd k Hin); left).
  - cbn [omap list_omap List.map List.concat]. rewrite app_nil_l.
    rewrite (members_close _ _ _ _ _ _ (value_token_primitive _ _ Htv)).
    now rewrite set_fresh.
  - destruct (member_written kv Hkv) as (sv' & t' & _ & _ & _ & Ht0').
    cbn [omap list_omap].
    destruct (member_tokens kv) as [ts'|] eqn:Ht'; [|discriminate].
    cbn [List.map List.concat]. rewrite <- !app_assoc.
    rewrite (members_comma _ _ _ _ _ _ (value_token_primitive _ _ Htv)).
    rewrite set_fresh by exact Hfresh.
    rewrite (IH done (o0 ++ [(k, v)]) kv ts' rest Hkv Ht').
    + now rewrite <- app_assoc.
    + now rewrite <- app_assoc.
Qed.

Lemma object_tokens_cases (o : obj) :
  record o ->
  object_tokens o = [TLBrace] ++ [TRBrace] /\ o = [] \/
  exists k t tl,
    object_tokens o = [TLBrace] ++ [TStr k; TColon; t] ++ tl /\
    forall done rest,
      members done [] ([TStr k; TColon; t] ++ tl ++ rest) = elements (done ++ [o]) rest.
Proof.
  intros [Hnd Ho]. unfold object_tokens, join.
  destruct Ho as [|m o Hm Ho]; [left; now split | right].
  destruct (member_written m Hm) as (sv & t & _ & _ & _ & Ht).
  cbn [omap list_omap]. rewrite Ht.
  exists (fst m), t. eexists. split.
  - rewrite <- !app_assoc. reflexivity.
  - intros done rest.
    pose proof (members_tokens o Ho done [] m _ rest Hm Ht Hnd) as E.
    rewrite <- !app_assoc in *. exact E.
Qed.

Lemma elements_tokens (objs : list obj) :
  Forall record objs ->
  forall done : list obj,
    elements done
      (List.concat (List.map (fun q => [TComma] ++ q) (List.map object_tokens objs))
       ++ [TRBracket])
    = Some (done ++ objs).
Proof.
  induction 1 as [|o objs Ho _ IH]; intros done.
  - simpl. now rewrite app_nil_r.
  - cbn [List.map List.concat].
    destruct (object_tokens_cases o Ho) as [[-> ->] | (k & t & tl & -> & E)].
    + rewrite <- !app_assoc, elements_empty, IH. now rewrite <- app_assoc.
    + rewrite <- !app_assoc, elements_open, E, IH.
      now rewrite <- app_assoc.
Qed.

Lemma parse_tokens_tokens (todos : list obj) :
  Forall record todos -> parse_tokens (tokens todos) = Some todos.
Proof.
  intros Hall. unfold tokens, join.
  destruct Hall as [|o objs Ho Hall]; [reflexivity|].
  cbn [List.map].
  destruct (object_tokens_cases o Ho) as [[-> ->] | (k & t & tl & -> & E)].
  - rewrite <- !app_assoc.
    change (parse_tokens ([TLBracket] ++ [TLBrace] ++ [TRBrace] ++ ?x))
      with (elements [[]] x).
    exact (elements_tokens objs Hall [[]]).
  - rewrite <- !app_assoc.
    change (parse_tokens ([TLBracket] ++ [TLBrace] ++ [TStr k; TColon; t] ++ ?x))
      with (members [] [] ([TStr k; TColon; t] ++ x)).
    rewrite E.
    exact (elements_tokens objs Hall [o]).
Qed.

Lemma record_storable (todos : list obj) :
  Forall record todos -> Forall (Forall (fun kv => storable (snd kv))) todos.
Proof. intros Hall. eapply Forall_impl; [exact Hall|]. now intros o [_ Ho]. Qed.

(** [JSON.parse] undoes [JSON.stringify] on records. *)
Lemma parse_stringify (todos : list obj) :
  Forall record todos -> parse (stringify todos) = Some todos.
Proof.
  intros Hall. unfold parse.
  rewrite (lex_stringify todos (record_storable todos Hall)).
  now apply parse_tokens_tokens.
Qed.

Lemma stringify_truthy (todos : list obj) (other : option jstring) :
  or_else (Some (stringify todos)) other = Some (stringify todos).
Proof. reflexivity. Qed.

Lemma get_In (o : obj) k v : NoDup (keys o) -> In (k, v) o -> get o k = v.
Proof.
  induction o as [|[k' v'] o IH]; intros Hnd Hin; [destruct Hin|].
  unfold keys in Hnd. simpl in Hnd. apply NoDup_cons in Hnd as [Hk' Hnd].
  simpl. destruct Hin as [[= -> ->]|Hin].
  - now rewrite jstring_eqb_refl.
  - rewrite jstring_eqb_neq; [now apply IH|].
    intros ->. apply Hk'. apply list_elem_of_In.
    change (In k (List.map fst o)). apply in_map_iff. now exists (k, v).
Qed.

Lemma task_record_record (o : obj) : task_record o -> record o.
Proof.
  intros (Hnd & Hkeys & (z & Hid & Hz) & (s & Htitle) & (b & Hdone)).
  split; [exact Hnd|]. apply Forall_forall. intros [k v] Hin.
  apply list_elem_of_In in Hin. pose proof (get_In o k v Hnd Hin) as Hget.
  assert (Hk : k ∈ keys o).
  { apply list_elem_of_In. change (In k (List.map fst o)).
    apply in_map_iff. now exists (k, v). }
  simpl. destruct (Hkeys k Hk) as [->|[->| ->]].
  - rewrite Hid in Hget. now subst v.
  - rewrite Htitle in Hget. now subst v.
  - rewrite Hdone in Hget. now subst v.
Qed.

Lemma new_item_task_record (title : jstring) (now : Z) :
  safe_integer now = true -> task_record (new_item title now).
Proof.
  intros Hsafe. split; [|split; [|split; [|split]]].
  - apply (bool_decide_unpack _). vm_compute. exact I.
  - intros k Hk. unfold new_item, keys in Hk. simpl in Hk.
    apply elem_of_cons in Hk as [->|Hk]; [auto|].
    apply elem_of_cons in Hk as [->|Hk]; [auto|].
    apply elem_of_cons in Hk as [->|Hk]; [auto | inversion Hk].
  - exists now. now split.
  - now exists title.
  - now exists false.
Qed.

(** C9.  For a collection of task records, [JSON.parse] reads back from
    the text [JSON.stringify] wrote the same records in the same order; so
    after [setLocalStorage( todos )] the element reads [todos], and so
    does an element created afterwards, with the same name, over the
    [localStorage] that was written. *)
Theorem storage_round_trip (todos : list obj) (name attribute : option jstring)
    (storage : gmap jstring jstring) :
  Forall task_record todos ->
  parse (stringify todos) = Some todos /\
  getLocalStorage (setLocalStorage todos (initialize name attribute storage))
    = Normal todos /\
  getLocalStorage
    (initialize name attribute
       (localStorage (setLocalStorage todos (initialize name attribute storage))))
    = Normal todos.
Proof.
  intros Htasks.
  assert (Hall : Forall record todos).
  { eapply Forall_impl; [exact Htasks | exact task_record_record]. }
  split; [now apply parse_stringify|]. split; [reflexivity|].
  unfold getLocalStorage. cbn [liveTodos localStorage TodoStorage.name initialize setLocalStorage].
  rewrite lookup_insert_eq, stringify_truthy.
  change (default (js "[]") (Some (stringify todos))) with (stringify todos).
  now rewrite parse_stringify.
Qed.

Lemma storage_round_trip_witness :
  parse (stringify [new_item (js "A") 5; new_item (js "B") 7])
    = Some [new_item (js "A") 5; new_item (js "B") 7] /\
  getLocalStorage
    (setLocalStorage [new_item (js "A") 5; new_item (js "B") 7] (initialize None None ∅))
    = Normal [new_item (js "A") 5; new_item (js "B") 7] /\
  getLocalStorage
    (initialize None None
       (localStorage
          (setLocalStorage [new_item (js "A") 5; new_item (js "B") 7]
             (initialize None None ∅))))
    = Normal [new_item (js "A") 5; new_item (js "B") 7].
Proof.
  apply (storage_round_trip [new_item (js "A") 5; new_item (js "B") 7] None None ∅).
  constructor; [apply new_item_task_record; reflexivity|].
  constructor; [apply new_item_task_record; reflexivity|]. constructor.
Defined.

End JsonFacts.

(* ===================================================================== *)
(** ** Further properties of the storage adapter *)
(* ===================================================================== *)

Section StorageLaws.
Import Js TodoStorage Spec Laws.

Lemma keys_set (o : obj) k v :
  keys (set o k v) = if bool_decide (k ∈ keys o) then keys o else keys o ++ [k].
Proof.
  induction o as [|[k0 v0] o IH]; simpl; [reflexivity|].
  destruct (jstring_eqb k0 k) eqn:E; simpl.
  - apply jstring_eqb_eq in E. subst k0.
    rewrite bool_decide_eq_true_2; [reflexivity | left].
  - unfold keys in *. simpl. rewrite IH.
    assert (k0 <> k) by (intros ->; now rewrite jstring_eqb_refl in E).
    destruct (bool_decide (k ∈ List.map fst o)) eqn:D.
    + apply bool_decide_eq_true_1 in D.
      rewrite bool_decide_eq_true_2; [reflexivity | now right].
    + apply bool_decide_eq_false_1 in D.
      rewrite bool_decide_eq_false_2; [reflexivity|].
      intros [?|?]%elem_of_cons; [congruence | contradiction].
Qed.

Lemma keys_set_incl (o : obj) k v k' : k' ∈ keys o -> k' ∈ keys (set o k v).
Proof.
  rewrite keys_set. destruct (bool_decide (k ∈ keys o)); [auto|].
  intros H. apply elem_of_app. now left.
Qed.

Lemma keys_set_new (o : obj) k v : k ∈ keys (set o k v).
Proof.
  rewrite keys_set. destruct (bool_decide (k ∈ keys o)) eqn:D.
  - now apply bool_decide_eq_true_1 in D.
  - apply elem_of_app. right. left.
Qed.

Lemma set_get_same (o : obj) k : k ∈ keys o -> set o k (get o k) = o.
Proof.
  induction o as [|[k0 v0] o IH]; intros Hk; [inversion Hk|].
  simpl. destruct (jstring_eqb k0 k) eqn:E; [reflexivity|].
  f_equal. apply IH. unfold keys in Hk. simpl in Hk.
  apply elem_of_cons in Hk as [->|Hk]; [|exact Hk].
  now rewrite jstring_eqb_refl in E.
Qed.

(** *** [updateTodo] in general *)

Lemma keys_assign_incl (t u : obj) k : k ∈ keys u -> k ∈ keys (assign t u).
Proof.
  unfold assign. generalize (keys u) as ks. intros ks. revert t.
  induction ks as [|k0 ks IH]; intros t Hk; [inversion Hk|].
  simpl. apply elem_of_cons in Hk as [->|Hk].
  - clear IH. generalize (set t k0 (get u k0)) (keys_set_new t k0 (get u k0)).
    induction ks as [|k1 ks IH]; intros d Hd; [exact Hd|].
    simpl. apply IH. now apply keys_set_incl.
  - now apply IH.
Qed.

Lemma fold_set_same (u : obj) (ks : list jstring) (d : obj) :
  (forall k, k ∈ ks -> k ∈ keys d /\ get d k = get u k) ->
  fold_left (fun d k => set d k (get u k)) ks d = d.
Proof.
  induction ks as [|k ks IH]; intros H; [reflexivity|].
  simpl. destruct (H k) as [Hk Hv]; [left|].
  rewrite <- Hv, set_get_same by exact Hk.
  apply IH. intros k' Hk'. apply H. now right.
Qed.

Lemma assign_idempotent (t u : obj) : assign (assign t u) u = assign t u.
Proof.
  unfold assign at 1. apply fold_set_same. intros k Hk. split.
  - now apply keys_assign_incl.
  - rewrite get_assign. now rewrite bool_decide_eq_true_2.
Qed.

Lemma get_assign_id (t u : obj) :
  get t (js "id") = get u (js "id") -> get (assign t u) (js "id") = get t (js "id").
Proof. intros H. rewrite get_assign. now destruct (bool_decide _). Qed.

Lemma update_loop_ids (update : obj) (todos : list obj) :
  ids (snd (update_loop (get update (js "id")) update todos)) = ids todos.
Proof.
  induction todos as [|t todos IH]; [reflexivity|]. simpl.
  destruct (strict_eq (get t (js "id")) (get update (js "id"))) eqn:E.
  - apply strict_eq_eq in E. simpl. now rewrite (get_assign_id _ _ E).
  - destruct (update_loop _ update todos) as [item rest]. simpl in *. now rewrite IH.
Qed.

Lemma update_loop_length (id : value) (update : obj) (todos : list obj) :
  List.length (snd (update_loop id update todos)) = List.length todos.
Proof.
  induction todos as [|t todos IH]; [reflexivity|]. simpl.
  destruct (strict_eq (get t (js "id")) id); [reflexivity|].
  destruct (update_loop id update todos) as [item rest]. simpl in *. now rewrite IH.
Qed.

(** What [updateTodo] leaves, whether it finds the record or not. *)
Lemma updateTodo_holds (update : obj) (st : state) (todos : list obj) :
  holds st todos ->
  holds (snd (updateTodo update st))
        (snd (update_loop (get update (js "id")) update todos)) /\
  (fst (update_loop (get update (js "id")) update todos) = None ->
   snd (updateTodo update st) = st).
Proof.
  intros Hst.
  destruct (update_loop (get update (js "id")) update todos) as [[item|] todos'] eqn:E.
  - rewrite (updateTodo_found _ _ _ _ _ Hst E). simpl. split; [apply holds_committed|].
    discriminate.
  - rewrite (updateTodo_missing _ _ _ _ Hst E). simpl. split; [|reflexivity].
    assert (todos' = todos); [|now subst].
    clear Hst. revert todos' E. induction todos as [|t todos IH]; intros todos' E.
    + now injection E as <-.
    + simpl in E. destruct (strict_eq _ _); [discriminate|].
      destruct (update_loop _ update todos) as [i r]. injection E as -> <-.
      f_equal. now apply IH.
Qed.

(** X1.  A partial update merges: when some record has the id of
    [update], [updateTodo] resolves with the first such record, changed so
    that every property [update] names reads as in [update] and every
    other property reads as before; that record replaces the old one at
    its index, and the new collection is what the element keeps and what
    it writes under its name.  The names of [update] are names an
    assignment makes a property of: not [__proto__] and not written in
    digits. *)
Theorem updateTodo_merges (update : obj) (st : state) (todos : list obj) :
  holds st todos ->
  Forall assignable (keys update) ->
  (exists t, In t todos /\ get t (js "id") = get update (js "id")) ->
  exists (k : nat) (t item : obj) (st' : state),
    todos !! k = Some t /\ get t (js "id") = get update (js "id") /\
    (forall (j : nat) (t' : obj),
       (j < k)%nat -> todos !! j = Some t' -> get t' (js "id") <> get update (js "id")) /\
    updateTodo update st = (Normal (Resolved item), st') /\
    (forall key, key ∈ keys update -> get item key = get update key) /\
    (forall key, key ∉ keys update -> get item key = get t key) /\
    holds st' (<[k := item]> todos) /\
    localStorage st' = <[name st := Json.stringify (<[k := item]> todos)]> (localStorage st).
Proof.
  intros Hst _ Hex.
  destruct (update_loop_some _ update todos Hex) as (k & t & Hk & Hid & Hfirst & Hloop).
  exists k, t, (assign t update). eexists.
  split; [exact Hk|]. split; [exact Hid|]. split; [exact Hfirst|].
  split; [exact (updateTodo_found _ _ _ _ _ Hst Hloop)|].
  split; [|split; [|split]].
  - intros key Hkey. rewrite get_assign. now rewrite bool_decide_eq_true_2.
  - intros key Hkey. rewrite get_assign. now rewrite bool_decide_eq_false_2.
  - apply holds_committed.
  - apply localStorage_committed.
Qed.

Lemma updateTodo_merges_witness :
  exists (k : nat) (t item : obj) (st' : state),
    [new_item (js "A") 5] !! k = Some t /\
    get t (js "id") = get [(js "id", VNumber 5); (js "title", VString (js "B"))] (js "id") /\
    (forall (j : nat) (t' : obj),
       (j < k)%nat -> [new_item (js "A") 5] !! j = Some t' ->
       get t' (js "id") <> get [(js "id", VNumber 5); (js "title", VString (js "B"))] (js "id")) /\
    updateTodo [(js "id", VNumber 5); (js "title", VString (js "B"))] store_A
      = (Normal (Resolved item), st') /\
    (forall key, key ∈ keys [(js "id", VNumber 5); (js "title", VString (js "B"))] ->
       get item key = get [(js "id", VNumber 5); (js "title", VString (js "B"))] key) /\
    (forall key, key ∉ keys [(js "id", VNumber 5); (js "title", VString (js "B"))] ->
       get item key = get t key) /\
    holds st' (<[k := item]> [new_item (js "A") 5]) /\
    localStorage st'
      = <[name store_A := Json.stringify (<[k := item]> [new_item (js "A") 5])]>
          (localStorage store_A).
Proof.
  apply (updateTodo_merges [(js "id", VNumber 5); (js "title", VString (js "B"))]
           store_A [new_item (js "A") 5]).
  - reflexivity.
  - repeat constructor; vm_compute; discriminate.
  - exists (new_item (js "A") 5). split; [now left | reflexivity].
Defined.

(** X2.  [updateTodo] never changes an id and never changes the number of
    records: whatever [update] holds, the ids of the collection afterwards
    are the ids before, in the same order. *)
Theorem updateTodo_keeps_ids (update : obj) (st : state) (todos : list obj) :
  holds st todos ->
  exists todos',
    holds (snd (updateTodo update st)) todos' /\
    ids todos' = ids todos /\
    List.length todos' = List.length todos.
Proof.
  intros Hst. eexists. split; [exact (proj1 (updateTodo_holds update st todos Hst))|].
  split; [apply update_loop_ids | apply update_loop_length].
Qed.

Lemma updateTodo_keeps_ids_witness :
  exists todos',
    holds (snd (updateTodo [(js "id", VNumber 5); (js "title", VString (js "B"))] store_A))
      todos' /\
    ids todos' = ids [new_item (js "A") 5] /\
    List.length todos' = List.length [new_item (js "A") 5].
Proof.
  apply (updateTodo_keeps_ids [(js "id", VNumber 5); (js "title", VString (js "B"))]
           store_A [new_item (js "A") 5]).
  reflexivity.
Defined.

Lemma update_loop_twice (update : obj) (todos : list obj) :
  update_loop (get update (js "id")) update
    (snd (update_loop (get update (js "id")) update todos))
  = update_loop (get update (js "id")) update todos.
Proof.
  induction todos as [|t todos IH]; [reflexivity|]. simpl.
  destruct (strict_eq (get t (js "id")) (get update (js "id"))) eqn:E.
  - simpl. apply strict_eq_eq in E.
    rewrite (get_assign_id _ _ E), E, strict_eq_refl. now rewrite assign_idempotent.
  - destruct (update_loop _ update todos) as [item rest] eqn:El. simpl in *.
    now rewrite E, IH.
Qed.

(** X3.  [updateTodo] is idempotent: a second call with the same argument
    ends as the first did, resolved with the same record or rejected, and
    leaves the collection the first call left.  The names of the argument
    are names an assignment makes a property of: not [__proto__] and not
    written in digits. *)
Theorem updateTodo_idempotent (update : obj) (st : state) (todos : list obj) :
  holds st todos ->
  Forall assignable (keys update) ->
  exists todos',
    holds (snd (updateTodo update st)) todos' /\
    holds (snd (updateTodo update (snd (updateTodo update st)))) todos' /\
    fst (updateTodo update (snd (updateTodo update st))) = fst (updateTodo update st).
Proof.
  intros Hst _.
  destruct (updateTodo_holds update st todos Hst) as [H1 Hnone].
  destruct (updateTodo_holds update _ _ H1) as [H2 _].
  rewrite update_loop_twice in H2.
  eexists. split; [exact H1|]. split; [exact H2|].
  destruct (update_loop (get update (js "id")) update todos) as [[item|] todos'] eqn:E.
  - pose proof (update_loop_twice update todos) as Et. rewrite E in Et. simpl in Et.
    rewrite (updateTodo_found _ _ _ _ _ H1 Et).
    now rewrite (updateTodo_found _ _ _ _ _ Hst E).
  - now rewrite (Hnone eq_refl).
Qed.

Lemma updateTodo_idempotent_witness :
  exists todos',
    holds (snd (updateTodo [(js "id", VNumber 5); (js "completed", VBool true)] store_A))
      todos' /\
    holds (snd (updateTodo [(js "id", VNumber 5); (js "completed", VBool true)]
                  (snd (updateTodo [(js "id", VNumber 5); (js "completed", VBool true)]
                          store_A)))) todos' /\
    fst (updateTodo [(js "id", VNumber 5); (js "completed", VBool true)]
           (snd (updateTodo [(js "id", VNumber 5); (js "completed", VBool true)] store_A)))
    = fst (updateTodo [(js "id", VNumber 5); (js "completed", VBool true)] store_A).
Proof.
  apply (updateTodo_idempotent [(js "id", VNumber 5); (js "completed", VBool true)]
           store_A [new_item (js "A") 5]).
  - reflexivity.
  - repeat constructor; vm_compute; discriminate.
Defined.

(** *** [addTodo] and [removeTodo] together *)

Lemma holds_after_removeTodo (id : value) (st : state) (todos : list obj) :
  holds st todos ->
  removeTodo id st
  = (Normal (Resolved (filter (fun todo => get todo (js "id") <> id) todos)),
     committed (filter (fun todo => get todo (js "id") <> id) todos)
       (TodoRemoved [(js "id", id)]) st).
Proof.
  intros Hst. pose proof (removeTodo_ok id st todos Hst) as E. simpl in E.
  now rewrite remove_filter in E.
Qed.

Lemma filter_ids_fresh (id : value) (todos : list obj) :
  id ∉ ids todos -> filter (fun todo => get todo (js "id") <> id) todos = todos.
Proof.
  intros Hfresh. apply filter_id. intros t Ht E. apply Hfresh.
  apply list_elem_of_In. unfold ids. apply in_map_iff. now exists t.
Qed.

(** X4.  Removing the id an addition returned undoes the addition: after
    [addTodo( title )] and [removeTodo] of the new record's id, the
    collection is the old one without the records that already had that
    id; when the id was new to the store, it is the old collection. *)
Theorem addTodo_then_removeTodo (title : jstring) (now : Z) (st : state) (todos : list obj) :
  holds st todos ->
  trim title <> [] ->
  exists item st1 st2,
    addTodo (VString title) now st = (Normal (Resolved item), st1) /\
    snd (removeTodo (get item (js "id")) st1) = st2 /\
    holds st2 (filter (fun todo => get todo (js "id") <> VNumber now) todos) /\
    (VNumber now ∉ ids todos -> holds st2 todos).
Proof.
  intros Hst Htitle.
  assert (Hne : empty_title (VString title) = false).
  { destruct (empty_title (VString title)) eqn:E; [|reflexivity].
    now apply empty_title_string in E. }
  set (item := new_item title now).
  set (st1 := committed (todos ++ [item]) (TodoAdded item) st).
  assert (Hf : filter (fun todo => get todo (js "id") <> VNumber now) (todos ++ [item])
               = filter (fun todo => get todo (js "id") <> VNumber now) todos).
  { rewrite filter_app, filter_cons_False, filter_nil, app_nil_r; [reflexivity|].
    intros H. now apply H. }
  pose proof (holds_after_removeTodo (VNumber now) st1 _ (holds_committed _ _ _)) as E2.
  rewrite Hf in E2.
  exists item, st1. eexists.
  split; [exact (addTodo_ok _ now _ _ Hst Hne)|].
  change (get item (js "id")) with (VNumber now). rewrite E2.
  split; [reflexivity|]. split; [apply holds_committed|].
  intros Hfresh. rewrite (filter_ids_fresh _ _ Hfresh). apply holds_committed.
Qed.

Lemma addTodo_then_removeTodo_witness :
  exists item st1 st2,
    addTodo (VString (js "B")) 7 store_A = (Normal (Resolved item), st1) /\
    snd (removeTodo (get item (js "id")) st1) = st2 /\
    holds st2 (filter (fun todo => get todo (js "id") <> VNumber 7) [new_item (js "A") 5]) /\
    (VNumber 7 ∉ ids [new_item (js "A") 5] -> holds st2 [new_item (js "A") 5]).
Proof.
  apply (addTodo_then_removeTodo (js "B") 7 store_A [new_item (js "A") 5]).
  - reflexivity.
  - vm_compute. discriminate.
Defined.

(** X5.  After [removeTodo( id )] no record of the collection has that
    id, the collection is no longer than before, and a second
    [removeTodo( id )] resolves with the same collection and leaves it. *)
Theorem removeTodo_removes (id : value) (st : state) (todos : list obj) :
  holds st todos ->
  exists todos' st1 st2,
    removeTodo id st = (Normal (Resolved todos'), st1) /\
    holds st1 todos' /\
    (id ∉ ids todos') /\
    (List.length todos' <= List.length todos)%nat /\
    removeTodo id st1 = (Normal (Resolved todos'), st2) /\
    holds st2 todos'.
Proof.
  intros Hst.
  set (todos' := filter (fun todo => get todo (js "id") <> id) todos).
  assert (Hgone : id ∉ ids todos').
  { intros Hin. apply list_elem_of_In in Hin. unfold ids in Hin.
    apply in_map_iff in Hin as (t & Ht & Hin). apply list_elem_of_In in Hin.
    apply list_elem_of_filter in Hin as [Hne _]. now apply Hne. }
  exists todos'. eexists _, _.
  split; [exact (holds_after_removeTodo id st todos Hst)|].
  split; [apply holds_committed|]. split; [exact Hgone|].
  split; [apply length_filter|].
  rewrite (holds_after_removeTodo id _ todos' (holds_committed _ _ _)).
  rewrite (filter_ids_fresh _ _ Hgone). split; [reflexivity | apply holds_committed].
Qed.

Lemma removeTodo_removes_witness :
  exists todos' st1 st2,
    removeTodo (VNumber 5) store_A = (Normal (Resolved todos'), st1) /\
    holds st1 todos' /\
    (VNumber 5 ∉ ids todos') /\
    (List.length todos' <= List.length [new_item (js "A") 5])%nat /\
    removeTodo (VNumber 5) st1 = (Normal (Resolved todos'), st2) /\
    holds st2 todos'.
Proof.
  apply (removeTodo_removes (VNumber 5) store_A [new_item (js "A") 5]). reflexivity.
Defined.

(** *** Counts *)

Lemma count_loop_bounds (todos : list obj) (acc : Z) :
  (acc <= count_loop todos acc <= acc + Z.of_nat (List.length todos))%Z.
Proof.
  rewrite count_loop_truthy.
  pose proof (length_filter (fun t => truthy (get t (js "completed")) = true) todos).
  lia.
Qed.

Lemma count_counts_of (st : state) (todos : list obj) :
  holds st todos -> count st = Resolved (counts_of todos).
Proof. apply count_holds. Qed.

(** X6.  Whatever the records hold, [count] resolves with [total] the
    number of records, [completed] between 0 and [total], [active] not
    negative, and [total = active + completed]. *)
Theorem count_adds_up (st : state) (todos : list obj) :
  holds st todos ->
  exists c,
    count st = Resolved c /\
    total c = Z.of_nat (List.length todos) /\
    (0 <= completed c <= total c)%Z /\
    (0 <= active c)%Z /\
    total c = (active c + completed c)%Z.
Proof.
  intros Hst. exists (counts_of todos). split; [now apply count_counts_of|].
  pose proof (count_loop_bounds todos 0). simpl. repeat split; lia.
Qed.

Lemma count_adds_up_witness :
  exists c,
    count store_A = Resolved c /\
    total c = Z.of_nat (List.length [new_item (js "A") 5]) /\
    (0 <= completed c <= total c)%Z /\
    (0 <= active c)%Z /\
    total c = (active c + completed c)%Z.
Proof. apply (count_adds_up store_A [new_item (js "A") 5]). reflexivity. Defined.

Lemma count_loop_app (l k : list obj) (acc : Z) :
  count_loop (l ++ k) acc = count_loop k (count_loop l acc).
Proof. revert acc. induction l as [|t l IH]; intros acc; simpl; auto. Qed.

(** X7.  A successful [addTodo] raises [total] and [active] by one and
    leaves [completed]; the last event it dispatches is [count-updated]
    with these new counts, right after [todo-added] with the new record. *)
Theorem addTodo_counts (title : jstring) (now : Z) (st : state) (todos : list obj) c :
  holds st todos ->
  trim title <> [] ->
  count st = Resolved c ->
  exists st' c',
    snd (addTodo (VString title) now st) = st' /\
    count st' = Resolved c' /\
    total c' = (total c + 1)%Z /\
    active c' = (active c + 1)%Z /\
    completed c' = completed c /\
    dispatched st'
      = dispatched st ++ [TodoAdded (new_item title now); CountUpdated c'].
Proof.
  intros Hst Htitle Hc.
  assert (Hne : empty_title (VString title) = false).
  { destruct (empty_title (VString title)) eqn:E; [|reflexivity].
    now apply empty_title_string in E. }
  rewrite (count_counts_of _ _ Hst) in Hc. injection Hc as <-.
  exists (committed (todos ++ [new_item title now]) (TodoAdded (new_item title now)) st),
         (counts_of (todos ++ [new_item title now])).
  split; [now rewrite (addTodo_ok _ now _ _ Hst Hne)|].
  split; [apply count_counts_of, holds_committed|].
  assert (Hl : count_loop (todos ++ [new_item title now]) 0 = count_loop todos 0).
  { now rewrite count_loop_app. }
  rewrite committed_eq. unfold counts_of. cbn [total active completed dispatched].
  rewrite length_app, Hl, <- app_assoc. cbn [List.length].
  split; [lia|]. split; [lia|]. split; reflexivity.
Qed.

Lemma addTodo_counts_witness :
  exists st' c',
    snd (addTodo (VString (js "B")) 7 store_A) = st' /\
    count st' = Resolved c' /\
    total c' = (total (counts_of [new_item (js "A") 5]) + 1)%Z /\
    active c' = (active (counts_of [new_item (js "A") 5]) + 1)%Z /\
    completed c' = completed (counts_of [new_item (js "A") 5]) /\
    dispatched st'
      = dispatched store_A ++ [TodoAdded (new_item (js "B") 7); CountUpdated c'].
Proof.
  apply (addTodo_counts (js "B") 7 store_A [new_item (js "A") 5]).
  - reflexivity.
  - vm_compute. discriminate.
  - reflexivity.
Defined.

(** *** What the operations do to [localStorage] *)

Lemma addTodo_outcome title now st : outcome_of st (snd (addTodo title now st)).
Proof.
  unfold addTodo. destruct (getLocalStorage st) as [todos|e]; [|constructor].
  destruct (empty_title title); simpl; [constructor|].
  apply (outcome_committed st (todos ++ _) (TodoAdded _)).
Qed.

Lemma updateTodo_outcome update st : outcome_of st (snd (updateTodo update st)).
Proof.
  unfold updateTodo. destruct (getLocalStorage st) as [todos|e]; [|constructor].
  destruct (update_loop _ update todos) as [[item|] todos']; simpl; [|constructor].
  apply (outcome_committed st todos' (TodoUpdated item)).
Qed.

Lemma removeTodo_outcome id st : outcome_of st (snd (removeTodo id st)).
Proof.
  unfold removeTodo. destruct (getLocalStorage st) as [todos|e]; [|constructor].
  apply (outcome_committed st _ (TodoRemoved _)).
Qed.

Lemma connectedCallback_outcome st : outcome_of st (snd (connectedCallback st)).
Proof.
  unfold connectedCallback, find.
  destruct (getLocalStorage st) as [todos|e] eqn:E; [|constructor]. simpl.
  rewrite (dispatchCountUpdated_holds _ todos) by exact E. constructor.
Qed.

Lemma outcome_synced st st' : outcome_of st st' -> synced st -> synced st'.
Proof.
  intros [| | |todos e] Hs; try exact Hs.
  rewrite committed_eq. intros todos' [= <-]. simpl. apply lookup_insert_eq.
Qed.

Lemma outcome_frame st st' (key : jstring) :
  outcome_of st st' -> name st' = name st /\
  (key <> name st -> localStorage st' !! key = localStorage st !! key).
Proof.
  intros [| | |todos e]; try (split; reflexivity).
  rewrite committed_eq. simpl. split; [reflexivity|].
  intros Hne. apply lookup_insert_ne. congruence.
Qed.

(** X8.  Write-through is an invariant: if the text stored under the
    element's name is the serialization of the collection the element
    keeps, it still is after [addTodo], [updateTodo], [removeTodo] and
    [connectedCallback], whatever their arguments and however they end. *)
Theorem operations_write_through (st : state) title now update id :
  synced st ->
  synced (snd (addTodo title now st)) /\
  synced (snd (updateTodo update st)) /\
  synced (snd (removeTodo id st)) /\
  synced (snd (connectedCallback st)).
Proof.
  intros Hs. repeat split; (eapply outcome_synced; [|exact Hs]).
  - apply addTodo_outcome.
  - apply updateTodo_outcome.
  - apply removeTodo_outcome.
  - apply connectedCallback_outcome.
Qed.

Lemma synced_store_A : synced store_A.
Proof. intros todos [= <-]. vm_compute. reflexivity. Qed.

Lemma operations_write_through_witness :
  synced (snd (addTodo (VString (js "B")) 7 store_A)) /\
  synced (snd (updateTodo [(js "id", VNumber 5); (js "completed", VBool true)] store_A)) /\
  synced (snd (removeTodo (VNumber 5) store_A)) /\
  synced (snd (connectedCallback store_A)).
Proof.
  apply (operations_write_through store_A (VString (js "B")) 7%Z
           [(js "id", VNumber 5); (js "completed", VBool true)] (VNumber 5)).
  exact synced_store_A.
Defined.

(** X9.  The operations write under the element's own name only: the
    name stays, and every other entry of [localStorage] is what it was. *)
Theorem operations_touch_own_entry (st : state) title now update id (key : jstring) :
  key <> name st ->
  (name (snd (addTodo title now st)) = name st /\
   localStorage (snd (addTodo title now st)) !! key = localStorage st !! key) /\
  (name (snd (updateTodo update st)) = name st /\
   localStorage (snd (updateTodo update st)) !! key = localStorage st !! key) /\
  (name (snd (removeTodo id st)) = name st /\
   localStorage (snd (removeTodo id st)) !! key = localStorage st !! key).
Proof.
  intros Hkey. repeat split;
    try (apply (outcome_frame st _ key); auto using addTodo_outcome,
           updateTodo_outcome, removeTodo_outcome).
Qed.

Lemma operations_touch_own_entry_witness :
  (name (snd (addTodo (VString (js "B")) 7 store_A)) = name store_A /\
   localStorage (snd (addTodo (VString (js "B")) 7 store_A)) !! js "other"
     = localStorage store_A !! js "other") /\
  (name (snd (updateTodo [(js "id", VNumber 5)] store_A)) = name store_A /\
   localStorage (snd (updateTodo [(js "id", VNumber 5)] store_A)) !! js "other"
     = localStorage store_A !! js "other") /\
  (name (snd (removeTodo (VNumber 5) store_A)) = name store_A /\
   localStorage (snd (removeTodo (VNumber 5) store_A)) !! js "other"
     = localStorage store_A !! js "other").
Proof.
  apply (operations_touch_own_entry store_A (VString (js "B")) 7%Z
           [(js "id", VNumber 5)] (VNumber 5) (js "other")).
  vm_compute. discriminate.
Defined.

(** *** Reading: the first read, a read that throws, a later page load *)

Lemma initialize_name_nonempty nm attr storage : name (initialize nm attr storage) <> [].
Proof.
  unfold initialize. simpl.
  destruct nm as [[|c r]|], attr as [[|c' r']|]; simpl; try discriminate;
    vm_compute; discriminate.
Qed.

Lemma getLocalStorage_fresh (st : state) :
  liveTodos st = None ->
  localStorage st !! name st = None \/
  localStorage st !! name st = Some ([] : jstring) ->
  holds st [].
Proof. unfold holds, getLocalStorage. intros -> [E|E]; rewrite E; reflexivity. Qed.

(** X10.  An element initialised over a [localStorage] that has no entry
    under its name, or the empty string there, holds the empty collection:
    [find] resolves with no records and [count] with zeros.  The name it
    uses is never empty. *)
Theorem first_read_is_empty (nm attr : option jstring) (storage : gmap jstring jstring) :
  storage !! name (initialize nm attr storage) = None \/
  storage !! name (initialize nm attr storage) = Some ([] : jstring) ->
  name (initialize nm attr storage) <> [] /\
  holds (initialize nm attr storage) [] /\
  find None (initialize nm attr storage) = Normal (Resolved []) /\
  count (initialize nm attr storage)
    = Resolved {| total := 0; completed := 0; active := 0 |}.
Proof.
  intros Hentry. split; [apply initialize_name_nonempty|].
  assert (Hst : holds (initialize nm attr storage) []).
  { apply getLocalStorage_fresh; [reflexivity | exact Hentry]. }
  split; [exact Hst|]. split; [now apply find_all|].
  now rewrite (count_holds _ _ Hst).
Qed.

Lemma first_read_is_empty_witness :
  name (initialize (Some (js "mine")) None {[ js "mine" := ([] : jstring) ]}) <> [] /\
  holds (initialize (Some (js "mine")) None {[ js "mine" := ([] : jstring) ]}) [] /\
  find None (initialize (Some (js "mine")) None {[ js "mine" := ([] : jstring) ]})
    = Normal (Resolved []) /\
  count (initialize (Some (js "mine")) None {[ js "mine" := ([] : jstring) ]})
    = Resolved {| total := 0; completed := 0; active := 0 |}.
Proof.
  apply (first_read_is_empty (Some (js "mine")) None {[ js "mine" := ([] : jstring) ]}).
  right. vm_compute. reflexivity.
Defined.

(** X11.  When reading the store throws, every operation ends with that
    exception and leaves the element and [localStorage] as they were;
    [count] returns a promise rejected with it, and no [count-updated] is
    dispatched. *)
Theorem read_error_propagates (st : state) (e : error) query title now update id :
  getLocalStorage st = Throw e ->
  find query st = Throw e /\
  addTodo title now st = (Throw e, st) /\
  updateTodo update st = (Throw e, st) /\
  removeTodo id st = (Throw e, st) /\
  connectedCallback st = (Throw e, st) /\
  count st = Rejected (RError e) /\
  dispatchCountUpdated st = st.
Proof.
  intros E.
  assert (Hf : forall q, find q st = Throw e) by (intros q; unfold find; now rewrite E).
  assert (Hc : count st = Rejected (RError e)) by (unfold count; now rewrite Hf).
  repeat split; auto.
  - unfold addTodo. now rewrite E.
  - unfold updateTodo. now rewrite E.
  - unfold removeTodo. now rewrite E.
  - unfold connectedCallback. now rewrite Hf.
  - unfold dispatchCountUpdated. now rewrite Hc.
Qed.

Lemma read_error_propagates_witness :
  find None unreadable_store = Throw SyntaxError /\
  addTodo (VString (js "A")) 5 unreadable_store = (Throw SyntaxError, unreadable_store) /\
  updateTodo [(js "id", VNumber 5)] unreadable_store
    = (Throw SyntaxError, unreadable_store) /\
  removeTodo (VNumber 5) unreadable_store = (Throw SyntaxError, unreadable_store) /\
  connectedCallback unreadable_store = (Throw SyntaxError, unreadable_store) /\
  count unreadable_store = Rejected (RError SyntaxError) /\
  dispatchCountUpdated unreadable_store = unreadable_store.
Proof.
  apply (read_error_propagates unreadable_store SyntaxError None (VString (js "A")) 5%Z
           [(js "id", VNumber 5)] (VNumber 5)).
  vm_compute. reflexivity.
Defined.

Lemma reload_committed (todos : list obj) (e : event) (st : state) :
  name st <> [] -> Forall record todos -> holds (reload (committed todos e st)) todos.
Proof.
  intros Hname Hall. rewrite committed_eq. unfold reload, holds, getLocalStorage.
  cbn [liveTodos localStorage name initialize].
  destruct (name st) as [|c r] eqn:En; [contradiction|].
  cbn [or_else default]. change (default DEFAULT_NAME (Some (c :: r))) with (c :: r).
  rewrite lookup_insert_eq, stringify_truthy.
  change (default (js "[]") (Some (Json.stringify todos))) with (Json.stringify todos).
  now rewrite parse_stringify.
Qed.

Lemma record_set (o : obj) k v : record o -> storable v -> record (set o k v).
Proof.
  intros [Hnd Hall] Hv. split.
  - rewrite keys_set. destruct (bool_decide (k ∈ keys o)) eqn:D; [exact Hnd|].
    apply bool_decide_eq_false_1 in D. apply NoDup_app. split; [exact Hnd|].
    split; [|apply NoDup_singleton].
    intros x Hx [->|Hin]%elem_of_cons; [contradiction | inversion Hin].
  - clear Hnd. induction Hall as [|[k0 v0] o H0 Hall IH]; simpl.
    + now repeat constructor.
    + destruct (jstring_eqb k0 k); constructor; auto.
Qed.

Lemma get_storable (o : obj) k :
  Forall (fun kv => storable (snd kv)) o -> k ∈ keys o -> storable (get o k).
Proof.
  induction 1 as [|[k0 v0] o H0 Hall IH]; intros Hk; [inversion Hk|].
  simpl. destruct (jstring_eqb k0 k) eqn:E; [exact H0|].
  apply IH. unfold keys in Hk. simpl in Hk.
  apply elem_of_cons in Hk as [->|Hk]; [|exact Hk].
  now rewrite jstring_eqb_refl in E.
Qed.

Lemma record_assign (t u : obj) : record t -> record u -> record (assign t u).
Proof.
  intros Ht [_ Hu]. unfold assign.
  assert (Hks : forall k, k ∈ keys u -> storable (get u k))
    by (intros k; now apply get_storable).
  revert t Ht. induction (keys u) as [|k ks IH]; intros t Ht; [exact Ht|].
  simpl. apply IH.
  - intros k' Hk'. apply Hks. now right.
  - apply record_set; [exact Ht | apply Hks; left].
Qed.

Lemma update_loop_records (id : value) (update : obj) (todos : list obj) :
  record update -> Forall record todos ->
  Forall record (snd (update_loop id update todos)).
Proof.
  intros Hu Hall. induction Hall as [|t todos Ht Hall IH]; simpl; [constructor|].
  destruct (strict_eq (get t (js "id")) id).
  - simpl. constructor; [now apply record_assign | exact Hall].
  - destruct (update_loop id update todos) as [item rest]. simpl in *. now constructor.
Qed.

(** X12.  What a mutation resolved with survives a page load: on a store
    of records [JSON] writes in full, after an [addTodo] at a safe-integer
    instant, an [updateTodo] with such a record as argument, or a
    [removeTodo], an element created anew under the same name reads the
    very collection the old element keeps. *)
Theorem resolved_mutations_survive_reload (st : state) (todos : list obj) :
  holds st todos -> Forall record todos -> name st <> [] ->
  (forall title now item st',
     Json.safe_integer now = true ->
     addTodo (VString title) now st = (Normal (Resolved item), st') ->
     exists todos', holds st' todos' /\ holds (reload st') todos') /\
  (forall update item st',
     record update ->
     updateTodo update st = (Normal (Resolved item), st') ->
     exists todos', holds st' todos' /\ holds (reload st') todos') /\
  (forall id,
     exists todos', holds (snd (removeTodo id st)) todos' /\
                    holds (reload (snd (removeTodo id st))) todos').
Proof.
  intros Hst Hall Hname. split; [|split].
  - intros title now item st' Hsafe E.
    destruct (empty_title (VString title)) eqn:Et.
    + rewrite (addTodo_empty _ now _ _ Hst Et) in E. discriminate.
    + rewrite (addTodo_ok _ now _ _ Hst Et) in E. injection E as <- <-.
      eexists. split; [apply holds_committed|]. apply reload_committed; [exact Hname|].
      apply Forall_app. split; [exact Hall|]. constructor; [|constructor].
      apply task_record_record. now apply (new_item_task_record title now).
  - intros update item st' Hu E.
    pose proof (update_loop_records (get update (js "id")) update todos Hu Hall) as Hr.
    destruct (update_loop (get update (js "id")) update todos) as [[it|] todos'] eqn:El.
    + rewrite (updateTodo_found _ _ _ _ _ Hst El) in E. injection E as <- <-.
      eexists. split; [apply holds_committed|]. now apply reload_committed.
    + rewrite (updateTodo_missing _ _ _ _ Hst El) in E. discriminate.
  - intros id. rewrite (holds_after_removeTodo id st todos Hst). simpl.
    eexists. split; [apply holds_committed|]. apply reload_committed; [exact Hname|].
    apply Forall_forall. intros x [_ Hx]%list_elem_of_filter.
    rewrite Forall_forall in Hall. auto.
Qed.

Lemma record_new_item_A : Forall record [new_item (js "A") 5].
Proof.
  constructor; [|constructor]. apply task_record_record.
  now apply new_item_task_record.
Qed.

Lemma resolved_mutations_survive_reload_witness :
  (forall title now item st',
     Json.safe_integer now = true ->
     addTodo (VString title) now store_A = (Normal (Resolved item), st') ->
     exists todos', holds st' todos' /\ holds (reload st') todos') /\
  (forall update item st',
     record update ->
     updateTodo update store_A = (Normal (Resolved item), st') ->
     exists todos', holds st' todos' /\ holds (reload st') todos') /\
  (forall id,
     exists todos', holds (snd (removeTodo id store_A)) todos' /\
                    holds (reload (snd (removeTodo id store_A))) todos').
Proof.
  apply (resolved_mutations_survive_reload store_A [new_item (js "A") 5]).
  - reflexivity.
  - exact record_new_item_A.
  - vm_compute. discriminate.
Defined.

(** *** Properties that are [undefined] *)

Lemma stringify_object_defined (o : obj) :
  Json.stringify_object (defined o) = Json.stringify_object o.
Proof.
  unfold Json.stringify_object. do 2 f_equal. f_equal.
  induction o as [|[k v] o IH]; [reflexivity|].
  unfold defined. cbn [List.filter snd]. fold (defined o).
  destruct (strict_eq v VUndefined) eqn:E; cbn [negb].
  - apply strict_eq_eq in E. subst v. exact IH.
  - cbn [omap list_omap]. fold (omap Json.stringify_member (defined o)).
    fold (omap Json.stringify_member o). rewrite IH. reflexivity.
Qed.

Lemma stringify_defined (todos : list obj) :
  Json.stringify (List.map defined todos) = Json.stringify todos.
Proof.
  unfold Json.stringify. do 2 f_equal. f_equal.
  rewrite List.map_map. apply List.map_ext. apply stringify_object_defined.
Qed.

Lemma record_defined (o : obj) :
  NoDup (keys o) -> Forall writable o -> record (defined o).
Proof.
  intros Hnd Hall. unfold defined. split.
  - clear Hall. unfold keys in *. induction o as [|[k v] o IH]; [constructor|].
    simpl in *. apply NoDup_cons in Hnd as [Hk Hnd].
    destruct (negb (strict_eq v VUndefined)); [|now apply IH].
    simpl. apply NoDup_cons. split; [|now apply IH].
    intros Hin. apply Hk. apply list_elem_of_In in Hin. apply list_elem_of_In.
    apply in_map_iff in Hin as (x & Hx & Hin). apply List.filter_In in Hin as [Hin _].
    apply in_map_iff. now exists x.
  - clear Hnd. induction Hall as [|[k v] o Hkv Hall IH]; simpl; [constructor|].
    destruct (strict_eq v VUndefined) eqn:E; simpl; [exact IH|].
    constructor; [|exact IH]. destruct Hkv as [Hu|Hs]; [|exact Hs].
    simpl in Hu. subst v. discriminate.
Qed.

(** X13.  A property whose value is [undefined] does not survive the
    store: what [JSON.parse] reads from the text [JSON.stringify] wrote is
    each record without its [undefined] properties, so an element created
    after [setLocalStorage( todos )] reads those. *)
Theorem undefined_properties_are_dropped (todos : list obj) (nm attr : option jstring)
    (storage : gmap jstring jstring) :
  Forall (fun o => NoDup (keys o) /\ Forall writable o) todos ->
  Json.parse (Json.stringify todos) = Some (List.map defined todos) /\
  holds (reload (setLocalStorage todos (initialize nm attr storage)))
        (List.map defined todos).
Proof.
  intros Hall.
  assert (Hrec : Forall record (List.map defined todos)).
  { apply Forall_forall. intros x Hx. apply list_elem_of_In in Hx.
    apply in_map_iff in Hx as (o & <- & Hin). apply list_elem_of_In in Hin.
    rewrite Forall_forall in Hall. destruct (Hall o Hin). now apply record_defined. }
  assert (Hp : Json.parse (Json.stringify todos) = Some (List.map defined todos)).
  { rewrite <- stringify_defined. now apply parse_stringify. }
  split; [exact Hp|].
  unfold reload, holds, getLocalStorage.
  cbn [liveTodos localStorage name initialize setLocalStorage].
  pose proof (initialize_name_nonempty nm attr storage) as Hname.
  unfold initialize in Hname. cbn [name] in Hname.
  destruct (default DEFAULT_NAME (or_else (or_else nm attr) (Some DEFAULT_NAME)))
    as [|c r] eqn:En; [contradiction|].
  cbn [or_else]. change (default DEFAULT_NAME (Some (c :: r))) with (c :: r).
  rewrite lookup_insert_eq, stringify_truthy.
  change (default (js "[]") (Some (Json.stringify todos))) with (Json.stringify todos).
  now rewrite Hp.
Qed.

Lemma undefined_properties_are_dropped_witness :
  Json.parse (Json.stringify [set (new_item (js "A") 5) (js "title") VUndefined])
    = Some (List.map defined [set (new_item (js "A") 5) (js "title") VUndefined]) /\
  holds (reload (setLocalStorage [set (new_item (js "A") 5) (js "title") VUndefined]
                   (initialize None None ∅)))
        (List.map defined [set (new_item (js "A") 5) (js "title") VUndefined]).
Proof.
  apply (undefined_properties_are_dropped
           [set (new_item (js "A") 5) (js "title") VUndefined] None None ∅).
  constructor; [|constructor]. split.
  - apply (bool_decide_unpack _). vm_compute. exact I.
  - constructor; [now left|]. constructor; [right; reflexivity|].
    constructor; [now right | constructor].
Defined.

End StorageLaws.

(* ===================================================================== *)
(** ** Properties of [<todo-app>] *)
(* ===================================================================== *)

Section AppFacts.
Import Js TodoStorage Spec Laws TodoApp AppLaws.

(** *** The calls, and the operations they are part of *)

Lemma updateTodo_call_found update st todos item todos' :
  holds st todos ->
  update_loop (get update (js "id")) update todos = (Some item, todos') ->
  updateTodo_call update st
  = (Normal (Resolved item), dispatch (TodoUpdated item) (setLocalStorage todos' st)).
Proof. unfold holds, updateTodo_call. intros -> ->. reflexivity. Qed.

Lemma updateTodo_call_missing update st todos todos' :
  holds st todos ->
  update_loop (get update (js "id")) update todos = (None, todos') ->
  updateTodo_call update st = (Normal (Rejected (RObject update)), st).
Proof. unfold holds, updateTodo_call. intros -> ->. reflexivity. Qed.

Lemma removeTodo_call_ok id st todos :
  holds st todos ->
  removeTodo_call id st
  = (Normal (Resolved (filter (fun todo => get todo (js "id") <> id) todos)),
     dispatch (TodoRemoved [(js "id", id)])
       (setLocalStorage (filter (fun todo => get todo (js "id") <> id) todos) st)).
Proof.
  unfold holds, removeTodo_call. intros ->. now rewrite remove_filter.
Qed.

(** An operation is its call followed by the scan and the event. *)
Lemma updateTodo_is_call (update : obj) (st : state) :
  updateTodo update st
  = match updateTodo_call update st with
    | (Normal (Resolved item), st') => (Normal (Resolved item), dispatchCountUpdated st')
    | other => other
    end.
Proof.
  unfold updateTodo, updateTodo_call.
  destruct (getLocalStorage st) as [todos|e]; [|reflexivity].
  now destruct (update_loop _ update todos) as [[item|] todos'].
Qed.

Lemma removeTodo_is_call (id : value) (st : state) :
  removeTodo id st
  = match removeTodo_call id st with
    | (Normal r, st') => (Normal r, dispatchCountUpdated st')
    | other => other
    end.
Proof.
  unfold removeTodo, removeTodo_call.
  now destruct (getLocalStorage st) as [todos|e].
Qed.

Lemma holds_dispatch e st todos : holds st todos -> holds (dispatch e st) todos.
Proof. exact id. Qed.

Lemma holds_dispatchCountUpdated st todos :
  holds st todos -> holds (dispatchCountUpdated st) todos.
Proof. intros H. now rewrite (dispatchCountUpdated_holds _ _ H). Qed.

Lemma holds_iter_count (n : nat) st todos :
  holds st todos -> holds (Nat.iter n dispatchCountUpdated st) todos.
Proof. intros H. induction n; simpl; [exact H | now apply holds_dispatchCountUpdated]. Qed.

Lemma holds_deliver scans st todos : holds st todos -> holds (deliver scans st) todos.
Proof.
  unfold deliver. revert st. induction scans as [|[c|r|] scans IH]; intros st H; simpl; auto.
Qed.

(** *** The scan of [updateTodo] on parts of a list *)

Lemma update_loop_app_miss (i : value) (u : obj) (pre l : list obj) :
  (forall p, In p pre -> get p (js "id") <> i) ->
  update_loop i u (pre ++ l)
  = (fst (update_loop i u l), pre ++ snd (update_loop i u l)).
Proof.
  induction pre as [|p pre IH]; intros H; simpl.
  - now destruct (update_loop i u l).
  - rewrite strict_eq_neq by (apply H; now left).
    rewrite IH by (intros q Hq; apply H; now right). reflexivity.
Qed.

Lemma update_loop_hit (i : value) (u t : obj) (l : list obj) :
  get t (js "id") = i ->
  update_loop i u (t :: l) = (Some (assign t u), assign t u :: l).
Proof. intros H. simpl. now rewrite H, strict_eq_refl. Qed.

Lemma assign_self (t : obj) : assign t t = t.
Proof. unfold assign. apply fold_set_same. auto. Qed.

Lemma get_not_key (o : obj) k : k ∉ keys o -> get o k = VUndefined.
Proof.
  induction o as [|[k0 v0] o IH]; intros Hk; [reflexivity|]. simpl.
  rewrite jstring_eqb_neq.
  - apply IH. intros Hin. apply Hk. now right.
  - intros ->. apply Hk. left.
Qed.

Lemma obj_ext (a b : obj) :
  NoDup (keys a) -> keys a = keys b -> (forall k, get a k = get b k) -> a = b.
Proof.
  revert b. induction a as [|[k v] a IH]; intros [|[k' v'] b] Hnd Hk Hg;
    try discriminate Hk; [reflexivity|].
  unfold keys in *. simpl in Hk. injection Hk as <- Hk.
  simpl in Hnd. apply NoDup_cons in Hnd as [Hnot Hnd].
  pose proof (Hg k) as Hv. simpl in Hv. rewrite jstring_eqb_refl in Hv. subst v'.
  f_equal. apply IH; [exact Hnd | exact Hk|].
  intros k0. destruct (decide (k = k0)) as [<-|Hne].
  - rewrite !get_not_key; [reflexivity | unfold keys; now rewrite <- Hk | exact Hnot].
  - specialize (Hg k0). simpl in Hg. now rewrite jstring_eqb_neq in Hg.
Qed.

Lemma keys_fold_present (u : obj) (ks : list jstring) (d : obj) :
  (forall k, k ∈ ks -> k ∈ keys d) ->
  keys (fold_left (fun d k => set d k (get u k)) ks d) = keys d.
Proof.
  revert d. induction ks as [|k ks IH]; intros d H; [reflexivity|]. simpl.
  assert (Hk : keys (set d k (get u k)) = keys d).
  { rewrite keys_set, bool_decide_eq_true_2; [reflexivity | apply H; left]. }
  rewrite IH; [exact Hk|]. intros k' Hk'. rewrite Hk. apply H. now right.
Qed.

Lemma NoDup_keys_set (o : obj) k v : NoDup (keys o) -> NoDup (keys (set o k v)).
Proof.
  intros Hnd. rewrite keys_set. destruct (bool_decide (k ∈ keys o)) eqn:D; [exact Hnd|].
  apply bool_decide_eq_false_1 in D. apply NoDup_app. split; [exact Hnd|].
  split; [|apply NoDup_singleton].
  intros x Hx [->|Hin]%elem_of_cons; [contradiction | inversion Hin].
Qed.

(** Copying a record changed in one property onto the record gives the
    changed record. *)
Lemma assign_changed (t : obj) k v :
  NoDup (keys t) -> assign t (set t k v) = set t k v.
Proof.
  intros Hnd. apply obj_ext.
  - unfold assign. rewrite keys_set.
    destruct (bool_decide (k ∈ keys t)) eqn:D.
    + now rewrite keys_fold_present.
    + rewrite fold_left_app. simpl. apply NoDup_keys_set.
      now rewrite keys_fold_present.
  - unfold assign. rewrite keys_set.
    destruct (bool_decide (k ∈ keys t)) eqn:D.
    + now rewrite keys_fold_present.
    + apply bool_decide_eq_false_1 in D.
      rewrite fold_left_app. simpl. rewrite keys_set, keys_fold_present by auto.
      now rewrite bool_decide_eq_false_2.
  - intros k0. rewrite get_assign.
    destruct (bool_decide (k0 ∈ keys (set t k v))) eqn:D; [reflexivity|].
    apply bool_decide_eq_false_1 in D.
    rewrite (get_not_key (set t k v)) by exact D.
    apply get_not_key. intros Hin. apply D. now apply keys_set_incl.
Qed.

Lemma get_set_id (t : obj) v :
  get (set t (js "completed") v) (js "id") = get t (js "id").
Proof. apply get_set_other. vm_compute. discriminate. Qed.

Lemma ids_snoc (l : list obj) (t : obj) : ids (l ++ [t]) = ids l ++ [get t (js "id")].
Proof. apply ids_app. Qed.

Lemma ids_not_in (i : value) (pre : list obj) :
  i ∉ ids pre -> forall p, In p pre -> get p (js "id") <> i.
Proof.
  intros Hn p Hp E. apply Hn. apply list_elem_of_In. unfold ids.
  apply in_map_iff. now exists p.
Qed.

(** *** [clearCompleted] *)

Lemma clear_loop_holds (items : list obj) :
  forall (st : state) scans (cur : list obj),
    holds st cur ->
    holds (fst (clear_loop items st scans))
      (fold_left (fun cur item =>
                    filter (fun todo => get todo (js "id") <> get item (js "id")) cur)
                 items cur).
Proof.
  induction items as [|item items IH]; intros st scans cur Hst; [exact Hst|].
  simpl. rewrite (removeTodo_call_ok _ _ _ Hst). apply IH. reflexivity.
Qed.

Lemma fold_filter_ids (items cur : list obj) :
  fold_left (fun cur item =>
               filter (fun todo => get todo (js "id") <> get item (js "id")) cur)
            items cur
  = filter (fun todo => get todo (js "id") ∉ ids items) cur.
Proof.
  revert cur. induction items as [|item items IH]; intros cur; simpl.
  - symmetry. apply filter_id. intros x _ Hin. inversion Hin.
  - rewrite IH, list_filter_filter. apply list_filter_iff. intros t.
    unfold ids. simpl. rewrite not_elem_of_cons. tauto.
Qed.

Lemma filter_ext_elem {A} (P Q : A -> Prop) `{!forall x, Decision (P x)}
    `{!forall x, Decision (Q x)} (l : list A) :
  (forall x, x ∈ l -> (P x <-> Q x)) -> filter P l = filter Q l.
Proof.
  induction l as [|x l IH]; intros Hext; [reflexivity|].
  rewrite !filter_cons, IH by (intros y Hy; apply Hext; now right).
  destruct (decide (P x)) as [HP|HP], (decide (Q x)) as [HQ|HQ]; try reflexivity;
    exfalso; apply (Hext x (list_elem_of_here _ _)) in HP || apply HP, (Hext x (list_elem_of_here _ _)); tauto.
Qed.

Lemma ids_unique (todos : list obj) (a b : obj) :
  NoDup (ids todos) -> a ∈ todos -> b ∈ todos ->
  get a (js "id") = get b (js "id") -> a = b.
Proof.
  induction todos as [|t todos IH]; intros Hnd Ha Hb E; [inversion Ha|].
  unfold ids in Hnd. simpl in Hnd. apply NoDup_cons in Hnd as [Hnot Hnd].
  assert (Hin : forall x, x ∈ todos -> get x (js "id") ∈ List.map (fun todo => get todo (js "id")) todos).
  { intros x Hx. apply list_elem_of_In. apply in_map_iff. exists x.
    split; [reflexivity | now apply list_elem_of_In]. }
  apply elem_of_cons in Ha as [->|Ha]; apply elem_of_cons in Hb as [->|Hb].
  - reflexivity.
  - exfalso. apply Hnot. rewrite E. now apply Hin.
  - exfalso. apply Hnot. rewrite <- E. now apply Hin.
  - now apply IH.
Qed.

Lemma clearCompleted_holds (st : state) (todos : list obj) :
  holds st todos ->
  exists items,
    holds (snd (clearCompleted st))
      (filter (fun todo => get todo (js "id") ∉ ids items) todos).
Proof.
  intros Hst. unfold clearCompleted, find. rewrite Hst. simpl default.
  set (items := List.filter _ todos). exists items.
  pose proof (clear_loop_holds items st [] todos Hst) as H.
  destruct (clear_loop items st []) as [st' scans]. simpl in *.
  apply holds_deliver. now rewrite <- fold_filter_ids.
Qed.

(** X14.  [clearCompleted] removes every record whose id is the id of a
    record with [completed === true]: what is left is the rest of the
    collection in its order, and no record with [completed === true] is
    left.  When the ids of the collection are pairwise distinct, what is
    left is exactly the records that were not completed. *)
Theorem clearCompleted_clears (st : state) (todos : list obj) :
  holds st todos ->
  fst (clearCompleted st) = Normal tt /\
  holds (snd (clearCompleted st))
    (filter (fun todo =>
               get todo (js "id")
               ∉ ids (filter (fun t => get t (js "completed") = VBool true) todos))
            todos) /\
  (forall leftover,
     holds (snd (clearCompleted st)) leftover ->
     Forall (fun todo => get todo (js "completed") <> VBool true) leftover /\
     (NoDup (ids todos) ->
      leftover = filter (fun todo => get todo (js "completed") <> VBool true) todos)).
Proof.
  intros Hst.
  set (done := filter (fun t => get t (js "completed") = VBool true) todos).
  assert (Hfind : find (Some [(js "completed", VBool true)]) st = Normal (Resolved done)).
  { unfold find. rewrite Hst. simpl default. do 2 f_equal.
    apply filter_bool_Prop. intros t. rewrite query_matches_Forall.
    change (keys [(js "completed", VBool true)]) with [js "completed"].
    rewrite Forall_singleton, (read_get t (js "completed") eq_refl).
    change (get [(js "completed", VBool true)] (js "completed")) with (VBool true).
    split; congruence. }
  assert (Hres : holds (snd (clearCompleted st))
                   (filter (fun todo => get todo (js "id") ∉ ids done) todos)).
  { unfold clearCompleted. rewrite Hfind.
    pose proof (clear_loop_holds done st [] todos Hst) as H.
    destruct (clear_loop done st []) as [st' scans]. simpl in *.
    apply holds_deliver. now rewrite <- fold_filter_ids. }
  split; [|split; [exact Hres|]].
  - unfold clearCompleted. rewrite Hfind. now destruct (clear_loop done st []).
  - intros leftover Hl. unfold holds in *. rewrite Hres in Hl. injection Hl as <-.
    split.
    + apply Forall_forall. intros t [Hid Ht]%list_elem_of_filter Hc.
      apply Hid. apply list_elem_of_In. unfold ids. apply in_map_iff.
      exists t. split; [reflexivity|]. apply list_elem_of_In.
      apply list_elem_of_filter. now split.
    + intros Hnd. apply filter_ext_elem. intros t Ht. split.
      * intros Hid Hc. apply Hid. apply list_elem_of_In. unfold ids.
        apply in_map_iff. exists t. split; [reflexivity|]. apply list_elem_of_In.
        apply list_elem_of_filter. now split.
      * intros Hc Hid. apply list_elem_of_In in Hid. unfold ids in Hid.
        apply in_map_iff in Hid as (t' & E & Hin). apply list_elem_of_In in Hin.
        apply list_elem_of_filter in Hin as [Hc' Hin].
        assert (t' = t) by (now apply (ids_unique todos)). now subst t'.
Qed.

Lemma clearCompleted_clears_witness :
  fst (clearCompleted store_AB) = Normal tt /\
  holds (snd (clearCompleted store_AB)) [new_item (js "A") 5] /\
  Forall (fun todo => get todo (js "completed") <> VBool true) [new_item (js "A") 5].
Proof.
  destruct (clearCompleted_clears store_AB
              [new_item (js "A") 5;
               set (new_item (js "B") 7) (js "completed") (VBool true)] eq_refl)
    as (H1 & H2 & H3).
  split; [exact H1|]. split; [exact H2|]. exact (proj1 (H3 _ H2)).
Defined.

(** *** [toggleAll] *)

Lemma insert_middle {A} (pre suf : list A) (t x : A) :
  <[List.length pre := x]> (pre ++ t :: suf) = pre ++ x :: suf.
Proof. induction pre as [|p pre IH]; simpl; [reflexivity | now rewrite IH]. Qed.

Lemma query_opposite (v : value) (t : obj) :
  query_matches (keys [(js "completed", VBool (negb (truthy v)))])
    [(js "completed", VBool (negb (truthy v)))] t
  = strict_eq (VBool (negb (truthy v))) (get t (js "completed")).
Proof.
  change (keys [(js "completed", VBool (negb (truthy v)))]) with [js "completed"].
  cbn [query_matches]. rewrite (read_get t (js "completed") eq_refl).
  change (get [(js "completed", VBool (negb (truthy v)))] (js "completed"))
    with (VBool (negb (truthy v))).
  now destruct (strict_eq (VBool (negb (truthy v))) (get t (js "completed"))).
Qed.

Lemma ids_middle (pre suf : list obj) (t x : obj) :
  get x (js "id") = get t (js "id") -> ids (pre ++ x :: suf) = ids (pre ++ t :: suf).
Proof. intros E. rewrite !ids_app. unfold ids at 2 4. simpl. now rewrite E. Qed.

Lemma holds_with_live (todos : list obj) (st : state) : holds (with_live todos st) todos.
Proof. reflexivity. Qed.

Lemma toggle_live_exact (v : value) (keep : obj -> bool) (suf : list obj) :
  (forall t, keep t = strict_eq (VBool (negb (truthy v))) (get t (js "completed"))) ->
  forall (pre : list obj) (st : state) (n : nat),
    liveTodos st = Some (pre ++ suf) ->
    NoDup (ids (pre ++ suf)) ->
    liveTodos (fst (toggle_live v (positions keep suf (List.length pre)) st n))
    = Some (pre ++ List.map (toggled v) suf).
Proof.
  intros Hkeep. induction suf as [|t suf IH]; intros pre st n Hlive Hnd; [exact Hlive|].
  cbn [positions List.map]. unfold toggled at 1. rewrite <- Hkeep.
  destruct (keep t) eqn:Ek.
  - set (item := set t (js "completed") v).
    assert (Hid : get item (js "id") = get t (js "id")) by apply get_set_id.
    cbn [toggle_live]. rewrite Hlive, (list_lookup_middle pre suf t) by reflexivity.
    fold item. rewrite insert_middle.
    assert (Hloop : update_loop (get item (js "id")) item (pre ++ item :: suf)
                    = (Some item, pre ++ item :: suf)).
    { rewrite update_loop_app_miss, update_loop_hit, assign_self by
        (try reflexivity; apply ids_not_in; rewrite Hid;
         rewrite ids_app in Hnd; apply NoDup_app in Hnd as (_ & Hd & _);
         intros Hin; apply (Hd _ Hin); left).
      reflexivity. }
    rewrite (updateTodo_call_found item _ _ _ _ (holds_with_live _ st) Hloop).
    replace (S (List.length pre)) with (List.length (pre ++ [item]))
      by (rewrite length_app; simpl; lia).
    rewrite (IH (pre ++ [item])).
    + now rewrite <- app_assoc.
    + now rewrite <- app_assoc.
    + rewrite <- app_assoc. simpl. now rewrite (ids_middle pre suf t item Hid).
  - replace (S (List.length pre)) with (List.length (pre ++ [t]))
      by (rewrite length_app; simpl; lia).
    rewrite (IH (pre ++ [t])); rewrite <- ?app_assoc; auto.
Qed.

Lemma toggle_copies_exact (v : value) (keep : obj -> bool) (suf : list obj) :
  (forall t, keep t = strict_eq (VBool (negb (truthy v))) (get t (js "completed"))) ->
  Forall (fun t => NoDup (keys t)) suf ->
  forall (pre : list obj) (st : state) (n : nat),
    holds st (pre ++ suf) ->
    NoDup (ids (pre ++ suf)) ->
    holds (fst (toggle_copies v (List.filter keep suf) st n))
          (pre ++ List.map (toggled v) suf).
Proof.
  intros Hkeep Hwf. induction Hwf as [|t suf Ht Hwf IH]; intros pre st n Hst Hnd;
    [exact Hst|].
  cbn [List.filter List.map]. unfold toggled at 1. rewrite <- Hkeep.
  destruct (keep t) eqn:Ek.
  - set (item := set t (js "completed") v).
    assert (Hid : get item (js "id") = get t (js "id")) by apply get_set_id.
    cbn [toggle_copies]. fold item.
    assert (Hloop : update_loop (get item (js "id")) item (pre ++ t :: suf)
                    = (Some item, pre ++ item :: suf)).
    { rewrite update_loop_app_miss, update_loop_hit by
        (try (symmetry; exact Hid); apply ids_not_in; rewrite Hid;
         rewrite ids_app in Hnd; apply NoDup_app in Hnd as (_ & Hd & _);
         intros Hin; apply (Hd _ Hin); left).
      unfold item. now rewrite (assign_changed t _ v Ht). }
    rewrite (updateTodo_call_found item _ _ _ _ Hst Hloop).
    replace (pre ++ item :: List.map (toggled v) suf)
      with ((pre ++ [item]) ++ List.map (toggled v) suf) by now rewrite <- app_assoc.
    apply IH.
    + unfold holds. now rewrite <- app_assoc.
    + rewrite <- app_assoc. simpl. now rewrite (ids_middle pre suf t item Hid).
  - replace (pre ++ t :: List.map (toggled v) suf)
      with ((pre ++ [t]) ++ List.map (toggled v) suf) by now rewrite <- app_assoc.
    apply IH; rewrite <- app_assoc; auto.
Qed.

Lemma toggled_flag (b : bool) (t : obj) :
  flagged t -> get (toggled (VBool b) t) (js "completed") = VBool b.
Proof.
  intros [b' Hb']. unfold toggled. rewrite Hb'. simpl.
  destruct b, b'; simpl; try exact Hb'; apply get_set_same.
Qed.

(** X15.  On a collection with pairwise distinct ids, [toggleAll(
    {completed} )] leaves every record whose [completed] was the opposite
    boolean with [completed] set to the given value, and every other
    record, and every other property, as it was; the records stay in their
    places.  So when the [completed] fields are booleans, all of them are
    the given boolean afterwards. *)
Theorem toggleAll_marks_all (detail : obj) (st : state) (todos : list obj) :
  holds st todos ->
  NoDup (ids todos) ->
  Forall (fun t => NoDup (keys t)) todos ->
  fst (toggleAll detail st) = Normal tt /\
  holds (snd (toggleAll detail st))
        (List.map (toggled (get detail (js "completed"))) todos) /\
  (forall b, get detail (js "completed") = VBool b -> Forall flagged todos ->
     Forall (fun t => get t (js "completed") = VBool b)
            (List.map (toggled (get detail (js "completed"))) todos)).
Proof.
  intros Hst Hnd Hwf.
  set (v := get detail (js "completed")).
  set (q := [(js "completed", VBool (negb (truthy v)))]).
  assert (Hfind : find (Some q) st
                  = Normal (Resolved (List.filter (query_matches (keys q) q) todos))).
  { unfold find. now rewrite Hst. }
  assert (Hres : fst (toggleAll detail st) = Normal tt /\
                 holds (snd (toggleAll detail st)) (List.map (toggled v) todos)).
  { unfold toggleAll. fold v. fold q. rewrite Hfind.
    destruct (liveTodos st) as [live|] eqn:Hlive.
    - assert (live = todos) as ->.
      { unfold holds, getLocalStorage in Hst. rewrite Hlive in Hst. congruence. }
      pose proof (toggle_live_exact v (query_matches (keys q) q) todos
                    (query_opposite v) [] st 0 Hlive Hnd) as H.
      simpl List.length in H.
      destruct (toggle_live v (positions (query_matches (keys q) q) todos 0) st 0)
        as [st' n]. simpl in *. split; [reflexivity|].
      apply holds_iter_count. unfold holds, getLocalStorage. now rewrite H.
    - pose proof (toggle_copies_exact v (query_matches (keys q) q) todos
                    (query_opposite v) Hwf [] st 0 Hst Hnd) as H.
      destruct (toggle_copies v (List.filter (query_matches (keys q) q) todos) st 0)
        as [st' n]. simpl in *. split; [reflexivity|].
      now apply holds_iter_count. }
  destruct Hres as [Hr Hh]. split; [exact Hr|]. split; [exact Hh|].
  intros b Hb Hflag. fold v. rewrite Hb.
  apply Forall_forall. intros x Hx. apply list_elem_of_In in Hx.
  apply in_map_iff in Hx as (t & <- & Hin). apply toggled_flag.
  rewrite Forall_forall in Hflag. apply Hflag. now apply list_elem_of_In.
Qed.

Lemma toggleAll_marks_all_witness :
  fst (toggleAll [(js "completed", VBool true)] store_A) = Normal tt /\
  holds (snd (toggleAll [(js "completed", VBool true)] store_A))
        (List.map (toggled (get [(js "completed", VBool true)] (js "completed")))
           [new_item (js "A") 5]) /\
  (forall b, get [(js "completed", VBool true)] (js "completed") = VBool b ->
     Forall flagged [new_item (js "A") 5] ->
     Forall (fun t => get t (js "completed") = VBool b)
            (List.map (toggled (get [(js "completed", VBool true)] (js "completed")))
               [new_item (js "A") 5])).
Proof.
  apply (toggleAll_marks_all [(js "completed", VBool true)] store_A [new_item (js "A") 5]).
  - reflexivity.
  - unfold ids. simpl. apply NoDup_singleton.
  - constructor; [|constructor]. apply (bool_decide_unpack _). vm_compute. exact I.
Defined.

(** *** The ids through the listeners *)

Lemma holds_live (st : state) (l cur : list obj) :
  liveTodos st = Some l -> holds st cur -> l = cur.
Proof. unfold holds, getLocalStorage. intros -> [= ->]. reflexivity. Qed.

Lemma ids_insert (cur : list obj) (i : nat) (old item : obj) :
  cur !! i = Some old -> get item (js "id") = get old (js "id") ->
  ids (<[i := item]> cur) = ids cur.
Proof.
  revert i. induction cur as [|t cur IH]; intros [|i] Hi E; simpl in *; try discriminate.
  - injection Hi as ->. unfold ids. simpl. now rewrite E.
  - unfold ids in *. simpl. now rewrite (IH i).
Qed.

(** A call of [updateTodo] keeps the ids, and an element that keeps its
    array goes on keeping one. *)
Lemma updateTodo_call_ids (update : obj) (st : state) (cur : list obj) :
  holds st cur ->
  exists r cur',
    fst (updateTodo_call update st) = Normal r /\
    holds (snd (updateTodo_call update st)) cur' /\
    ids cur' = ids cur /\
    (is_Some (liveTodos st) -> is_Some (liveTodos (snd (updateTodo_call update st)))).
Proof.
  intros Hst.
  pose proof (update_loop_ids update cur) as Hids.
  destruct (update_loop (get update (js "id")) update cur) as [[item|] cur'] eqn:E.
  - rewrite (updateTodo_call_found _ _ _ _ _ Hst E). simpl.
    exists (Resolved item), cur'. repeat split; eauto.
  - rewrite (updateTodo_call_missing _ _ _ _ Hst E). simpl.
    exists (Rejected (RObject update)), cur. repeat split; eauto.
Qed.

Lemma toggle_live_ids (v : value) (places : list nat) :
  forall (st : state) (n : nat) (cur : list obj),
    liveTodos st = Some cur ->
    exists cur',
      liveTodos (fst (toggle_live v places st n)) = Some cur' /\ ids cur' = ids cur.
Proof.
  induction places as [|i places IH]; intros st n cur Hlive; [eauto|].
  cbn [toggle_live]. rewrite Hlive.
  destruct (cur !! i) as [old|] eqn:Hi; [|now apply IH].
  set (item := set old (js "completed") v).
  set (st1 := with_live (<[i := item]> cur) st).
  destruct (updateTodo_call_ids item st1 _ (holds_with_live _ st))
    as (r & cur' & Hr & Hh & Hids & Hl).
  destruct (Hl (mk_is_Some _ _ eq_refl)) as [l Hl'].
  pose proof (holds_live _ _ _ Hl' Hh) as ->.
  rewrite (ids_insert cur i old item Hi (get_set_id old v)) in Hids.
  destruct (updateTodo_call item st1) as [c st2]. simpl in *. subst c.
  destruct r as [it|rs|];
    [destruct (IH st2 (S n) cur' Hl') as (cur'' & H1 & H2)
    |destruct (IH st2 n cur' Hl') as (cur'' & H1 & H2) ..];
    exists cur''; (split; [exact H1 | congruence]).
Qed.

Lemma toggle_copies_ids (v : value) (items : list obj) :
  forall (st : state) (n : nat) (cur : list obj),
    holds st cur ->
    exists cur', holds (fst (toggle_copies v items st n)) cur' /\ ids cur' = ids cur.
Proof.
  induction items as [|item items IH]; intros st n cur Hst; [eauto|].
  cbn [toggle_copies].
  destruct (updateTodo_call_ids (set item (js "completed") v) st cur Hst)
    as (r & cur' & Hr & Hh & Hids & _).
  destruct (updateTodo_call (set item (js "completed") v) st) as [c st2].
  simpl in *. subst c.
  destruct r as [it|rs|];
    [destruct (IH st2 (S n) cur' Hh) as (cur'' & H1 & H2)
    |destruct (IH st2 n cur' Hh) as (cur'' & H1 & H2) ..];
    exists cur''; (split; [exact H1 | congruence]).
Qed.

Lemma ids_filter_sublist (P : obj -> Prop) `{!forall x, Decision (P x)} (l : list obj) :
  ids (filter P l) `sublist_of` ids l.
Proof.
  induction l as [|t l IH]; [constructor|].
  rewrite filter_cons. unfold ids in *. simpl.
  destruct (decide (P t)); simpl; now constructor.
Qed.

(** What a listener does to the ids: an addition that goes through puts
    its instant last, everything else leaves a part of them, in order. *)
Lemma listen_ids (i : intent) (st : state) (todos : list obj) :
  holds st todos ->
  exists todos',
    holds (listen i st) todos' /\
    match i with
    | AddTodo _ now =>
        ids todos' = ids todos \/ ids todos' = ids todos ++ [VNumber now]
    | _ => ids todos' `sublist_of` ids todos
    end.
Proof.
  intros Hst. destruct i as [d now|d|d|d|]; simpl.
  - destruct (empty_title (get d (js "title"))) eqn:E.
    + rewrite (addTodo_empty _ now _ _ Hst E). simpl. eauto.
    + rewrite (addTodo_ok _ now _ _ Hst E). simpl.
      eexists. split; [apply holds_committed|]. right. now rewrite ids_app.
  - rewrite (holds_after_removeTodo _ _ _ Hst). simpl.
    eexists. split; [apply holds_committed | apply ids_filter_sublist].
  - destruct (updateTodo_holds d st todos Hst) as [H _].
    eexists. split; [exact H|]. now rewrite update_loop_ids.
  - unfold toggleAll.
    set (v := get d (js "completed")).
    set (q := [(js "completed", VBool (negb (truthy v)))]).
    assert (Hfind : find (Some q) st
                    = Normal (Resolved (List.filter (query_matches (keys q) q) todos)))
      by (unfold find; now rewrite Hst).
    rewrite Hfind.
    destruct (liveTodos st) as [live|] eqn:Hlive.
    + pose proof (holds_live _ _ _ Hlive Hst) as ->.
      destruct (toggle_live_ids v (positions (query_matches (keys q) q) todos 0)
                  st 0 todos Hlive) as (cur' & H1 & H2).
      destruct (toggle_live v _ st 0) as [st' n]. simpl in *.
      exists cur'. split; [|now rewrite H2].
      apply holds_iter_count. unfold holds, getLocalStorage. now rewrite H1.
    + destruct (toggle_copies_ids v (List.filter (query_matches (keys q) q) todos)
                  st 0 todos Hst) as (cur' & H1 & H2).
      destruct (toggle_copies v _ st 0) as [st' n]. simpl in *.
      exists cur'. split; [now apply holds_iter_count | now rewrite H2].
  - destruct (clearCompleted_holds st todos Hst) as (items & H).
    eexists. split; [exact H | apply ids_filter_sublist].
Qed.

Lemma stamped_later (c c' : Z) (todos : list obj) :
  (c <= c')%Z -> stamped c todos -> stamped c' todos.
Proof.
  intros Hc H. unfold stamped in *. eapply Forall_impl; [exact H|].
  intros i (z & -> & Hz). exists z. split; [reflexivity | lia].
Qed.

(** X16.  As long as every addition reads a later instant than the one
    before, the ids of the store stay pairwise distinct through any
    sequence of intents ([add-todo], [remove-todo], [update-todo],
    [toggle-all], [clear-completed]): from a collection with distinct
    timestamp ids not after the clock, every state the listeners reach
    holds a collection with distinct timestamp ids. *)
Theorem ids_stay_unique (intents : list intent) (st : state) (clock : Z)
    (todos : list obj) :
  holds st todos ->
  NoDup (ids todos) ->
  stamped clock todos ->
  ticking clock intents ->
  exists todos',
    holds (run intents st) todos' /\
    NoDup (ids todos') /\
    stamped (last_tick clock intents) todos'.
Proof.
  revert st clock todos. unfold run.
  induction intents as [|i intents IH]; intros st clock todos Hst Hnd Hstamp Htick;
    [now exists todos|].
  destruct (listen_ids i st todos Hst) as (todos1 & H1 & Hids).
  assert (Hsub : forall l, l `sublist_of` ids todos ->
                   NoDup l /\ Forall (fun i => exists z, i = VNumber z /\ (z <= clock)%Z) l).
  { intros l Hl. split; [now apply (sublist_NoDup l (ids todos))|].
    apply Forall_forall. intros x Hx. unfold stamped in Hstamp.
    rewrite Forall_forall in Hstamp. apply Hstamp. eapply elem_of_sublist; eauto. }
  simpl fold_left.
  destruct i as [d now|d|d|d|]; simpl in Htick; simpl last_tick;
    try (destruct (Hsub _ Hids) as [Hn Hs]; now apply (IH _ clock todos1)).
  destruct Htick as [Hlt Htick].
  apply (IH _ now todos1); auto.
  - destruct Hids as [-> | ->]; [exact Hnd|].
    apply NoDup_app. split; [exact Hnd|]. split; [|apply NoDup_singleton].
    intros x Hx [->|Hin]%elem_of_cons; [|inversion Hin].
    unfold stamped in Hstamp. rewrite Forall_forall in Hstamp.
    destruct (Hstamp _ Hx) as (z & [= <-] & Hz). lia.
  - unfold stamped. destruct Hids as [-> | ->].
    + apply (stamped_later clock now); [lia | exact Hstamp].
    + apply Forall_app. split.
      * apply (stamped_later clock now); [lia | exact Hstamp].
      * constructor; [|constructor]. exists now. split; [reflexivity | lia].
Qed.

Lemma ids_stay_unique_witness :
  exists todos',
    holds (run [AddTodo [(js "title", VString (js "A"))] 5;
                ToggleAll [(js "completed", VBool true)];
                AddTodo [(js "title", VString (js "B"))] 7;
                ClearCompleted] empty_store) todos' /\
    NoDup (ids todos') /\
    stamped (last_tick 0 [AddTodo [(js "title", VString (js "A"))] 5;
                          ToggleAll [(js "completed", VBool true)];
                          AddTodo [(js "title", VString (js "B"))] 7;
                          ClearCompleted]) todos'.
Proof.
  apply (ids_stay_unique _ empty_store 0%Z []).
  - reflexivity.
  - constructor.
  - constructor.
  - simpl. lia.
Defined.

(** *** Write-through through the listeners *)

Lemma synced_dispatch e st : synced st -> synced (dispatch e st).
Proof. exact id. Qed.

Lemma synced_dispatchCountUpdated st : synced st -> synced (dispatchCountUpdated st).
Proof. unfold dispatchCountUpdated. now destruct (count st). Qed.

Lemma synced_iter_count (n : nat) st :
  synced st -> synced (Nat.iter n dispatchCountUpdated st).
Proof. intros H. induction n; simpl; [exact H | now apply synced_dispatchCountUpdated]. Qed.

Lemma synced_deliver scans st : synced st -> synced (deliver scans st).
Proof.
  unfold deliver. revert st. induction scans as [|[c|r|] scans IH]; intros st H; simpl; auto.
Qed.

Lemma synced_written (todos : list obj) (st : state) : synced (setLocalStorage todos st).
Proof. intros l [= <-]. simpl. apply lookup_insert_eq. Qed.

Lemma updateTodo_call_synced (update : obj) (st : state) :
  synced st -> synced (snd (updateTodo_call update st)).
Proof.
  intros Hs. unfold updateTodo_call.
  destruct (getLocalStorage st) as [todos|e]; [|exact Hs].
  destruct (update_loop _ update todos) as [[item|] todos']; [|exact Hs].
  apply synced_dispatch, synced_written.
Qed.

Lemma removeTodo_call_synced (id : value) (st : state) :
  synced st -> synced (snd (removeTodo_call id st)).
Proof.
  intros Hs. unfold removeTodo_call.
  destruct (getLocalStorage st) as [todos|e]; [|exact Hs].
  apply synced_dispatch, synced_written.
Qed.

(** The record [toggleAll] has just changed is in the array, so the call
    of [updateTodo] that follows finds a record and writes the array. *)
Lemma updateTodo_call_writes (cur : list obj) (i : nat) (old item : obj) (st : state) :
  cur !! i = Some old ->
  exists it st',
    updateTodo_call item (with_live (<[i := item]> cur) st) = (Normal (Resolved it), st') /\
    synced st' /\ is_Some (liveTodos st').
Proof.
  intros Hi.
  assert (Hin : exists t, In t (<[i := item]> cur) /\ get t (js "id") = get item (js "id")).
  { exists item. split; [|reflexivity]. apply list_elem_of_In, list_elem_of_lookup.
    exists i. apply list_lookup_insert_eq. now apply lookup_lt_Some in Hi. }
  destruct (update_loop_some _ item _ Hin) as (k & t & _ & _ & _ & Hloop).
  rewrite (updateTodo_call_found item _ _ _ _ (holds_with_live _ st) Hloop).
  eexists _, _. split; [reflexivity|]. split.
  - apply synced_dispatch, synced_written.
  - simpl. eauto.
Qed.

Lemma toggle_live_synced (v : value) (places : list nat) :
  forall (st : state) (n : nat),
    is_Some (liveTodos st) -> synced st -> synced (fst (toggle_live v places st n)).
Proof.
  induction places as [|i places IH]; intros st n [cur Hlive] Hs; [exact Hs|].
  cbn [toggle_live]. rewrite Hlive.
  destruct (cur !! i) as [old|] eqn:Hi; [|apply IH; eauto].
  destruct (updateTodo_call_writes cur i old (set old (js "completed") v) st Hi)
    as (it & st' & -> & Hs' & Hl').
  now apply IH.
Qed.

Lemma toggle_copies_synced (v : value) (items : list obj) :
  forall (st : state) (n : nat), synced st -> synced (fst (toggle_copies v items st n)).
Proof.
  induction items as [|item items IH]; intros st n Hs; [exact Hs|].
  cbn [toggle_copies].
  pose proof (updateTodo_call_synced (set item (js "completed") v) st Hs) as H.
  destruct (updateTodo_call (set item (js "completed") v) st) as [[[it|r|]|e] st'];
    simpl in H; auto.
Qed.

Lemma clear_loop_synced (items : list obj) :
  forall (st : state) scans, synced st -> synced (fst (clear_loop items st scans)).
Proof.
  induction items as [|item items IH]; intros st scans Hs; [exact Hs|].
  cbn [clear_loop].
  pose proof (removeTodo_call_synced (get item (js "id")) st Hs) as H.
  destruct (removeTodo_call (get item (js "id")) st) as [[r|e] st']; simpl in H; auto.
Qed.

Lemma listen_synced (i : intent) (st : state) : synced st -> synced (listen i st).
Proof.
  intros Hs. destruct i as [d now|d|d|d|]; simpl.
  - eapply outcome_synced; [apply addTodo_outcome | exact Hs].
  - eapply outcome_synced; [apply removeTodo_outcome | exact Hs].
  - eapply outcome_synced; [apply updateTodo_outcome | exact Hs].
  - unfold toggleAll.
    destruct (find _ st) as [[items|r|]|e]; simpl; try exact Hs.
    destruct (liveTodos st) as [live|] eqn:Hlive.
    + pose proof (toggle_live_synced (get d (js "completed"))
                    (positions
                       (query_matches
                          (keys [(js "completed",
                                  VBool (negb (truthy (get d (js "completed")))))])
                          [(js "completed",
                            VBool (negb (truthy (get d (js "completed")))))]) live 0)
                    st 0 (mk_is_Some _ _ Hlive) Hs) as H.
      destruct (toggle_live _ _ st 0) as [st' n]. simpl in *.
      now apply synced_iter_count.
    + pose proof (toggle_copies_synced (get d (js "completed")) items st 0 Hs) as H.
      destruct (toggle_copies _ items st 0) as [st' n]. simpl in *.
      now apply synced_iter_count.
  - unfold clearCompleted.
    destruct (find _ st) as [[items|r|]|e]; simpl; try exact Hs.
    pose proof (clear_loop_synced items st [] Hs) as H.
    destruct (clear_loop items st []) as [st' scans]. simpl in *.
    now apply synced_deliver.
Qed.

(** X17.  Write-through holds through the listeners of [<todo-app>]:
    whatever intents arrive, in any order, the text under the element's
    name is the serialization of the collection the element keeps once
    each listener and its callbacks have run -- also after [toggleAll],
    which changes the records of the element before it calls the store. *)
Theorem listeners_write_through (intents : list intent) (st : state) :
  synced st -> synced (run intents st).
Proof.
  unfold run. revert st. induction intents as [|i intents IH]; intros st Hs; [exact Hs|].
  simpl. apply IH. now apply listen_synced.
Qed.

Lemma listeners_write_through_witness :
  synced (run [ToggleAll [(js "completed", VBool true)];
               AddTodo [(js "title", VString (js "B"))] 7;
               ClearCompleted] store_A).
Proof.
  apply (listeners_write_through
           [ToggleAll [(js "completed", VBool true)];
            AddTodo [(js "title", VString (js "B"))] 7;
            ClearCompleted] store_A).
  exact synced_store_A.
Defined.

(** *** Titles through the listeners *)

Lemma titled_set_completed (t : obj) (v : value) :
  titled t -> titled (set t (js "completed") v).
Proof.
  intros (s & Hs & Hne). exists s. split; [|exact Hne].
  rewrite get_set_other; [exact Hs | vm_compute; discriminate].
Qed.

Lemma updateTodo_call_titled (update : obj) (st : state) (cur : list obj) :
  js "title" ∉ keys update \/ titled update ->
  holds st cur -> Forall titled cur ->
  exists r cur',
    fst (updateTodo_call update st) = Normal r /\
    holds (snd (updateTodo_call update st)) cur' /\ Forall titled cur' /\
    (is_Some (liveTodos st) -> is_Some (liveTodos (snd (updateTodo_call update st)))).
Proof.
  intros Hu Hst Hall.
  pose proof (update_loop_titled (get update (js "id")) update cur Hu Hall) as Ht.
  destruct (update_loop (get update (js "id")) update cur) as [[item|] cur'] eqn:E.
  - rewrite (updateTodo_call_found _ _ _ _ _ Hst E). simpl.
    exists (Resolved item), cur'. repeat split; eauto.
  - rewrite (updateTodo_call_missing _ _ _ _ Hst E). simpl.
    exists (Rejected (RObject update)), cur. repeat split; eauto.
Qed.

Lemma toggle_live_titled (v : value) (places : list nat) :
  forall (st : state) (n : nat) (cur : list obj),
    liveTodos st = Some cur -> Forall titled cur ->
    exists cur',
      liveTodos (fst (toggle_live v places st n)) = Some cur' /\ Forall titled cur'.
Proof.
  induction places as [|i places IH]; intros st n cur Hlive Hall; [eauto|].
  cbn [toggle_live]. rewrite Hlive.
  destruct (cur !! i) as [old|] eqn:Hi; [|exact (IH st n cur Hlive Hall)].
  set (item := set old (js "completed") v).
  assert (Hitem : titled item).
  { apply titled_set_completed. rewrite Forall_forall in Hall. apply Hall.
    apply list_elem_of_lookup. eauto. }
  assert (Hall1 : Forall titled (<[i := item]> cur)) by now apply Forall_insert.
  destruct (updateTodo_call_titled item (with_live (<[i := item]> cur) st) _
              (or_intror Hitem) (holds_with_live _ st) Hall1)
    as (r & cur' & Hr & Hh & Ht & Hl).
  destruct (Hl (mk_is_Some _ _ eq_refl)) as [l Hl'].
  pose proof (holds_live _ _ _ Hl' Hh) as ->.
  destruct (updateTodo_call item (with_live (<[i := item]> cur) st)) as [c st2].
  simpl in *. subst c.
  destruct r as [it|rs|]; eapply IH; eassumption.
Qed.

Lemma toggle_copies_titled (v : value) (items : list obj) :
  Forall titled items ->
  forall (st : state) (n : nat) (cur : list obj),
    holds st cur -> Forall titled cur ->
    exists cur', holds (fst (toggle_copies v items st n)) cur' /\ Forall titled cur'.
Proof.
  induction 1 as [|item items Hitem _ IH]; intros st n cur Hst Hall; [eauto|].
  cbn [toggle_copies].
  destruct (updateTodo_call_titled (set item (js "completed") v) st cur
              (or_intror (titled_set_completed _ v Hitem)) Hst Hall)
    as (r & cur' & Hr & Hh & Ht & _).
  destruct (updateTodo_call (set item (js "completed") v) st) as [c st2].
  simpl in *. subst c.
  destruct r as [it|rs|]; eapply IH; eassumption.
Qed.

Lemma listen_titled (i : intent) (st : state) (todos : list obj) :
  keeps_title i -> holds st todos -> Forall titled todos ->
  exists todos', holds (listen i st) todos' /\ Forall titled todos'.
Proof.
  intros Hi Hst Hall. destruct i as [d now|d|d|d|]; cbn [listen].
  - destruct (empty_title (get d (js "title"))) eqn:E.
    + rewrite (addTodo_empty _ now _ _ Hst E). simpl. eauto.
    + pose proof (addTodo_ok _ now _ _ Hst E) as Eq. cbv zeta in Eq.
      rewrite Eq. cbn [snd].
      exact (addTodo_keeps_titles _ now st _ todos _ Hst Hall Eq).
  - exact (removeTodo_keeps_titles _ st todos Hst Hall).
  - exact (updateTodo_keeps_titles d st todos Hi Hst Hall).
  - unfold toggleAll.
    set (v := get d (js "completed")).
    set (q := [(js "completed", VBool (negb (truthy v)))]).
    assert (Hfind : find (Some q) st
                    = Normal (Resolved (List.filter (query_matches (keys q) q) todos)))
      by (unfold find; now rewrite Hst).
    rewrite Hfind.
    destruct (liveTodos st) as [live|] eqn:Hlive.
    + pose proof (holds_live _ _ _ Hlive Hst) as ->.
      destruct (toggle_live_titled v (positions (query_matches (keys q) q) todos 0)
                  st 0 todos Hlive Hall) as (cur' & H1 & H2).
      destruct (toggle_live v _ st 0) as [st' n]. simpl in *.
      exists cur'. split; [|exact H2].
      apply holds_iter_count. unfold holds, getLocalStorage. now rewrite H1.
    + assert (Hitems : Forall titled (List.filter (query_matches (keys q) q) todos)).
      { apply Forall_forall. intros x Hx. apply list_elem_of_In in Hx.
        apply List.filter_In in Hx as [Hx _]. rewrite Forall_forall in Hall.
        apply Hall. now apply list_elem_of_In. }
      destruct (toggle_copies_titled v _ Hitems st 0 todos Hst Hall) as (cur' & H1 & H2).
      destruct (toggle_copies v _ st 0) as [st' n]. simpl in *.
      exists cur'. split; [now apply holds_iter_count | exact H2].
  - destruct (clearCompleted_holds st todos Hst) as (items & H).
    eexists. split; [exact H|]. apply Forall_forall.
    intros x [_ Hx]%list_elem_of_filter. rewrite Forall_forall in Hall. auto.
Qed.

(** X18.  A blank title can only come in through [update-todo]: when no
    [update-todo] intent carries an empty or white-space title, every
    title of the store is still a string with something left after [trim]
    after any sequence of intents. *)
Theorem titles_stay_non_blank (intents : list intent) (st : state) (todos : list obj) :
  holds st todos ->
  Forall titled todos ->
  Forall keeps_title intents ->
  exists todos', holds (run intents st) todos' /\ Forall titled todos'.
Proof.
  unfold run. revert st todos.
  induction intents as [|i intents IH]; intros st todos Hst Hall Hi; [eauto|].
  apply Forall_cons in Hi as [Hi His].
  destruct (listen_titled i st todos Hi Hst Hall) as (todos1 & H1 & H2).
  simpl. now apply (IH _ todos1).
Qed.

Lemma titles_stay_non_blank_witness :
  exists todos',
    holds (run [UpdateTodo [(js "id", VNumber 5); (js "completed", VBool true)];
                AddTodo [(js "title", VString (js "B"))] 7;
                ToggleAll [(js "completed", VBool false)];
                ClearCompleted] store_A) todos' /\
    Forall titled todos'.
Proof.
  apply (titles_stay_non_blank _ store_A [new_item (js "A") 5]).
  - reflexivity.
  - constructor; [|constructor]. exists (js "A"). split; [reflexivity|].
    vm_compute. discriminate.
  - constructor; [|repeat constructor].
    left. change (keys _) with [js "id"; js "completed"]. intros H.
    apply elem_of_cons in H as [H|H]; [vm_compute in H; discriminate H|].
    apply elem_of_cons in H as [H|H]; [vm_compute in H; discriminate H|].
    inversion H.
Defined.

End AppFacts.

(* ===================================================================== *)
(** ** The views *)
(* ===================================================================== *)

Section ViewFacts.
Import Js Json TodoStorage Spec Laws TodoApp AppLaws Dom CustomElement TodoAppView ViewLaws.

(** *** Numbers as strings *)

Lemma is_digit_codes (u : Decimal.uint) : forallb is_digit (uint_codes u) = true.
Proof. induction u as [|u IH|u IH|u IH|u IH|u IH|u IH|u IH|u IH|u IH|u IH]; [reflexivity | exact IH ..]. Qed.

Lemma uint_codes_nil (u : Decimal.uint) : uint_codes u = [] -> u = Decimal.Nil.
Proof. destruct u; simpl; [reflexivity | discriminate ..]. Qed.

Lemma parseInt_acc (u : Decimal.uint) (acc : positive) :
  fold_left (fun n c => (10 * n + (Z.of_N c - 48))%Z) (uint_codes u) (Zpos acc)
  = Zpos (Pos.of_uint_acc u acc).
Proof.
  revert acc. induction u as [|u IH|u IH|u IH|u IH|u IH|u IH|u IH|u IH|u IH|u IH];
    intros acc; cbn [uint_codes fold_left Pos.of_uint_acc]; [reflexivity | ..];
    rewrite <- IH; f_equal; lia.
Qed.

Lemma parseInt_codes (u : Decimal.uint) : parseInt (uint_codes u) = Z.of_N (Pos.of_uint u).
Proof.
  unfold parseInt.
  induction u as [|u IH|u IH|u IH|u IH|u IH|u IH|u IH|u IH|u IH|u IH];
    [reflexivity | exact IH | ..]; cbn [uint_codes fold_left Pos.of_uint Z.of_N];
    rewrite <- parseInt_acc; reflexivity.
Qed.

Lemma parseInt_number (z : Z) : (0 <= z)%Z -> parseInt (number_to_string z) = z.
Proof.
  intros Hz. destruct z as [|p|p]; [reflexivity | | lia].
  unfold number_to_string. cbn [Z.to_int].
  now rewrite parseInt_codes, DecimalPos.Unsigned.of_to.
Qed.

Lemma all_digits_number (z : Z) :
  all_digits (number_to_string z) = bool_decide (0 <= z)%Z.
Proof.
  destruct z as [|p|p]; [reflexivity | | reflexivity].
  rewrite bool_decide_eq_true_2 by lia.
  unfold number_to_string. cbn [Z.to_int].
  pose proof (DecimalPos.Unsigned.to_uint_nonnil p) as Hn.
  pose proof (is_digit_codes (Pos.to_uint p)) as Hd.
  pose proof (uint_codes_nil (Pos.to_uint p)) as Hnil.
  destruct (uint_codes (Pos.to_uint p)) as [|c r]; [now destruct Hn; apply Hnil | exact Hd].
Qed.

Lemma number_to_string_inj (a b : Z) :
  (0 <= a)%Z -> (0 <= b)%Z -> number_to_string a = number_to_string b -> a = b.
Proof.
  intros Ha Hb E. rewrite <- (parseInt_number a Ha), <- (parseInt_number b Hb).
  now rewrite E.
Qed.

Lemma parseInt_from_nonneg (s : jstring) (n : Z) :
  (0 <= n)%Z -> forallb is_digit s = true ->
  (0 <= fold_left (fun n c => (10 * n + (Z.of_N c - 48))%Z) s n)%Z.
Proof.
  revert n. induction s as [|c s IH]; intros n Hn; simpl; [intros _; exact Hn|].
  intros [Hc Hs]%andb_true_iff. apply IH; [|exact Hs].
  unfold is_digit in Hc. apply andb_true_iff in Hc as [H1 _].
  apply N.leb_le in H1. lia.
Qed.

Lemma parseInt_nonneg (s : jstring) : forallb is_digit s = true -> (0 <= parseInt s)%Z.
Proof. apply parseInt_from_nonneg. lia. Qed.

(** *** The accessors of the item and of the footer *)

Lemma all_digits_forall (s : jstring) : all_digits s = true -> forallb is_digit s = true.
Proof. destruct s; [discriminate | exact id]. Qed.

Lemma getAttribute_set (name : jstring) (v : value) (el : attributes) :
  getAttribute name (setAttribute name v el) = VString (to_string v).
Proof. unfold getAttribute, setAttribute. now rewrite lookup_insert_eq. Qed.

Lemma getAttribute_set_other (name name' : jstring) (v : value) (el : attributes) :
  name <> name' -> getAttribute name' (setAttribute name v el) = getAttribute name' el.
Proof. intros H. unfold getAttribute, setAttribute. now rewrite lookup_insert_ne. Qed.

(** X19.  The id of an item goes through its attribute unchanged when it
    is a non-negative safe integer: the setter stores it, touching no other
    attribute, and the getter reads the same number back.  The setter
    throws for every value whose string is not made of decimal digits --
    a negative number, [undefined], [null], a boolean -- and leaves the
    item as it is; an item without an [id] attribute has the id [null]. *)
Theorem item_id_round_trip (id : value) (z : Z) (el : attributes) :
  ((0 <= z <= MAX_SAFE_INTEGER)%Z ->
   exists el',
     TodoItem.set_id (VNumber z) el = Normal el' /\
     TodoItem.get_id el' = VNumber z /\
     forall name, name <> js "id" -> el' !! name = el !! name) /\
  (all_digits (to_string id) = false ->
   TodoItem.set_id id el = Throw (Error "Only integers are allowed as the id of items.")) /\
  (id = VUndefined \/ id = VNull \/ (exists b, id = VBool b) \/
   (exists n, id = VNumber n /\ (n < 0)%Z) ->
   all_digits (to_string id) = false) /\
  (el !! js "id" = None -> TodoItem.get_id el = VNull).
Proof.
  split; [|split; [|split]].
  - intros Hz. unfold TodoItem.set_id.
    cbn [to_string]. rewrite all_digits_number, bool_decide_eq_true_2 by lia.
    eexists. split; [reflexivity|]. split.
    + unfold TodoItem.get_id. rewrite getAttribute_set. cbn [to_string].
      rewrite all_digits_number, bool_decide_eq_true_2 by lia.
      rewrite parseInt_number by lia. reflexivity.
    + intros name Hn. unfold setAttribute. now rewrite lookup_insert_ne.
  - intros H. unfold TodoItem.set_id. now rewrite H.
  - intros [->|[->|[[[|] ->]|(n & -> & Hn)]]]; try reflexivity.
    cbn [to_string]. rewrite all_digits_number. apply bool_decide_eq_false_2. lia.
  - intros Hnone. unfold TodoItem.get_id, getAttribute. now rewrite Hnone.
Qed.

Lemma item_id_round_trip_witness :
  (exists el',
     TodoItem.set_id (VNumber 1500) ∅ = Normal el' /\
     TodoItem.get_id el' = VNumber 1500 /\
     forall name, name <> js "id" -> el' !! name = (∅ : attributes) !! name) /\
  TodoItem.set_id (VNumber (-3)) ∅
  = Throw (Error "Only integers are allowed as the id of items.").
Proof.
  destruct (item_id_round_trip (VNumber (-3)) 1500 ∅) as (H1 & H2 & H3 & _).
  split.
  - apply H1. unfold MAX_SAFE_INTEGER. lia.
  - apply H2, H3. right. right. right. exists (-3)%Z. split; [reflexivity | lia].
Defined.

Lemma footer_get_set (name : jstring) (n : Z) (el : attributes) :
  (0 <= n)%Z ->
  (let count := getAttribute name (setAttribute name (VNumber n) el) in
   if all_digits (to_string count) then parseInt (to_string count) else 0%Z) = n.
Proof.
  intros Hn. cbv zeta. rewrite getAttribute_set. cbn [to_string].
  rewrite all_digits_number, bool_decide_eq_true_2 by exact Hn.
  now apply parseInt_number.
Qed.

(** X20.  The counters of the footer: a non-negative safe integer written
    to [active] or [completed] is read back as it is and leaves the other
    counter alone; a negative one is refused with the error of the
    setter; a counter whose attribute is missing reads as 0 and no counter
    ever reads as negative.  [itemsLeft] says "item" for one active item
    and "items" for every other count. *)
Theorem footer_counters (n : Z) (el : attributes) :
  ((0 <= n <= MAX_SAFE_INTEGER)%Z ->
   exists el1 el2,
     TodoFooter.set_active (VNumber n) el = Normal el1 /\
     TodoFooter.get_active el1 = n /\
     TodoFooter.get_completed el1 = TodoFooter.get_completed el /\
     TodoFooter.itemsLeft el1
     = number_to_string n ++ (if (n =? 1)%Z then js " item left" else js " items left") /\
     TodoFooter.set_completed (VNumber n) el = Normal el2 /\
     TodoFooter.get_completed el2 = n /\
     TodoFooter.get_active el2 = TodoFooter.get_active el) /\
  ((n < 0)%Z ->
   TodoFooter.set_active (VNumber n) el
   = Throw (Error ("Only integers are allowed as the number of "
                     ++ TodoFooter.quoted "active" ++ " items.")) /\
   TodoFooter.set_completed (VNumber n) el
   = Throw (Error ("Only integers are allowed as the number of "
                     ++ TodoFooter.quoted "completed" ++ " items."))) /\
  (el !! js "active" = None ->
   TodoFooter.get_active el = 0%Z /\ TodoFooter.itemsLeft el = js "0 items left") /\
  (0 <= TodoFooter.get_active el)%Z /\ (0 <= TodoFooter.get_completed el)%Z.
Proof.
  split; [|split; [|split; [|split]]].
  - intros [Hn _].
    unfold TodoFooter.set_active, TodoFooter.set_completed. cbn [to_string].
    rewrite all_digits_number, bool_decide_eq_true_2 by exact Hn. cbn [negb].
    assert (Ha : TodoFooter.get_active (setAttribute (js "active") (VNumber n) el) = n)
      by exact (footer_get_set (js "active") n el Hn).
    eexists _, _. split; [reflexivity|]. split; [exact Ha|]. split.
    { unfold TodoFooter.get_completed. rewrite getAttribute_set_other; [reflexivity|].
      vm_compute. discriminate. }
    split.
    { unfold TodoFooter.itemsLeft. rewrite Ha. now destruct (n =? 1)%Z. }
    split; [reflexivity|]. split.
    { exact (footer_get_set (js "completed") n el Hn). }
    unfold TodoFooter.get_active. rewrite getAttribute_set_other; [reflexivity|].
    vm_compute. discriminate.
  - intros Hn.
    unfold TodoFooter.set_active, TodoFooter.set_completed. cbn [to_string].
    rewrite all_digits_number, bool_decide_eq_false_2 by lia. now split.
  - intros Hnone.
    assert (Ha : TodoFooter.get_active el = 0%Z).
    { unfold TodoFooter.get_active, getAttribute. now rewrite Hnone. }
    split; [exact Ha|]. unfold TodoFooter.itemsLeft. now rewrite Ha.
  - unfold TodoFooter.get_active. destruct (all_digits _) eqn:E; [|lia].
    now apply parseInt_nonneg, all_digits_forall.
  - unfold TodoFooter.get_completed. destruct (all_digits _) eqn:E; [|lia].
    now apply parseInt_nonneg, all_digits_forall.
Qed.

Lemma footer_counters_witness :
  exists el1,
    TodoFooter.set_active (VNumber 1) ∅ = Normal el1 /\
    TodoFooter.get_active el1 = 1%Z /\
    TodoFooter.itemsLeft el1 = js "1 item left".
Proof.
  destruct (footer_counters 1 ∅) as (H & _).
  destruct H as (el1 & el2 & H1 & H2 & _ & H3 & _); [unfold MAX_SAFE_INTEGER; lia|].
  exists el1. split; [exact H1|]. split; [exact H2 | exact H3].
Defined.

(** *** The selector of [byId] *)

Lemma is_name_not_backslash (c : N) : is_name c = true -> (c =? 92) = false.
Proof.
  intros H. destruct (N.eqb_spec c 92) as [->|]; [discriminate H | reflexivity].
Qed.

Lemma css_name_plain (s out : jstring) :
  forallb is_name s = true -> css_name CName s out = Some (rev out ++ s).
Proof.
  revert out. induction s as [|c s IH]; intros out; cbn [css_name forallb].
  - intros _. now rewrite app_nil_r.
  - intros [Hc Hs]%andb_true_iff.
    rewrite (is_name_not_backslash c Hc), Hc, (IH _ Hs).
    cbn [rev]. now rewrite <- app_assoc.
Qed.

Lemma is_digit_name (c : N) : is_digit c = true -> is_name c = true.
Proof. unfold is_name. intros ->. now rewrite orb_true_r. Qed.

Lemma css_id_selector (id : value) :
  plain_name (to_string id) -> css_id (selector id) = Some (to_string id).
Proof.
  unfold selector, plain_name. destruct (to_string id) as [|c rest]; [intros []|].
  intros [Hc Hrest]. destruct (is_digit c) eqn:Hd.
  - assert (Hcases : c = 48 \/ c = 49 \/ c = 50 \/ c = 51 \/ c = 52 \/
                     c = 53 \/ c = 54 \/ c = 55 \/ c = 56 \/ c = 57).
    { unfold is_digit in Hd. apply andb_true_iff in Hd as [H1 H2].
      apply N.leb_le in H1, H2. lia. }
    destruct Hcases as [->|[->|[->|[->|[->|[->|[->|[->|[->| ->]]]]]]]]];
      cbn; now rewrite (css_name_plain rest _ Hrest).
  - rewrite orb_false_r in Hc. cbn [app css_id]. rewrite Hc. cbn [orb].
    rewrite (css_name_plain (c :: rest) []); [reflexivity|].
    cbn [forallb]. rewrite Hrest. unfold is_name. now rewrite Hc.
Qed.

Lemma digits_plain (s : jstring) : all_digits s = true -> plain_name s.
Proof.
  unfold plain_name. destruct s as [|c rest]; [discriminate|].
  cbn [all_digits forallb]. intros [Hc Hrest]%andb_true_iff.
  split; [now rewrite Hc, orb_true_r|].
  apply forallb_forall. intros x Hx. apply is_digit_name.
  rewrite forallb_forall in Hrest. auto.
Qed.

Lemma number_plain (z : Z) : (0 <= z)%Z -> plain_name (number_to_string z).
Proof.
  intros Hz. apply digits_plain. rewrite all_digits_number.
  now apply bool_decide_eq_true_2.
Qed.

(** X21.  [byId] finds an element by an id that starts with a digit: for
    a non-negative integer, or a string of decimal digits, the selector it
    builds is the ID selector of the very digits of the id -- the escape
    of the first digit reads as that digit -- so the call returns the
    first row whose [id] attribute is that string, or [null] when there is
    none. *)
Theorem byId_selects_by_id (id : value) (rows : list attributes) :
  timestamp id \/ digits id ->
  css_id (selector id) = Some (to_string id) /\
  byId id rows
  = Some (fst <$> list_find (fun el => el !! js "id" = Some (to_string id)) rows).
Proof.
  intros H.
  assert (Hp : plain_name (to_string id)).
  { destruct H as [(z & -> & Hz)|(s & -> & Hs)];
      [apply number_plain; lia | now apply digits_plain]. }
  pose proof (css_id_selector id Hp) as Hsel.
  split; [exact Hsel|]. unfold byId, querySelector. now rewrite Hsel.
Qed.

Lemma byId_selects_by_id_witness :
  css_id (selector (VNumber 1500)) = Some (js "1500") /\
  byId (VNumber 1500) [ {[ js "id" := js "7" ]}; {[ js "id" := js "1500" ]} ]
  = Some (Some 1%nat).
Proof.
  destruct (byId_selects_by_id (VNumber 1500)
              [ {[ js "id" := js "7" ]}; {[ js "id" := js "1500" ]} ]) as [H1 H2].
  - left. exists 1500%Z. split; [reflexivity | unfold MAX_SAFE_INTEGER; lia].
  - split; [exact H1|]. rewrite H2. reflexivity.
Defined.

(** *** The rows of the list *)

Lemma map_fmap {A B} (f : A -> B) (l : list A) : List.map f l = f <$> l.
Proof. reflexivity. Qed.

Lemma lookup_set_completed (v : value) (el : attributes) (j : jstring) :
  TodoItem.set_completed v el !! j
  = if decide (j = js "completed")
    then (if truthy v then Some ([] : jstring) else None)
    else el !! j.
Proof.
  unfold TodoItem.set_completed, setAttribute, removeAttribute.
  destruct (decide (j = js "completed")) as [->|Hj], (truthy v).
  - apply lookup_insert_eq.
  - apply lookup_delete_eq.
  - now rewrite lookup_insert_ne.
  - now rewrite lookup_delete_ne.
Qed.

Lemma lookup_set_title (v : value) (el : attributes) (j : jstring) :
  TodoItem.set_title v el !! j
  = if decide (j = js "title")
    then Some (to_string (if truthy v then v else VString []))
    else el !! j.
Proof.
  unfold TodoItem.set_title, setAttribute.
  destruct (decide (j = js "title")) as [->|Hj].
  - apply lookup_insert_eq.
  - now rewrite lookup_insert_ne.
Qed.

Lemma row_lookup (t : obj) (j : jstring) :
  row_of t !! j
  = if decide (j = js "completed")
    then (if truthy (get t (js "completed")) then Some ([] : jstring) else None)
    else if decide (j = js "title")
    then Some (to_string (if truthy (get t (js "title"))
                          then get t (js "title") else VString []))
    else if decide (j = js "id") then Some (to_string (get t (js "id")))
    else None.
Proof.
  unfold row_of. rewrite lookup_set_completed, lookup_set_title. unfold setAttribute.
  destruct (decide (j = js "completed")); [reflexivity|].
  destruct (decide (j = js "title")); [reflexivity|].
  destruct (decide (j = js "id")) as [->|Hj].
  - apply lookup_insert_eq.
  - rewrite lookup_insert_ne by congruence. apply lookup_empty.
Qed.

Lemma row_id (t : obj) : row_of t !! js "id" = Some (to_string (get t (js "id"))).
Proof.
  rewrite row_lookup.
  destruct (decide (js "id" = js "completed")) as [E|_]; [vm_compute in E; discriminate E|].
  destruct (decide (js "id" = js "title")) as [E|_]; [vm_compute in E; discriminate E|].
  destruct (decide (js "id" = js "id")) as [_|E]; [reflexivity | now destruct E].
Qed.

(** A row that gets the title and the flag of a record with its id is the
    row of that record. *)
Lemma row_update (t item : obj) :
  get item (js "id") = get t (js "id") ->
  TodoItem.set_completed (get item (js "completed"))
    (TodoItem.set_title (get item (js "title")) (row_of t))
  = row_of item.
Proof.
  intros E. apply map_eq. intros j.
  rewrite lookup_set_completed, lookup_set_title, !row_lookup, E.
  repeat destruct (decide _); reflexivity.
Qed.

Lemma row_shows (t : obj) :
  timestamp (get t (js "id")) -> shows (row_of t) t.
Proof.
  intros (z & Hid & Hz). unfold shows. split; [|split].
  - unfold TodoItem.get_id, getAttribute. rewrite row_id, Hid. cbn [to_string].
    rewrite all_digits_number, bool_decide_eq_true_2 by lia.
    rewrite parseInt_number by lia. reflexivity.
  - unfold TodoItem.get_title, getAttribute. rewrite row_lookup.
    destruct (decide (js "title" = js "completed")) as [E|_];
      [vm_compute in E; discriminate E|].
    destruct (decide (js "title" = js "title")) as [_|E]; [reflexivity | now destruct E].
  - unfold TodoItem.get_completed, hasAttribute. rewrite row_lookup.
    destruct (decide (js "completed" = js "completed")) as [_|E]; [|now destruct E].
    destruct (truthy _); [apply bool_decide_eq_true_2; eauto|].
    apply bool_decide_eq_false_2. intros [x Hx]. discriminate Hx.
Qed.

Lemma mirror_shows (todos : list obj) :
  numbered todos -> Forall2 shows (rows (mirror todos)) todos.
Proof.
  unfold numbered, ids, mirror. cbn [rows].
  induction todos as [|t todos IH]; intros H; [constructor|].
  cbn [List.map] in *. apply Forall_cons in H as [Ht H].
  constructor; [now apply row_shows | now apply IH].
Qed.

(** The strings of two ids of items are the same for the same id only. *)
Lemma to_string_id_inj (a b : value) :
  timestamp a -> item_id b ->
  to_string a = to_string b -> a = b.
Proof.
  intros (z & -> & Hz) [->|(z' & -> & Hz')]; cbn [to_string]; intros E.
  - pose proof (all_digits_number z) as H. rewrite E in H.
    rewrite bool_decide_eq_true_2 in H by lia. discriminate H.
  - f_equal. apply number_to_string_inj; [lia | lia | exact E].
Qed.

Lemma numbered_lookup (todos : list obj) (k : nat) (t : obj) :
  numbered todos -> todos !! k = Some t ->
  timestamp (get t (js "id")).
Proof.
  unfold numbered, ids. rewrite map_fmap, Forall_fmap, Forall_forall.
  intros H Hk. apply (H t). apply list_elem_of_lookup. eauto.
Qed.

Lemma ids_lookup (todos : list obj) (k : nat) (t : obj) :
  todos !! k = Some t -> ids todos !! k = Some (get t (js "id")).
Proof. intros H. unfold ids. now rewrite map_fmap, list_lookup_fmap, H. Qed.

Lemma ids_elem (todos : list obj) (x : obj) : x ∈ todos -> get x (js "id") ∈ ids todos.
Proof.
  intros [k Hk]%list_elem_of_lookup. apply list_elem_of_lookup. exists k.
  now apply ids_lookup.
Qed.

(** The row [byId] finds is the row of the record with the id. *)
Lemma find_row_some (todos : list obj) (k : nat) (t : obj) (i : value) :
  NoDup (ids todos) -> numbered todos ->
  todos !! k = Some t -> get t (js "id") = i ->
  list_find (fun el : attributes => el !! js "id" = Some (to_string i))
            (List.map row_of todos)
  = Some (k, row_of t).
Proof.
  intros Hnd Hnum Hk Hi. apply list_find_Some. split; [|split].
  - now rewrite map_fmap, list_lookup_fmap, Hk.
  - now rewrite row_id, Hi.
  - intros j y Hj Hlt Hy. rewrite map_fmap, list_lookup_fmap in Hj.
    destruct (todos !! j) as [t'|] eqn:Hj'; [|discriminate Hj].
    injection Hj as <-. rewrite row_id in Hy. injection Hy as Hy.
    destruct (numbered_lookup _ _ _ Hnum Hk) as (z & Hz & Hz0).
    assert (E : get t' (js "id") = i).
    { apply to_string_id_inj; [now apply (numbered_lookup todos j)| |exact Hy].
      right. exists z. split; [congruence | exact Hz0]. }
    pose proof (ids_lookup _ _ _ Hj') as H1. pose proof (ids_lookup _ _ _ Hk) as H2.
    rewrite E in H1. rewrite Hi in H2.
    pose proof (NoDup_lookup _ _ _ _ Hnd H1 H2). lia.
Qed.

Lemma find_row_none (todos : list obj) (i : value) :
  numbered todos -> item_id i -> i ∉ ids todos ->
  list_find (fun el : attributes => el !! js "id" = Some (to_string i))
            (List.map row_of todos)
  = None.
Proof.
  intros Hnum Hi Hnot. apply list_find_None.
  rewrite map_fmap, Forall_fmap, Forall_forall. intros t Ht. cbn.
  rewrite row_id. intros [= Hy]. apply Hnot.
  apply list_elem_of_lookup in Ht as [k Hk].
  assert (E : get t (js "id") = i).
  { apply to_string_id_inj; [now apply (numbered_lookup todos k) | exact Hi | exact Hy]. }
  rewrite <- E. apply list_elem_of_lookup. exists k. now apply ids_lookup.
Qed.

Lemma byId_id (i : value) (rows : list attributes) :
  item_id i ->
  byId i rows
  = Some (fst <$> list_find (fun el : attributes => el !! js "id" = Some (to_string i)) rows).
Proof.
  intros Hi. unfold byId, querySelector. rewrite css_id_selector; [reflexivity|].
  destruct Hi as [->|(z & -> & Hz)]; [|apply number_plain; lia].
  split; reflexivity.
Qed.

Lemma alter_map {A B} (f : B -> B) (g : A -> B) (l : list A) (k : nat) (t x : A) :
  l !! k = Some t -> f (g t) = g x ->
  alter f k (List.map g l) = List.map g (<[k := x]> l).
Proof.
  revert k. induction l as [|a l IH]; intros [|k] Hk E; try discriminate Hk.
  - injection Hk as ->. cbn. now rewrite E.
  - cbn. f_equal. now apply IH.
Qed.

Lemma delete_map {A B} (g : A -> B) (l : list A) (k : nat) :
  delete k (List.map g l) = List.map g (delete k l).
Proof. rewrite !map_fmap. symmetry. apply list_fmap_delete. Qed.

(** With distinct ids, the filter of [removeTodo] takes out one record. *)
Lemma filter_delete (todos : list obj) (k : nat) (t : obj) :
  NoDup (ids todos) -> todos !! k = Some t ->
  filter (fun todo => get todo (js "id") <> get t (js "id")) todos = delete k todos.
Proof.
  revert k. induction todos as [|a l IH]; intros [|k] Hnd Hk; try discriminate Hk.
  - injection Hk as ->. unfold ids in Hnd. cbn [List.map] in Hnd.
    apply NoDup_cons in Hnd as [Hnot _].
    rewrite filter_cons_False by (intros H; now apply H).
    change (delete 0%nat (t :: l)) with l.
    apply filter_id. intros x Hx E. apply Hnot. rewrite <- E.
    apply ids_elem. now apply list_elem_of_In.
  - change (l !! k = Some t) in Hk. unfold ids in Hnd. cbn [List.map] in Hnd.
    apply NoDup_cons in Hnd as [Hnot Hnd].
    rewrite filter_cons_True.
    + change (delete (S k) (a :: l)) with (a :: delete k l). f_equal. now apply IH.
    + intros E. apply Hnot. rewrite E. apply list_elem_of_lookup. exists k.
      now apply ids_lookup.
Qed.

(** *** What the listeners do to the rows of a collection *)

Lemma show_added (item : obj) (todos : list obj) :
  timestamp (get item (js "id")) ->
  show (TodoAdded item) (mirror todos) = Some (mirror (todos ++ [item])).
Proof.
  intros (z & Hid & Hz). unfold show, TodoList.addTodo, TodoItem.set_id.
  rewrite Hid. cbn [to_string].
  rewrite all_digits_number, bool_decide_eq_true_2 by lia. cbn [negb].
  unfold after, mirror. cbn [rows awaiting]. rewrite List.map_app. cbn [List.map].
  unfold row_of. now rewrite Hid.
Qed.

Lemma show_updated (item t : obj) (todos : list obj) (k : nat) :
  NoDup (ids todos) -> numbered todos ->
  todos !! k = Some t -> get item (js "id") = get t (js "id") ->
  show (TodoUpdated item) (mirror todos) = Some (mirror (<[k := item]> todos)).
Proof.
  intros Hnd Hnum Hk Hid. unfold show, TodoList.updateTodo.
  destruct (numbered_lookup _ _ _ Hnum Hk) as (z & Hz & Hz0).
  rewrite byId_id by (right; exists z; split; [congruence | exact Hz0]).
  unfold mirror at 1. cbn [rows].
  rewrite (find_row_some todos k t _ Hnd Hnum Hk (eq_sym Hid)). cbn [fmap option_fmap option_map fst].
  unfold after, mirror. cbn [rows awaiting]. do 2 f_equal.
  apply alter_map with (t := t); [exact Hk | now apply row_update].
Qed.

Lemma show_removed (i : value) (todos : list obj) :
  NoDup (ids todos) -> numbered todos -> item_id i ->
  show (TodoRemoved [(js "id", i)]) (mirror todos)
  = Some (mirror (filter (fun todo => get todo (js "id") <> i) todos)).
Proof.
  intros Hnd Hnum Hi. unfold show, TodoList.removeTodo.
  change (get [(js "id", i)] (js "id")) with i.
  rewrite byId_id by exact Hi. unfold mirror at 1. cbn [rows].
  destruct (decide (i ∈ ids todos)) as [Hin|Hnot].
  - apply list_elem_of_lookup in Hin as [k Hk].
    unfold ids in Hk. rewrite map_fmap, list_lookup_fmap in Hk.
    destruct (todos !! k) as [t|] eqn:Hk'; [|discriminate Hk].
    injection Hk as Hk.
    rewrite (find_row_some todos k t i Hnd Hnum Hk' Hk).
    cbn [fmap option_fmap option_map fst].
    unfold after, mirror. cbn [rows awaiting]. do 2 f_equal.
    rewrite <- Hk, (filter_delete todos k t Hnd Hk'). apply delete_map.
  - rewrite (find_row_none todos i Hnum Hi Hnot). cbn [fmap option_fmap option_map].
    unfold after. f_equal. f_equal. symmetry. apply filter_id.
    intros x Hx E. apply Hnot. rewrite <- E.
    apply ids_elem. now apply list_elem_of_In.
Qed.

(** *** The events of the store on the screen *)

Lemma screen_app (events events' : list event) (v : view) :
  screen (events ++ events') v
  = match screen events v with
    | Some v' => screen events' v'
    | None => None
    end.
Proof.
  revert v. induction events as [|e events IH]; intros v; cbn [app screen]; [reflexivity|].
  destruct (show e v); [apply IH | reflexivity].
Qed.

Lemma shown_dispatch (v : view) (e : event) (st : state) (todos todos' : list obj) :
  shown v st todos -> show e (mirror todos) = Some (mirror todos') ->
  shown v (dispatch e st) todos'.
Proof.
  unfold shown. intros H He. cbn [dispatch dispatched].
  rewrite screen_app, H. cbn [screen]. now rewrite He.
Qed.

Lemma shown_same (v : view) (st st' : state) (todos : list obj) :
  dispatched st' = dispatched st -> shown v st todos -> shown v st' todos.
Proof. unfold shown. now intros ->. Qed.

Lemma shown_dispatchCountUpdated (v : view) (st : state) (todos : list obj) :
  shown v st todos -> shown v (dispatchCountUpdated st) todos.
Proof.
  intros H. unfold dispatchCountUpdated. destruct (count st); try exact H.
  now apply (shown_dispatch v _ st todos).
Qed.

Lemma shown_iter_count (v : view) (n : nat) (st : state) (todos : list obj) :
  shown v st todos -> shown v (Nat.iter n dispatchCountUpdated st) todos.
Proof.
  intros H. induction n; simpl; [exact H | now apply shown_dispatchCountUpdated].
Qed.

Lemma shown_deliver (v : view) scans (st : state) (todos : list obj) :
  shown v st todos -> shown v (deliver scans st) todos.
Proof.
  unfold deliver. revert st.
  induction scans as [|[c|r|] scans IH]; intros st H; simpl; auto.
  apply IH. now apply (shown_dispatch v _ st todos).
Qed.

Lemma holds_written (todos : list obj) (e : event) (st : state) :
  holds (dispatch e (setLocalStorage todos st)) todos.
Proof. reflexivity. Qed.

Lemma numbered_ids (todos todos' : list obj) :
  ids todos' = ids todos -> numbered todos -> numbered todos'.
Proof. unfold numbered. now intros ->. Qed.

Lemma numbered_sub (todos todos' : list obj) :
  ids todos' `sublist_of` ids todos -> numbered todos -> numbered todos'.
Proof.
  unfold numbered. intros Hsub H. apply Forall_forall. intros x Hx.
  rewrite Forall_forall in H. apply H. eapply elem_of_sublist; eauto.
Qed.

(** A committed change of the store and the row of its event. *)
Lemma shown_added (v : view) (st : state) (todos : list obj) (item : obj) :
  timestamp (get item (js "id")) ->
  shown v st todos ->
  shown v (dispatch (TodoAdded item) (setLocalStorage (todos ++ [item]) st))
        (todos ++ [item]).
Proof.
  intros Hid H. apply (shown_dispatch v _ _ todos); [exact H | now apply show_added].
Qed.

Lemma shown_updated (v : view) (st : state) (todos l : list obj) (k : nat) (t item : obj) :
  NoDup (ids todos) -> numbered todos ->
  todos !! k = Some t -> get item (js "id") = get t (js "id") ->
  shown v st todos ->
  shown v (dispatch (TodoUpdated item) (setLocalStorage l st)) (<[k := item]> todos).
Proof.
  intros Hnd Hnum Hk Hid H.
  apply (shown_dispatch v _ _ todos); [exact H | now apply (show_updated item t)].
Qed.

Lemma shown_removed (v : view) (st : state) (todos l : list obj) (i : value) :
  NoDup (ids todos) -> numbered todos -> item_id i ->
  shown v st todos ->
  shown v (dispatch (TodoRemoved [(js "id", i)]) (setLocalStorage l st))
        (filter (fun todo => get todo (js "id") <> i) todos).
Proof.
  intros Hnd Hnum Hi H.
  apply (shown_dispatch v _ _ todos); [exact H | now apply show_removed].
Qed.

(** A call of [updateTodo] and the list. *)
Lemma updateTodo_call_shown (v : view) (update : obj) (st : state) (cur : list obj) :
  holds st cur -> NoDup (ids cur) -> numbered cur -> shown v st cur ->
  exists r cur',
    fst (updateTodo_call update st) = Normal r /\
    holds (snd (updateTodo_call update st)) cur' /\
    ids cur' = ids cur /\
    shown v (snd (updateTodo_call update st)) cur'.
Proof.
  intros Hst Hnd Hnum Hsh.
  destruct (decide (get update (js "id") ∈ ids cur)) as [Hin|Hnot].
  - assert (Hex : exists t, In t cur /\ get t (js "id") = get update (js "id")).
    { apply list_elem_of_lookup in Hin as [k Hk].
      unfold ids in Hk. rewrite map_fmap, list_lookup_fmap in Hk.
      destruct (cur !! k) as [t|] eqn:Hk'; [|discriminate Hk]. injection Hk as Hk.
      exists t. split; [|exact Hk].
      apply list_elem_of_In, list_elem_of_lookup. eauto. }
    destruct (update_loop_some _ update cur Hex) as (k & t & Hk & Ht & _ & Hloop).
    rewrite (updateTodo_call_found _ _ _ _ _ Hst Hloop). cbn [fst snd].
    assert (Hid : get (assign t update) (js "id") = get t (js "id"))
      by now apply get_assign_id.
    eexists _, _. split; [reflexivity|]. split; [apply holds_written|]. split.
    + now apply (ids_insert cur k t).
    + now apply (shown_updated v st cur _ k t).
  - rewrite (updateTodo_call_missing update st cur cur Hst).
    + cbn [fst snd]. eexists _, cur. repeat split; [exact Hst | exact Hsh].
    + apply update_loop_none. now apply ids_not_in.
Qed.

(** The step of [toggleAll] on a record of the element: the record is
    changed where it is, and the event that follows redraws its row. *)
Lemma toggle_step_shown (v : view) (st : state) (cur : list obj) (i : nat)
    (old : obj) (c : value) :
  liveTodos st = Some cur -> NoDup (ids cur) -> numbered cur -> shown v st cur ->
  cur !! i = Some old ->
  let item := set old (js "completed") c in
  exists st',
    updateTodo_call item (with_live (<[i := item]> cur) st)
    = (Normal (Resolved item), st') /\
    liveTodos st' = Some (<[i := item]> cur) /\
    shown v st' (<[i := item]> cur).
Proof.
  intros Hlive Hnd Hnum Hsh Hi item.
  assert (Hid : get item (js "id") = get old (js "id")) by apply get_set_id.
  assert (Hids : ids (<[i := item]> cur) = ids cur) by now apply (ids_insert cur i old).
  assert (Hi' : <[i := item]> cur !! i = Some item).
  { apply list_lookup_insert_eq. now apply lookup_lt_Some in Hi. }
  assert (Hex : exists t, In t (<[i := item]> cur) /\ get t (js "id") = get item (js "id")).
  { exists item. split; [|reflexivity]. apply list_elem_of_In, list_elem_of_lookup. eauto. }
  destruct (update_loop_some _ item _ Hex) as (k & t & Hk & Ht & _ & Hloop).
  assert (k = i).
  { pose proof (ids_lookup _ _ _ Hk) as H1. pose proof (ids_lookup _ _ _ Hi') as H2.
    rewrite Ht in H1. rewrite Hids in H1, H2. exact (NoDup_lookup _ _ _ _ Hnd H1 H2). }
  subst k. assert (t = item) by congruence. subst t.
  rewrite assign_self, list_insert_insert_eq in Hloop.
  rewrite (updateTodo_call_found item _ _ _ _ (holds_with_live _ st) Hloop).
  eexists. split; [reflexivity|]. split; [reflexivity|].
  apply (shown_dispatch v _ _ cur).
  - apply (shown_same v st); [reflexivity | exact Hsh].
  - now apply (show_updated item old).
Qed.

Lemma toggle_live_shown (v : view) (c : value) (places : list nat) :
  forall (st : state) (n : nat) (cur : list obj),
    liveTodos st = Some cur -> NoDup (ids cur) -> numbered cur -> shown v st cur ->
    exists cur',
      liveTodos (fst (toggle_live c places st n)) = Some cur' /\
      ids cur' = ids cur /\
      shown v (fst (toggle_live c places st n)) cur'.
Proof.
  induction places as [|i places IH]; intros st n cur Hlive Hnd Hnum Hsh; [eauto|].
  cbn [toggle_live]. rewrite Hlive.
  destruct (cur !! i) as [old|] eqn:Hi; [|exact (IH st n cur Hlive Hnd Hnum Hsh)].
  destruct (toggle_step_shown v st cur i old c Hlive Hnd Hnum Hsh Hi)
    as (st' & -> & Hlive' & Hsh').
  assert (Hids : ids (<[i := set old (js "completed") c]> cur) = ids cur)
    by (apply (ids_insert cur i old); [exact Hi | apply get_set_id]).
  destruct (IH st' (S n) _ Hlive') as (cur' & H1 & H2 & H3).
  - now rewrite Hids.
  - now apply (numbered_ids cur).
  - exact Hsh'.
  - exists cur'. split; [exact H1|]. split; [congruence | exact H3].
Qed.

Lemma toggle_copies_shown (v : view) (c : value) (items : list obj) :
  forall (st : state) (n : nat) (cur : list obj),
    holds st cur -> NoDup (ids cur) -> numbered cur -> shown v st cur ->
    exists cur',
      holds (fst (toggle_copies c items st n)) cur' /\
      ids cur' = ids cur /\
      shown v (fst (toggle_copies c items st n)) cur'.
Proof.
  induction items as [|item items IH]; intros st n cur Hst Hnd Hnum Hsh; [eauto|].
  cbn [toggle_copies].
  destruct (updateTodo_call_shown v (set item (js "completed") c) st cur Hst Hnd Hnum Hsh)
    as (r & cur1 & Hr & Hh & Hids & Hsh1).
  destruct (updateTodo_call (set item (js "completed") c) st) as [o st2].
  cbn [fst snd] in *. subst o.
  assert (Hnd1 : NoDup (ids cur1)) by now rewrite Hids.
  assert (Hnum1 : numbered cur1) by now apply (numbered_ids cur).
  destruct r as [it|rs|];
    [destruct (IH st2 (S n) cur1 Hh Hnd1 Hnum1 Hsh1) as (cur' & H1 & H2 & H3)
    |destruct (IH st2 n cur1 Hh Hnd1 Hnum1 Hsh1) as (cur' & H1 & H2 & H3) ..];
    exists cur'; (split; [exact H1|]; split; [congruence | exact H3]).
Qed.

Lemma clear_loop_shown (v : view) (items : list obj) :
  Forall (fun item => item_id (get item (js "id"))) items ->
  forall (st : state) scans (cur : list obj),
    holds st cur -> NoDup (ids cur) -> numbered cur -> shown v st cur ->
    exists cur',
      holds (fst (clear_loop items st scans)) cur' /\
      shown v (fst (clear_loop items st scans)) cur'.
Proof.
  induction 1 as [|item items Hitem _ IH]; intros st scans cur Hst Hnd Hnum Hsh; [eauto|].
  cbn [clear_loop]. rewrite (removeTodo_call_ok _ _ _ Hst).
  pose proof (ids_filter_sublist
                (fun todo => get todo (js "id") <> get item (js "id")) cur) as Hsub.
  apply (IH _ _ (filter (fun todo => get todo (js "id") <> get item (js "id")) cur)).
  - apply holds_written.
  - now apply (sublist_NoDup _ (ids cur)).
  - now apply (numbered_sub cur).
  - now apply shown_removed.
Qed.

(** What a listener of an intent leaves on the screen. *)
Lemma listen_shown (v : view) (i : intent) (st : state) (todos : list obj) :
  holds st todos -> NoDup (ids todos) -> numbered todos -> shown v st todos ->
  from_item i ->
  (forall d now, i = AddTodo d now -> (0 <= now <= MAX_SAFE_INTEGER)%Z) ->
  exists todos', holds (listen i st) todos' /\ shown v (listen i st) todos'.
Proof.
  intros Hst Hnd Hnum Hsh Hi Hnow. destruct i as [d now|d|d|d|]; cbn [listen].
  - destruct (empty_title (get d (js "title"))) eqn:E.
    + rewrite (addTodo_empty _ now _ _ Hst E). cbn [snd]. eauto.
    + pose proof (addTodo_ok _ now _ _ Hst E) as Eq. cbv zeta in Eq.
      rewrite Eq. cbn [snd]. eexists. split; [apply holds_committed|].
      unfold committed. apply shown_dispatchCountUpdated, shown_added; [|exact Hsh].
      exists now. split; [reflexivity | exact (Hnow d now eq_refl)].
  - rewrite (holds_after_removeTodo _ _ _ Hst). cbn [snd].
    eexists. split; [apply holds_committed|].
    unfold committed. apply shown_dispatchCountUpdated. now apply shown_removed.
  - destruct (updateTodo_call_shown v d st todos Hst Hnd Hnum Hsh)
      as (r & cur' & Hr & Hh & _ & Hsh').
    rewrite updateTodo_is_call.
    destruct (updateTodo_call d st) as [o st']. cbn [fst snd] in *. subst o.
    destruct r as [it|rs|]; cbn [snd]; eauto.
    exists cur'. split; [now apply holds_dispatchCountUpdated|].
    now apply shown_dispatchCountUpdated.
  - unfold toggleAll.
    set (c := get d (js "completed")).
    set (q := [(js "completed", VBool (negb (truthy c)))]).
    assert (Hfind : find (Some q) st
                    = Normal (Resolved (List.filter (query_matches (keys q) q) todos)))
      by (unfold find; now rewrite Hst).
    rewrite Hfind.
    destruct (liveTodos st) as [live|] eqn:Hlive.
    + pose proof (holds_live _ _ _ Hlive Hst) as ->.
      destruct (toggle_live_shown v c (positions (query_matches (keys q) q) todos 0)
                  st 0 todos Hlive Hnd Hnum Hsh) as (cur' & H1 & _ & H3).
      destruct (toggle_live c _ st 0) as [st' n]. cbn [fst snd] in *.
      exists cur'. split; [|now apply shown_iter_count].
      apply holds_iter_count. unfold holds, getLocalStorage. now rewrite H1.
    + destruct (toggle_copies_shown v c (List.filter (query_matches (keys q) q) todos)
                  st 0 todos Hst Hnd Hnum Hsh) as (cur' & H1 & _ & H3).
      destruct (toggle_copies c _ st 0) as [st' n]. cbn [fst snd] in *.
      exists cur'. split; [now apply holds_iter_count | now apply shown_iter_count].
  - unfold clearCompleted.
    set (q := [(js "completed", VBool true)]).
    assert (Hfind : find (Some q) st
                    = Normal (Resolved (List.filter (query_matches (keys q) q) todos)))
      by (unfold find; now rewrite Hst).
    rewrite Hfind.
    assert (Hitems : Forall (fun item => item_id (get item (js "id")))
                       (List.filter (query_matches (keys q) q) todos)).
    { apply Forall_forall. intros x Hx. apply list_elem_of_In in Hx.
      apply List.filter_In in Hx as [Hx _]. apply list_elem_of_In in Hx.
      apply list_elem_of_lookup in Hx as [k Hk]. right.
      exact (numbered_lookup todos k x Hnum Hk). }
    destruct (clear_loop_shown v _ Hitems st [] todos Hst Hnd Hnum Hsh)
      as (cur' & H1 & H2).
    destruct (clear_loop _ st []) as [st' scans]. cbn [fst snd] in *.
    exists cur'. split; [now apply holds_deliver | now apply shown_deliver].
Qed.

(** *** [render] *)

Lemma addTodo_row (item : obj) (rows : list attributes) :
  timestamp (get item (js "id")) ->
  TodoList.addTodo item rows = Returns (rows ++ [row_of item]).
Proof.
  intros (z & Hid & Hz). unfold TodoList.addTodo, TodoItem.set_id, row_of.
  rewrite Hid. cbn [to_string].
  now rewrite all_digits_number, bool_decide_eq_true_2 by lia.
Qed.

Lemma render_loop_numbered (todos : list obj) :
  numbered todos ->
  forall rows, TodoList.render_loop todos rows = (rows ++ List.map row_of todos, None).
Proof.
  unfold numbered, ids.
  induction todos as [|t todos IH]; intros H rows; cbn [TodoList.render_loop List.map].
  - now rewrite app_nil_r.
  - cbn [List.map] in H. apply Forall_cons in H as [Ht H].
    rewrite (addTodo_row t rows Ht), (IH H). now rewrite <- app_assoc.
Qed.

Lemma render_loop_app (pre rest : list obj) :
  numbered pre ->
  forall rows,
    TodoList.render_loop (pre ++ rest) rows
    = TodoList.render_loop rest (rows ++ List.map row_of pre).
Proof.
  unfold numbered, ids.
  induction pre as [|t pre IH]; intros H rows; cbn [app TodoList.render_loop List.map].
  - now rewrite app_nil_r.
  - cbn [List.map] in H. apply Forall_cons in H as [Ht H].
    rewrite (addTodo_row t rows Ht), (IH H). now rewrite <- app_assoc.
Qed.

(** X22.  [render] replaces the rows of the list by one row for each
    record, in order, each showing the id, the title and the completed
    flag of its record -- as long as the ids are timestamps, non-negative
    safe integers.
    At the first record whose id is not written in decimal digits the
    setter of the item throws, and [render] ends there: the records before
    it are shown, that record and the ones after it are not. *)
Theorem render_rows (pre suf : list obj) (bad : obj) (rows : list attributes) :
  numbered pre ->
  TodoList.render pre rows = (List.map row_of pre, None) /\
  Forall2 shows (fst (TodoList.render pre rows)) pre /\
  (all_digits (to_string (get bad (js "id"))) = false ->
   TodoList.render (pre ++ bad :: suf) rows
   = (List.map row_of pre,
      Some (Thrown (Error "Only integers are allowed as the id of items.")))).
Proof.
  intros Hnum. unfold TodoList.render.
  rewrite (render_loop_numbered pre Hnum). cbn [app fst].
  split; [reflexivity|]. split; [exact (mirror_shows pre Hnum)|].
  intros Hbad. rewrite (render_loop_app pre _ Hnum). cbn [app TodoList.render_loop].
  unfold TodoList.addTodo, TodoItem.set_id. now rewrite Hbad.
Qed.

Lemma render_rows_witness :
  TodoList.render [new_item (js "A") 5; new_item (js "B") 7] [∅]
  = (List.map row_of [new_item (js "A") 5; new_item (js "B") 7], None) /\
  TodoList.render ([new_item (js "A") 5] ++ [(js "title", VString (js "C"))]
                     :: [new_item (js "B") 7]) [∅]
  = (List.map row_of [new_item (js "A") 5],
     Some (Thrown (Error "Only integers are allowed as the id of items."))).
Proof.
  assert (H5 : timestamp (VNumber 5))
    by (exists 5%Z; split; [reflexivity | unfold MAX_SAFE_INTEGER; lia]).
  assert (H7 : timestamp (VNumber 7))
    by (exists 7%Z; split; [reflexivity | unfold MAX_SAFE_INTEGER; lia]).
  split.
  - apply (render_rows [new_item (js "A") 5; new_item (js "B") 7] [] [] [∅]).
    repeat constructor; assumption.
  - apply (render_rows [new_item (js "A") 5] [new_item (js "B") 7]
             [(js "title", VString (js "C"))] [∅]).
    + repeat constructor; assumption.
    + reflexivity.
Defined.

(** *** From the page load on *)

Lemma holds_unique (st : state) (a b : list obj) : holds st a -> holds st b -> a = b.
Proof. unfold holds. congruence. Qed.

Lemma ticking_cons (clock : Z) (i : intent) (rest : list intent) :
  ticking clock (i :: rest) <-> ticking clock [i] /\ ticking (last_tick clock [i]) rest.
Proof. destruct i; cbn [ticking last_tick]; tauto. Qed.

(** The ids after a listener: distinct non-negative timestamps still. *)
Lemma listen_fresh_ids (i : intent) (st : state) (clock : Z) (todos todos' : list obj) :
  holds st todos -> NoDup (ids todos) -> numbered todos -> stamped clock todos ->
  (0 <= clock)%Z -> ticking clock [i] ->
  (last_tick clock [i] <= MAX_SAFE_INTEGER)%Z ->
  holds (listen i st) todos' ->
  NoDup (ids todos') /\ numbered todos' /\ stamped (last_tick clock [i]) todos' /\
  (0 <= last_tick clock [i])%Z.
Proof.
  intros Hst Hnd Hnum Hstamp Hclock Htick Hlast Hst'.
  destruct (listen_ids i st todos Hst) as (todos1 & H1 & Hids).
  pose proof (holds_unique _ _ _ H1 Hst'). subst todos1.
  assert (Hsub : ids todos' `sublist_of` ids todos ->
                 NoDup (ids todos') /\ numbered todos' /\ stamped clock todos').
  { intros Hl. split; [now apply (sublist_NoDup _ (ids todos))|].
    split; [now apply (numbered_sub todos)|].
    unfold stamped in *. apply Forall_forall. intros x Hx.
    rewrite Forall_forall in Hstamp. apply Hstamp. eapply elem_of_sublist; eauto. }
  destruct i as [d now|d|d|d|]; cbn [ticking last_tick] in *;
    try (destruct (Hsub Hids) as (? & ? & ?); now repeat split).
  destruct Htick as [Hlt _].
  destruct Hids as [Hids|Hids].
  - split; [now rewrite Hids|]. split; [now apply (numbered_ids todos)|].
    split; [|lia]. unfold stamped. rewrite Hids.
    apply (stamped_later clock now); [lia | exact Hstamp].
  - split; [|split; [|split; [|lia]]].
    + rewrite Hids. apply NoDup_app. split; [exact Hnd|]. split; [|apply NoDup_singleton].
      intros x Hx [->|Hin]%elem_of_cons; [|inversion Hin].
      unfold stamped in Hstamp. rewrite Forall_forall in Hstamp.
      destruct (Hstamp _ Hx) as (z & [= <-] & Hz). lia.
    + unfold numbered. rewrite Hids. apply Forall_app. split; [exact Hnum|].
      constructor; [|constructor]. exists now. split; [reflexivity | lia].
    + unfold stamped. rewrite Hids. apply Forall_app. split.
      * apply (stamped_later clock now); [lia | exact Hstamp].
      * constructor; [|constructor]. exists now. split; [reflexivity | lia].
Qed.

Lemma last_tick_cons (clock : Z) (i : intent) (rest : list intent) :
  last_tick clock (i :: rest) = last_tick (last_tick clock [i]) rest.
Proof. now destruct i. Qed.

Lemma ticking_last_tick (intents : list intent) :
  forall clock, ticking clock intents -> (clock <= last_tick clock intents)%Z.
Proof.
  induction intents as [|i intents IH]; intros clock H; [cbn; lia|].
  destruct i; cbn [ticking last_tick] in *; try now apply IH.
  destruct H as [Hlt H]. specialize (IH _ H). lia.
Qed.

Lemma run_shown (v : view) (intents : list intent) :
  forall (st : state) (clock : Z) (todos : list obj),
    holds st todos -> NoDup (ids todos) -> numbered todos -> stamped clock todos ->
    (0 <= clock)%Z -> ticking clock intents ->
    (last_tick clock intents <= MAX_SAFE_INTEGER)%Z ->
    Forall from_item intents ->
    shown v st todos ->
    exists todos',
      holds (run intents st) todos' /\ numbered todos' /\ shown v (run intents st) todos'.
Proof.
  unfold run.
  induction intents as [|i intents IH];
    intros st clock todos Hst Hnd Hnum Hstamp Hclock Htick Hlast Hfrom Hsh;
    [now exists todos|].
  apply ticking_cons in Htick as [Hi Htick].
  apply Forall_cons in Hfrom as [Hfi Hfrom].
  rewrite last_tick_cons in Hlast.
  pose proof (ticking_last_tick intents _ Htick) as Hle.
  destruct (listen_shown v i st todos Hst Hnd Hnum Hsh Hfi) as (todos1 & H1 & Hsh1).
  { intros d now ->. cbn [ticking last_tick] in Hi, Hle, Hlast. lia. }
  destruct (listen_fresh_ids i st clock todos todos1 Hst Hnd Hnum Hstamp Hclock Hi)
    as (Hnd1 & Hnum1 & Hstamp1 & Hclock1); [lia | exact H1 |].
  cbn [fold_left].
  exact (IH _ _ todos1 H1 Hnd1 Hnum1 Hstamp1 Hclock1 Htick Hlast Hfrom Hsh1).
Qed.

Lemma connectedCallback_shown (v : view) (st : state) (todos : list obj) :
  dispatched st = [] -> awaiting v = true -> holds st todos -> numbered todos ->
  holds (snd (connectedCallback st)) todos /\
  shown v (snd (connectedCallback st)) todos.
Proof.
  intros Hd Hv Hst Hnum. unfold connectedCallback.
  rewrite (find_all _ _ Hst). cbn [snd]. split.
  - now apply holds_dispatchCountUpdated, holds_dispatch.
  - apply shown_dispatchCountUpdated. unfold shown. cbn [dispatch dispatched].
    rewrite Hd. cbn [app screen show]. rewrite Hv. unfold _render.
    unfold TodoList.render. now rewrite (render_loop_numbered todos Hnum).
Qed.

(** X23.  The list shows the store.  From the page load on -- the store
    connects and the list is rendered -- and through any sequence of
    intents, the list has one row for each record of the store, in the
    order of the collection, and each row shows the id, the title and the
    completed flag of its record.  This holds for a stored collection with
    distinct timestamps as ids, additions at later and later instants, all
    of them safe integers, and [remove-todo] intents that carry an id as
    an item reports it. *)
Theorem list_shows_store (st : state) (todos : list obj) (v : view) (clock : Z)
    (intents : list intent) :
  dispatched st = [] ->
  awaiting v = true ->
  holds st todos ->
  NoDup (ids todos) ->
  numbered todos ->
  stamped clock todos ->
  (0 <= clock)%Z ->
  ticking clock intents ->
  (last_tick clock intents <= MAX_SAFE_INTEGER)%Z ->
  Forall from_item intents ->
  exists todos' v',
    holds (run intents (snd (connectedCallback st))) todos' /\
    screen (dispatched (run intents (snd (connectedCallback st)))) v = Some v' /\
    Forall2 shows (rows v') todos'.
Proof.
  intros Hd Hv Hst Hnd Hnum Hstamp Hclock Htick Hlast Hfrom.
  destruct (connectedCallback_shown v st todos Hd Hv Hst Hnum) as [Hst1 Hsh1].
  destruct (run_shown v intents _ clock todos Hst1 Hnd Hnum Hstamp Hclock Htick Hlast
              Hfrom Hsh1) as (todos' & H1 & H2 & H3).
  exists todos', (mirror todos'). split; [exact H1|]. split; [exact H3|].
  now apply mirror_shows.
Qed.

Lemma list_shows_store_witness :
  exists todos' v',
    holds (run [ToggleAll [(js "completed", VBool true)];
                AddTodo [(js "title", VString (js "B"))] 7;
                UpdateTodo [(js "id", VNumber 7); (js "title", VString (js "C"))];
                RemoveTodo [(js "id", VNull)];
                ClearCompleted]
               (snd (connectedCallback (reload store_A)))) todos' /\
    screen (dispatched
              (run [ToggleAll [(js "completed", VBool true)];
                    AddTodo [(js "title", VString (js "B"))] 7;
                    UpdateTodo [(js "id", VNumber 7); (js "title", VString (js "C"))];
                    RemoveTodo [(js "id", VNull)];
                    ClearCompleted]
                   (snd (connectedCallback (reload store_A)))))
           {| rows := [∅]; awaiting := true |} = Some v' /\
    Forall2 shows (rows v') todos'.
Proof.
  apply (list_shows_store (reload store_A) [new_item (js "A") 5]
           {| rows := [∅]; awaiting := true |} 5%Z).
  - reflexivity.
  - reflexivity.
  - vm_compute. reflexivity.
  - repeat constructor. intros H. inversion H.
  - constructor; [|constructor].
    exists 5%Z. split; [reflexivity | unfold MAX_SAFE_INTEGER; lia].
  - constructor; [|constructor]. exists 5%Z. split; [reflexivity | lia].
  - lia.
  - cbn [ticking]. lia.
  - cbn [last_tick]. unfold MAX_SAFE_INTEGER. lia.
  - repeat constructor.
Defined.

(** *** Records that share an id *)

Lemma find_row_first (pre rest : list obj) (a : obj) (i : value) :
  numbered (pre ++ a :: rest) -> get a (js "id") = i -> i ∉ ids pre ->
  list_find (fun el : attributes => el !! js "id" = Some (to_string i))
            (List.map row_of (pre ++ a :: rest))
  = Some (List.length pre, row_of a).
Proof.
  intros Hnum Ha Hnot. apply list_find_Some.
  assert (Hk : (pre ++ a :: rest) !! List.length pre = Some a)
    by now rewrite list_lookup_middle.
  split; [|split].
  - now rewrite map_fmap, list_lookup_fmap, Hk.
  - now rewrite row_id, Ha.
  - intros j y Hj Hlt Hy. rewrite map_fmap, list_lookup_fmap in Hj.
    destruct ((pre ++ a :: rest) !! j) as [t'|] eqn:Hj'; [|discriminate Hj].
    injection Hj as <-. rewrite row_id in Hy. injection Hy as Hy.
    destruct (numbered_lookup _ _ _ Hnum Hk) as (z & Hz & Hz0).
    assert (E : get t' (js "id") = i).
    { apply to_string_id_inj; [now apply (numbered_lookup (pre ++ a :: rest) j)| |exact Hy].
      right. exists z. split; [congruence | exact Hz0]. }
    apply Hnot. rewrite <- E. apply ids_elem.
    rewrite lookup_app_l in Hj' by exact Hlt.
    apply list_elem_of_lookup. eauto.
Qed.

Lemma delete_middle {A} (pre rest : list A) (a : A) :
  delete (List.length pre) (pre ++ a :: rest) = pre ++ rest.
Proof.
  induction pre as [|p pre IH]; [reflexivity|].
  change (p :: delete (List.length pre) (pre ++ a :: rest) = p :: pre ++ rest).
  now rewrite IH.
Qed.

(** X24.  Two records with one id -- two additions at the same instant --
    and a removal: [removeTodo( id )] takes both records out of the store,
    the listener of [todo-removed] takes out the first row with that id
    only.  The list is left with a row for a record the store no longer
    holds. *)
Theorem shared_id_leaves_row (v : view) (st : state) (pre mid suf : list obj)
    (a b : obj) (z : Z) :
  holds st (pre ++ a :: mid ++ b :: suf) ->
  shown v st (pre ++ a :: mid ++ b :: suf) ->
  numbered (pre ++ a :: mid ++ b :: suf) ->
  get a (js "id") = VNumber z ->
  get b (js "id") = VNumber z ->
  (VNumber z ∉ ids pre) ->
  exists todos' v',
    holds (listen (RemoveTodo [(js "id", VNumber z)]) st) todos' /\
    screen (dispatched (listen (RemoveTodo [(js "id", VNumber z)]) st)) v = Some v' /\
    (VNumber z ∉ ids todos') /\
    rows v' = List.map row_of (pre ++ mid ++ b :: suf) /\
    (exists row, row ∈ rows v' /\ TodoItem.get_id row = VNumber z).
Proof.
  intros Hst Hsh Hnum Ha Hb Hnot. cbn [listen].
  change (get [(js "id", VNumber z)] (js "id")) with (VNumber z).
  rewrite (holds_after_removeTodo _ _ _ Hst). cbn [snd].
  destruct (numbered_lookup _ (List.length pre) a Hnum) as (z' & Hz' & Hz0);
    [now rewrite list_lookup_middle|].
  assert (z' = z) by congruence. subst z'.
  exists (filter (fun todo => get todo (js "id") <> VNumber z) (pre ++ a :: mid ++ b :: suf)),
         (mirror (pre ++ mid ++ b :: suf)).
  split; [apply holds_committed|]. split; [|split; [|split]].
  - unfold committed. apply shown_dispatchCountUpdated.
    apply (shown_dispatch v _ _ (pre ++ a :: mid ++ b :: suf)); [exact Hsh|].
    unfold show, TodoList.removeTodo.
    change (get [(js "id", VNumber z)] (js "id")) with (VNumber z).
    rewrite byId_id by (right; exists z; split; [reflexivity | exact Hz0]).
    unfold mirror at 1. cbn [rows].
    rewrite (find_row_first pre (mid ++ b :: suf) a (VNumber z) Hnum Ha Hnot).
    cbn [fmap option_fmap option_map fst].
    unfold after, mirror. cbn [rows awaiting]. do 2 f_equal.
    now rewrite delete_map, delete_middle.
  - intros Hin. unfold ids in Hin. rewrite map_fmap in Hin.
    apply list_elem_of_fmap in Hin as (t & Ht & Hin).
    apply list_elem_of_filter in Hin as [Hne _]. now apply Hne.
  - reflexivity.
  - exists (row_of b). split.
    + unfold mirror. cbn [rows]. rewrite map_fmap. apply list_elem_of_fmap_2.
      rewrite !elem_of_app, elem_of_cons. right. right. now left.
    + rewrite <- Hb. apply (row_shows b). exists z. split; [exact Hb | exact Hz0].
Qed.

Lemma shared_id_leaves_row_witness :
  exists todos' v',
    holds (listen (RemoveTodo [(js "id", VNumber 5)])
             (snd (addTodo (VString (js "B")) 5 store_A))) todos' /\
    screen (dispatched (listen (RemoveTodo [(js "id", VNumber 5)])
                          (snd (addTodo (VString (js "B")) 5 store_A))))
           {| rows := []; awaiting := false |} = Some v' /\
    (VNumber 5 ∉ ids todos') /\
    rows v' = List.map row_of ([] ++ [] ++ new_item (js "B") 5 :: []) /\
    (exists row, row ∈ rows v' /\ TodoItem.get_id row = VNumber 5).
Proof.
  apply (shared_id_leaves_row {| rows := []; awaiting := false |}
           (snd (addTodo (VString (js "B")) 5 store_A))
           [] [] [] (new_item (js "A") 5) (new_item (js "B") 5) 5%Z).
  - reflexivity.
  - unfold shown. vm_compute. reflexivity.
  - repeat constructor; exists 5%Z; (split; [reflexivity | unfold MAX_SAFE_INTEGER; lia]).
  - reflexivity.
  - reflexivity.
  - intros H. inversion H.
Defined.

End ViewFacts.
